(** * Chapter 2 notebooks: minimum edit distance and byte-pair encoding

    A shallow embedding of the hand-written algorithms of the
    repository:

    - [min_edit_distance] and [substitution_logic] of
      [notebooks/chapter_02/chapter_02_edit_distance.ipynb];
    - the class [bpe_tokenizer] of
      [notebooks/chapter_02/Chapter_02_words_and_tokens.ipynb];
    - the reference implementation of byte-pair encoding in the last
      code cell of the same notebook: [get_stats], [merge_vocab] and the
      loop that drives them.

    Python integers are [Z]; the costs are taken to be Python integers.
    The cells of the numpy table are [float64] values, which for integer
    costs are integers or infinities; their arithmetic is modelled with
    its rounding.  Characters are restricted to the
    256 code points of [ascii]: the two strings compared by
    [min_edit_distance] are lists of characters, the words and keys of
    the tokenizer are [string]s.  Python dictionaries and sets are lists
    in insertion order.  A Python exception is modelled by the name of
    its class; a function that can raise returns a [result]. *)

From Stdlib Require Import ZArith Lia List Ascii String.
From stdpp Require Import base list strings.

(** ** Python results *)

(** The class name of a raised exception. *)
Definition exn := string.

Definition IndexError : exn := "IndexError".
Definition NameError : exn := "NameError".
Definition ValueError : exn := "ValueError".
Definition OverflowError : exn := "OverflowError".

(** The two error names used by the specification.  No class of either
    name is defined or raised anywhere in the notebooks. *)
Definition InvalidCostError : exn := "InvalidCostError".

Inductive result (A : Type) : Type :=
| Ok (value : A)
| Raise (exception_class : exn).

Arguments Ok {A} value.
Arguments Raise {A} exception_class.

#[global] Instance result_ret : MRet result := fun A => @Ok A.

#[global] Instance result_bind : MBind result := fun A B f m =>
  match m with
  | Ok a => f a
  | Raise e => Raise e
  end.

(** [for x in xs: s = body x s], stopping at the first exception. *)
Fixpoint for_ {X St : Type} (xs : list X) (body : X -> St -> result St) (s : St)
  : result St :=
  match xs with
  | [] => Ok s
  | x :: xs' => s' ← body x s; for_ xs' body s'
  end.

(** [range(a, b)] for natural bounds. *)
Definition range (a b : nat) : list nat := seq a (b - a).

(** [itertools.product(xs, ys)]: the pairs in row-major order. *)
Definition product {X Y : Type} (xs : list X) (ys : list Y) : list (X * Y) :=
  list_prod xs ys.

(** [s[i]] on a sequence, raising [IndexError] out of range. *)
Definition item {A : Type} (s : list A) (i : nat) : result A :=
  match s !! i with
  | Some x => Ok x
  | None => Raise IndexError
  end.

(** [list(s)] on a string: its characters. *)
Definition chars (s : string) : list ascii := list_ascii_of_string s.

(** * Minimum edit distance *)

Module EditDistance.

(** [substitution_logic(source_letter, target_letter, cost)]. *)
Definition substitution_logic (source_letter target_letter : ascii) (cost : Z) : Z :=
  if decide (source_letter = target_letter) then 0%Z else cost.

(** ** The cells of the table: numpy's [float64]

    [np.zeros((n, m))] is an array of [float64].  Every cell is 0 or the
    sum of a cell and an integer cost, so it is a float64 whose value is
    an integer, or an infinity.  A float64 has a significand of 53 bits
    and its finite values are below [2^1024]. *)

Inductive float64 : Type :=
| Finite (value : Z)
| Infinity (negative : bool).

(** The float64 nearest to the integer [z], ties going to the even
    significand: the integer itself below [2^53] in magnitude, an
    infinity when the nearest value is beyond the finite range. *)
Definition round64 (z : Z) : float64 :=
  let a := Z.abs z in
  if (a <? 2 ^ 53)%Z then Finite z
  else
    let e := (Z.log2 a - 52)%Z in
    let q := (a / 2 ^ e)%Z in
    let r := (a mod 2 ^ e)%Z in
    let half := (2 ^ (e - 1))%Z in
    let q' := if ((half <? r) || ((r =? half) && Z.odd q))%Z then (q + 1)%Z else q in
    if (q' * 2 ^ e <? 2 ^ 1024)%Z
    then Finite (Z.sgn z * (q' * 2 ^ e))%Z
    else Infinity (z <? 0)%Z.

(** The float64 sum of [x] and the finite float64 of value [y]. *)
Definition float64_add (x : float64) (y : Z) : float64 :=
  match x with
  | Finite a => round64 (a + y)
  | Infinity negative => Infinity negative
  end.

(** [x + cost] for a float64 [x] and a Python integer [cost]: the integer
    is converted to float64, which raises [OverflowError] when it is
    beyond the finite range, and the two are added in float64. *)
Definition add (x : float64) (cost : Z) : result float64 :=
  match round64 cost with
  | Infinity _ => Raise OverflowError
  | Finite y => Ok (float64_add x y)
  end.

(** An integer that converts to a float64: the float64 nearest to it is
    finite. *)
Definition converts (cost : Z) : Prop := exists y, round64 cost = Finite y.

(** [x < y] on float64. *)
Definition lt (x y : float64) : bool :=
  match x, y with
  | Finite a, Finite b => (a <? b)%Z
  | Finite _, Infinity negative => negb negative
  | Infinity negative, Finite _ => negative
  | Infinity negative, Infinity negative' => negative && negb negative'
  end.

(** Python's [min(a, b, c)]: the first of the smallest arguments. *)
Definition min3 (a b c : float64) : float64 :=
  let smallest := if lt b a then b else a in
  if lt c smallest then c else smallest.

(** [np.zeros((n, m))]: a list of [n] rows of [m] cells. *)
Definition zeros (n m : nat) : list (list float64) :=
  replicate n (replicate m (Finite 0)).

(** Reading [table[row, col]], for the natural indices that the loops
    produce. *)
Definition getitem {A : Type} (table : list (list A)) (row col : nat) : result A :=
  r ← item table row; item r col.

(** The assignment [table[row, col] = v]. *)
Definition setitem {A : Type} (table : list (list A)) (row col : nat) (v : A)
  : result (list (list A)) :=
  match table !! row with
  | Some r =>
      if decide (col < length r)
      then Ok (<[row := <[col := v]> r]> table)
      else Raise IndexError
  | None => Raise IndexError
  end.

(** The body of [min_edit_distance] up to the end of its last loop: the
    value of the local variable [table] at that point. *)
Definition min_edit_distance_table (source target : list ascii)
    (insert_cost delete_cost substitute_cost : Z) : result (list (list float64)) :=
  let source := "#"%char :: source in
  let target := "#"%char :: target in
  let n := length source in
  let m := length target in
  let table := zeros n m in
  table ← for_ (range 1 n) (fun row table =>
    up ← getitem table (row - 1) 0;
    value ← add up delete_cost;
    setitem table row 0 value) table;
  table ← for_ (range 1 m) (fun col table =>
    left ← getitem table 0 (col - 1);
    value ← add left insert_cost;
    setitem table 0 col value) table;
  for_ (product (range 1 n) (range 1 m)) (fun '(row, col) table =>
    up ← getitem table (row - 1) col;
    deletion ← add up delete_cost;
    diag ← getitem table (row - 1) (col - 1);
    source_letter ← item source row;
    target_letter ← item target col;
    substitution ←
      add diag (substitution_logic source_letter target_letter substitute_cost);
    left ← getitem table row (col - 1);
    insertion ← add left insert_cost;
    setitem table row col (min3 deletion substitution insertion)) table.

(** A [pandas.DataFrame] of integers: the values with their column and
    row labels. *)
Record DataFrame : Type := {
  values : list (list Z);
  columns : list ascii;
  index : list ascii
}.

(** An integer that [int64], the [dtype] of the frame, can hold. *)
Definition int64 (z : Z) : Prop := (- 2 ^ 63 <= z < 2 ^ 63)%Z.

(** [pd.DataFrame(data, columns=columns, dtype=int)] for rows of
    integers: pandas refuses data whose rows do not have one cell per
    column label, and integers that [int64] cannot hold. *)
Definition new_DataFrame (data : list (list Z)) (columns : list ascii)
  : result DataFrame :=
  if decide (Forall (fun r => length r = length columns) data)
  then
    if decide (Forall (Forall int64) data)
    then Ok {| values := data; columns := columns; index := [] |}
    else Raise OverflowError
  else Raise ValueError.

(** [df.index = labels]: pandas refuses a label list of another length. *)
Definition set_index (df : DataFrame) (labels : list ascii) : result DataFrame :=
  if decide (length labels = length (values df))
  then Ok {| values := values df; columns := columns df; index := labels |}
  else Raise ValueError.

(** [min_edit_distance(source, target, insert_cost, delete_cost,
    substitute_cost)].  The frame is built from the name [res], which the
    function neither binds nor receives: it is looked up among the
    notebook's globals, given here as [res] ([None] when unbound; no cell
    of the notebook binds it; [Some] rows of integers otherwise). *)
Definition min_edit_distance (res : option (list (list Z)))
    (source target : list ascii)
    (insert_cost delete_cost substitute_cost : Z) : result DataFrame :=
  table ← min_edit_distance_table source target insert_cost delete_cost substitute_cost;
  match res with
  | None => Raise NameError
  | Some res =>
      df ← new_DataFrame res ("#"%char :: target);
      set_index df ("#"%char :: source)
  end.

(** ** Specification-level notions for the edit distance *)

(** The minimum of three integers. *)
Definition minimum3 (a b c : Z) : Z := Z.min a (Z.min b c).

(** The textbook recurrence on whole sequences, in exact integer
    arithmetic, consuming both sequences from the front.  Where float64
    is exact, the table of [min_edit_distance_table] holds its values on
    the reversed prefixes (see [EditDistanceTheory.table_cells]). *)
Fixpoint lev (ic dc sc : Z) (s t : list ascii) {struct s} : Z :=
  match s with
  | [] => (Z.of_nat (length t) * ic)%Z
  | a :: s' =>
      (fix lev_row (t : list ascii) : Z :=
         match t with
         | [] => (Z.of_nat (length s) * dc)%Z
         | b :: t' =>
             minimum3 (lev ic dc sc s' t + dc)
                      (lev ic dc sc s' t' + substitution_logic a b sc)
                      (lev_row t' + ic)
         end) t
  end.

(** The same recurrence in float64 arithmetic, for costs that are
    float64 values: what the loops compute when no cost is beyond the
    range (see [EditDistanceTheory.table_cells_float64]). *)
Fixpoint lev_float64 (ic dc sc : Z) (s t : list ascii) {struct s} : float64 :=
  match s with
  | [] => Nat.iter (length t) (fun x => float64_add x ic) (Finite 0)
  | a :: s' =>
      (fix lev_row (t : list ascii) : float64 :=
         match t with
         | [] => Nat.iter (length s) (fun x => float64_add x dc) (Finite 0)
         | b :: t' =>
             min3 (float64_add (lev_float64 ic dc sc s' t) dc)
                  (float64_add (lev_float64 ic dc sc s' t') (substitution_logic a b sc))
                  (float64_add (lev_row t') ic)
         end) t
  end.

(** A float64 that is not negative. *)
Definition nonnegative (x : float64) : Prop :=
  match x with
  | Finite a => (0 <= a)%Z
  | Infinity negative => negative = false
  end.

Section EditSequences.

Variables insert_cost delete_cost substitute_cost : Z.

(** One single-symbol edit anywhere in a sequence, with its cost. *)
Inductive edit_step : Z -> list ascii -> list ascii -> Prop :=
| step_insert l1 b l2 :
    edit_step insert_cost (l1 ++ l2) (l1 ++ b :: l2)
| step_delete l1 a l2 :
    edit_step delete_cost (l1 ++ a :: l2) (l1 ++ l2)
| step_substitute l1 a b l2 :
    a <> b ->
    edit_step substitute_cost (l1 ++ a :: l2) (l1 ++ b :: l2).

(** A sequence of edits transforming the first sequence into the second,
    with the sum of the costs of its steps. *)
Inductive edit_sequence : Z -> list ascii -> list ascii -> Prop :=
| edits_done s : edit_sequence 0 s s
| edits_step c1 c2 s u t :
    edit_step c1 s u -> edit_sequence c2 u t ->
    edit_sequence (c1 + c2) s t.

End EditSequences.

(** The recurrence between the first [r] symbols of [source] and the
    first [c] symbols of [target]. *)
Definition prefix_distance (ic dc sc : Z) (source target : list ascii)
    (r c : nat) : Z :=
  lev ic dc sc (rev (take r source)) (rev (take c target)).

(** The shape of a table: [n] rows of [m] cells. *)
Definition dims {A : Type} (table : list (list A)) (n m : nat) : Prop :=
  length table = n /\ Forall (fun r => length r = m) table.

(** Costs with which float64 is exact on the table for [source] and
    [target]: they are not negative, and the largest sum that the loops
    can form is below [2^53]. *)
Definition exact_costs (source target : list ascii) (ic dc sc : Z) : Prop :=
  (0 <= ic)%Z /\ (0 <= dc)%Z /\ (0 <= sc)%Z
  /\ (Z.of_nat (length source) * dc + Z.of_nat (length target) * ic + sc < 2 ^ 53)%Z.

End EditDistance.

(** * Byte-pair encoding *)

Module BPE.

(** ** Python dictionaries

    A [dict] keeps its keys in insertion order; assigning to a key that is
    present replaces its value in place, and assigning to a new key
    appends it. *)

Section Dict.

Context {K V : Type} `{EqDecision K}.

Fixpoint dict_get (d : list (K * V)) (k : K) : option V :=
  match d with
  | [] => None
  | (k', v) :: d' => if decide (k = k') then Some v else dict_get d' k
  end.

Fixpoint dict_set (d : list (K * V)) (k : K) (v : V) : list (K * V) :=
  match d with
  | [] => [(k, v)]
  | (k', v') :: d' =>
      if decide (k = k') then (k', v) :: d' else (k', v') :: dict_set d' k v
  end.

End Dict.

(** [d[k] += value] on a [Counter] or a [defaultdict(int)]. *)
Definition dict_add {K : Type} `{EqDecision K} (d : list (K * Z)) (k : K) (value : Z)
  : list (K * Z) :=
  dict_set d k (default 0%Z (dict_get d k) + value)%Z.

(** [counts.update(tokens)] on a [Counter]. *)
Definition Counter_update (counts : list (string * Z)) (tokens : list string)
  : list (string * Z) :=
  fold_left (fun counts token => dict_add counts token 1%Z) tokens counts.

(** [s.update(xs)] on a [set], kept as a duplicate-free list in the order
    of first insertion. *)
Definition set_update {X : Type} `{EqDecision X} (s : list X) (xs : list X) : list X :=
  fold_left (fun s x => if decide (x ∈ s) then s else s ++ [x]) xs s.

(** [max(xs, key=key)]: the first element with the largest key; a
    [ValueError] on an empty sequence. *)
Fixpoint max_from {X : Type} (key : X -> Z) (best : X) (xs : list X) : X :=
  match xs with
  | [] => best
  | x :: xs' =>
      if (key best <? key x)%Z then max_from key x xs' else max_from key best xs'
  end.

Definition py_max {X : Type} (xs : list X) (key : X -> Z) : result X :=
  match xs with
  | [] => Raise ValueError
  | x :: xs' => Ok (max_from key x xs')
  end.

(** ** Python strings *)

(** [c.isspace()] for the code points below 256. *)
Definition isspace (c : ascii) : bool :=
  let n := nat_of_ascii c in
  ((9 <=? n) && (n <=? 13)) || ((28 <=? n) && (n <=? 32)) || (n =? 133) || (n =? 160).

(** [s.split()]: the maximal runs of characters that are not white space.
    [word] is the run read so far. *)
Fixpoint split_from (word : string) (s : string) : list string :=
  match s with
  | EmptyString => if decide (word = "") then [] else [word]
  | String c s' =>
      if isspace c
      then (if decide (word = "") then [] else [word]) ++ split_from "" s'
      else split_from (word +:+ String c "") s'
  end.

Definition split (s : string) : list string := split_from "" s.

(** [sep.join(xs)]. *)
Definition join (sep : string) (xs : list string) : string := String.concat sep xs.

(** [list(s)]: the characters of [s] as strings of length one. *)
Definition list_str (s : string) : list string :=
  map (fun c => String c "") (list_ascii_of_string s).

(** ** The class [bpe_tokenizer] *)

Record bpe_tokenizer : Type := {
  corpus : list string;
  n_merges : Z;
  n_merges_done : Z;
  token_counts : list (string * Z);
  vocab : list string
}.

(** [make_bpe_style_tokens(token_counts)]. *)
Definition make_bpe_style_tokens (token_counts : list (string * Z))
  : list (string * Z) :=
  fold_left (fun new_token_counts '(key, value) =>
    let characters := list_str key ++ ["</W>"] in
    let new_key := join " " characters in
    dict_set new_token_counts new_key value) token_counts [].

(** [initialize_vocab] on the token counts.  Python leaves the order of
    [list(vocab)] for a set unspecified; here it is the order of first
    insertion.  The class only ever tests membership in [vocab]. *)
Definition initialize_vocab (token_counts : list (string * Z)) : list string :=
  fold_left (fun vocab '(token, _) =>
    let characters := split token in
    set_update vocab characters) token_counts [].

Section Tokenizer.

(** The spaCy tokenizer, an external collaborator: the texts of the
    tokens of one text that are neither punctuation nor white space,
    [[t.text for t in text if not t.is_punct and not t.is_space]]. *)
Variable tokens_of : string -> list string.

(** [count_tokens]. *)
Definition count_tokens (corpus : list string) : list (string * Z) :=
  let token_counts :=
    fold_left (fun token_counts text =>
      let tokens := tokens_of text in
      Counter_update token_counts tokens) corpus [] in
  make_bpe_style_tokens token_counts.

(** [bpe_tokenizer(corpus, n_merges)]. *)
Definition __init__ (corpus : list string) (n_merges : Z) : bpe_tokenizer :=
  let token_counts := count_tokens corpus in
  {| corpus := corpus;
     n_merges := n_merges;
     n_merges_done := 0;
     token_counts := token_counts;
     vocab := initialize_vocab token_counts |}.

End Tokenizer.

(** The [pairs] mapping built by the loops of [find_most_common_pair]. *)
Definition count_pairs (token_counts : list (string * Z))
  : result (list ((string * string) * Z)) :=
  for_ token_counts (fun '(token, value) pairs =>
    let characters := split token in
    for_ (range 0 (length characters - 1)) (fun index pairs =>
      first ← item characters index;
      second ← item characters (index + 1);
      Ok (dict_add pairs (first, second) value)) pairs) [].

(** [find_most_common_pair].  [pairs.get] is only applied to keys of
    [pairs], where it returns their count. *)
Definition find_most_common_pair (self : bpe_tokenizer) : result (string * string) :=
  pairs ← count_pairs (token_counts self);
  py_max (map fst pairs) (fun pair => default 0%Z (dict_get pairs pair)).

(** [modify_vocab]. *)
Definition modify_vocab (self : bpe_tokenizer) (new_character : string)
  : bpe_tokenizer :=
  {| corpus := corpus self;
     n_merges := n_merges self;
     n_merges_done := n_merges_done self;
     token_counts := token_counts self;
     vocab := vocab self ++ [new_character] |}.

(** The [while] loop of [modify_tokens] with the [if] that follows it:
    the final value of [new_characters] for the given [characters].  Each
    unfolding is one iteration of the loop, which appends one symbol to
    [new_characters] and pops the first one or two of [characters]. *)
Fixpoint merge_characters (vocab : list string) (characters : list string)
  : list string :=
  match characters with
  | c0 :: ((c1 :: rest) as tail) =>
      let merged_characters := c0 +:+ c1 in
      if decide (merged_characters ∈ vocab)
      then merged_characters :: merge_characters vocab rest
      else c0 :: merge_characters vocab tail
  | [c0] => [c0]
  | [] => []
  end.

(** [modify_tokens].  The argument [new_character] is not used by the
    method. *)
Definition modify_tokens (self : bpe_tokenizer) (new_character : string)
  : bpe_tokenizer :=
  let modified_token_frequencies :=
    fold_left (fun modified_token_frequencies '(token, value) =>
      let characters := split token in
      let new_characters := merge_characters (vocab self) characters in
      let new_token := join " " new_characters in
      dict_set modified_token_frequencies new_token value) (token_counts self) [] in
  {| corpus := corpus self;
     n_merges := n_merges self;
     n_merges_done := n_merges_done self;
     token_counts := modified_token_frequencies;
     vocab := vocab self |}.

(** One iteration of the loop of [merge]: the selected pair and the
    object after the iteration, or the exception that ends the loop. *)
Definition step (self : bpe_tokenizer) : result ((string * string) * bpe_tokenizer) :=
  pair ← find_most_common_pair self;
  let merged_pair := pair.1 +:+ pair.2 in
  let self := modify_vocab self merged_pair in
  let self := modify_tokens self merged_pair in
  Ok (pair, self).

(** [for i in range(n)]: the object as the loop leaves it, and how the
    loop ended. *)
Fixpoint merge_loop (n : nat) (self : bpe_tokenizer) : bpe_tokenizer * result unit :=
  match n with
  | 0 => (self, Ok tt)
  | S n' =>
      match step self with
      | Ok (_, self') => merge_loop n' self'
      | Raise e => (self, Raise e)
      end
  end.

(** The assignment [self.n_merges_done = v]. *)
Definition set_n_merges_done (self : bpe_tokenizer) (v : Z) : bpe_tokenizer :=
  {| corpus := corpus self;
     n_merges := n_merges self;
     n_merges_done := v;
     token_counts := token_counts self;
     vocab := vocab self |}.

(** [merge(n)]: the object after the call and the outcome of the call. *)
Definition merge (self : bpe_tokenizer) (n : option Z) : bpe_tokenizer * result unit :=
  let n := default (n_merges self) n in
  match merge_loop (Z.to_nat n) self with
  | (self, Ok _) => (set_n_merges_done self (n_merges_done self + n)%Z, Ok tt)
  | (self, Raise e) => (self, Raise e)
  end.

(** ** Specification-level notions for the trainer *)

(** A string without white space. *)
Definition spaceless (w : string) : Prop :=
  Forall (fun c => isspace c = false) (list_ascii_of_string w).

(** A symbol as [split] yields them: not empty, without white space. *)
Definition symbol (w : string) : Prop := w <> "" /\ spaceless w.

(** The adjacent pairs of a symbol sequence, from left to right. *)
Definition adjacent_pairs (characters : list string) : list (string * string) :=
  zip characters (drop 1 characters).

(** Every adjacent pair met when the keys of [token_counts] are scanned in
    their order and each key from left to right, with the count of the
    key it is met in. *)
Definition scanned_pairs (token_counts : list (string * Z))
  : list ((string * string) * Z) :=
  flat_map (fun '(token, value) =>
    map (fun pair => (pair, value)) (adjacent_pairs (split token))) token_counts.

(** The aggregate weighted count of [pair] in a scan. *)
Definition pair_count (scan : list ((string * string) * Z)) (pair : string * string) : Z :=
  fold_right (fun '(p, value) total =>
    if decide (p = pair) then (value + total)%Z else total) 0%Z scan.

(** Every symbol of every key of [token_counts] is in [vocab]. *)
Definition vocab_invariant (self : bpe_tokenizer) : Prop :=
  Forall (fun '(key, _) => Forall (fun sym => sym ∈ vocab self) (split key))
         (token_counts self).

(** The objects a program can hold: a freshly constructed tokenizer, and
    the object after one more loop iteration or one more call of [merge]
    (whether or not the call ends in an exception). *)
Inductive reachable (tokens_of : string -> list string) : bpe_tokenizer -> Prop :=
| reachable_init corpus n_merges :
    reachable tokens_of (__init__ tokens_of corpus n_merges)
| reachable_step self pair self' :
    reachable tokens_of self -> step self = Ok (pair, self') ->
    reachable tokens_of self'
| reachable_merge self n :
    reachable tokens_of self -> reachable tokens_of (merge self n).1.

(** [steps n self self']: [n] successive loop iterations, none of which
    raises, lead from [self] to [self']. *)
Inductive steps : nat -> bpe_tokenizer -> bpe_tokenizer -> Prop :=
| steps_O self : steps 0 self self
| steps_S n self pair self' self'' :
    step self = Ok (pair, self') -> steps n self' self'' ->
    steps (S n) self self''.

(** The pairs selected by the first [n] loop iterations. *)
Fixpoint selected_pairs (n : nat) (self : bpe_tokenizer) : list (string * string) :=
  match n with
  | 0 => []
  | S n' =>
      match step self with
      | Ok (chosen, self') => chosen :: selected_pairs n' self'
      | Raise _ => []
      end
  end.

(** The rewrite of a key as the specification words it: scanning from
    left to right, every non-overlapping adjacent occurrence of [a]
    followed by [b] is replaced by their concatenation, and nothing else
    changes. *)
Fixpoint replace_pair (a b : string) (characters : list string) : list string :=
  match characters with
  | c0 :: ((c1 :: rest) as tail) =>
      if decide (c0 = a /\ c1 = b)
      then (a +:+ b) :: replace_pair a b rest
      else c0 :: replace_pair a b tail
  | [c0] => [c0]
  | [] => []
  end.

(** The corpus of the notebook's textbook example. *)
Definition example_text : list string :=
  replicate 5 "low" ++ replicate 2 "lowest" ++ replicate 6 "newer"
  ++ replicate 3 "wider" ++ replicate 2 "new".

(** A tokenizer for texts that are single words. *)
Definition one_token (text : string) : list string := [text].

(** [example_tokenizer = bpe_tokenizer(example_text)] of the notebook. *)
Definition example_tokenizer : bpe_tokenizer := __init__ one_token example_text 10.


(** A trainer after two merges on a corpus whose words are pieces of the
    end-of-word marker. *)
Definition marker_tokenizer : bpe_tokenizer :=
  (merge (__init__ one_token ["</W>"; "</"; "</"; "W>"; "W>"] 10) (Some 2%Z)).1.

(** ** Notions for the counts and the words of the keys *)

(** The tokens of a corpus, text after text. *)
Definition corpus_tokens (tokens_of : string -> list string) (corpus : list string)
  : list string :=
  flat_map tokens_of corpus.

(** The key that [make_bpe_style_tokens] builds for a token: its
    characters and the end-of-word marker, separated by single spaces. *)
Definition bpe_key (token : string) : string := join " " (list_str token ++ ["</W>"]).

(** How often [token] occurs in [tokens]. *)
Definition occurrences (token : string) (tokens : list string) : Z :=
  fold_right (fun t total => if decide (t = token) then (1 + total)%Z else total)
             0%Z tokens.

(** The word that a key spells: its symbols written one after the other. *)
Definition spelled (key : string) : string := join "" (split key).

(** The number of symbols of all keys together. *)
Definition symbol_total (token_counts : list (string * Z)) : nat :=
  list_sum (map (fun '(key, _) => length (split key)) token_counts).

(** The keys of [self], in their order, spell the distinct tokens of the
    corpus in the order of their first occurrence, each followed by the
    marker, and carry the number of occurrences of their token. *)
Definition words_counted (tokens_of : string -> list string) (self : bpe_tokenizer)
  : Prop :=
  let tokens := corpus_tokens tokens_of (corpus self) in
  map (fun '(key, value) => (spelled key, value)) (token_counts self)
  = map (fun token => (token +:+ "</W>", occurrences token tokens))
        (set_update [] tokens).

End BPE.

(** * The reference implementation of byte-pair encoding

    [get_stats], [merge_vocab] and the loop that drives them, in the last
    code cell of [Chapter_02_words_and_tokens.ipynb]. *)

Module Reference.

Import BPE.

Definition KeyError : exn := "KeyError".

(** [d[k]] on a [dict]. *)
Definition dict_item {K V : Type} `{EqDecision K} (d : list (K * V)) (k : K) : result V :=
  match dict_get d k with
  | Some v => Ok v
  | None => Raise KeyError
  end.

(** [get_stats(vocab)]. *)
Definition get_stats (vocab : list (string * Z))
  : result (list ((string * string) * Z)) :=
  for_ vocab (fun '(word, freq) pairs =>
    let symbols := split word in
    for_ (range 0 (length symbols - 1)) (fun i pairs =>
      first ← item symbols i;
      second ← item symbols (i + 1);
      Ok (dict_add pairs (first, second) freq)) pairs) [].

(** ** The pattern [(?<!\S)bigram(?!\S)]

    [re.escape] makes [bigram] a literal.  [\S] is a character that is
    not white space. *)

(** [(?<!\S)] at a position whose preceding character is [before]
    ([None] at the start of the string). *)
Definition not_after_nonspace (before : option ascii) : bool :=
  match before with
  | None => true
  | Some c => isspace c
  end.

(** [(?!\S)] at the position in front of [s]. *)
Definition not_before_nonspace (s : string) : bool :=
  match s with
  | EmptyString => true
  | String c _ => isspace c
  end.

(** The rest of [s] after [literal], when [s] starts with it. *)
Fixpoint match_literal (literal s : string) : option string :=
  match literal, s with
  | EmptyString, _ => Some s
  | String a literal', String c s' =>
      if decide (a = c) then match_literal literal' s' else None
  | String _ _, EmptyString => None
  end.

(** Whether the pattern matches at the position in front of [s]. *)
Definition matches_here (literal : string) (before : option ascii) (s : string) : bool :=
  not_after_nonspace before
  && match match_literal literal s with
     | Some rest => not_before_nonspace rest
     | None => false
     end.

(** [p.sub(repl, s)] for a literal that is not empty and a replacement
    without backslash: from left to right, every match that does not
    overlap an earlier one is replaced by [repl].  [inside] is the number
    of characters of the current match that are still to be passed over,
    [before] the character in front of the position. *)
Fixpoint sub_from (literal repl : string) (inside : nat) (before : option ascii)
    (s : string) : string :=
  match s with
  | EmptyString => ""
  | String c s' =>
      match inside with
      | S inside' => sub_from literal repl inside' (Some c) s'
      | 0 =>
          if matches_here literal before s
          then repl +:+ sub_from literal repl (String.length literal - 1) (Some c) s'
          else String c (sub_from literal repl 0 (Some c) s')
      end
  end.

(** The character in front of the position that follows [u], when
    [before] is the character in front of [u]. *)
Fixpoint last_char (before : option ascii) (u : string) : option ascii :=
  match u with
  | EmptyString => before
  | String c u' => last_char (Some c) u'
  end.

Definition has_backslash (s : string) : bool :=
  existsb (fun c => bool_decide (c = ascii_of_nat 92)) (chars s).

Section Regex.

(** A replacement that contains a backslash is a template for [re]: its
    escape sequences and group references are expanded, or rejected,
    by the library.  [sub_template literal repl s] stands for that
    substitution. *)
Variable sub_template : string -> string -> string -> result string.

(** [re.compile(r'(?<!\S)' + re.escape(literal) + r'(?!\S)').sub(repl, s)]. *)
Definition pattern_sub (literal repl s : string) : result string :=
  if has_backslash repl
  then sub_template literal repl s
  else Ok (sub_from literal repl 0 None s).

(** [merge_vocab(pair, v_in)]. *)
Definition merge_vocab (pair : string * string) (v_in : list (string * Z))
  : result (list (string * Z)) :=
  let v_out := [] in
  let bigram := join " " [pair.1; pair.2] in
  for_ (map fst v_in) (fun word v_out =>
    w_out ← pattern_sub bigram (join "" [pair.1; pair.2]) word;
    value ← dict_item v_in word;
    Ok (dict_set v_out w_out value)) v_out.

(** The loop [for i in range(num_merges)] of the cell: the pairs it
    prints and the final [vocab]. *)
Fixpoint learn (num_merges : nat) (vocab : list (string * Z))
  : result (list (string * string) * list (string * Z)) :=
  match num_merges with
  | 0 => Ok ([], vocab)
  | S num_merges' =>
      pairs ← get_stats vocab;
      best ← py_max (map fst pairs) (fun pair => default 0%Z (dict_get pairs pair));
      vocab ← merge_vocab best vocab;
      '(printed, vocab) ← learn num_merges' vocab;
      Ok (best :: printed, vocab)
  end.

End Regex.

(** The [vocab] of the cell. *)
Definition example_vocab : list (string * Z) :=
  [("l o w </w>", 5%Z); ("l o w e s t </w>", 2%Z); ("n e w e r </w>", 6%Z);
   ("w i d e r </w>", 3%Z); ("n e w </w>", 2%Z)].

End Reference.

(** * Theory of the Python prelude *)

Module PythonTheory.

Lemma bind_Ok {A B : Type} (m : result A) (f : A -> result B) (b : B) :
  m ≫= f = Ok b <-> exists a, m = Ok a /\ f a = Ok b.
Proof.
  destruct m as [a|e]; simpl; split.
  - intros H. exists a. auto.
  - intros (a' & [= <-] & H). exact H.
  - discriminate.
  - intros (a' & [=] & _).
Qed.

Lemma item_Ok {A : Type} (s : list A) (i : nat) (x : A) :
  item s i = Ok x <-> s !! i = Some x.
Proof.
  unfold item. destruct (s !! i); split; intros H; congruence.
Qed.

Lemma for_app {X St : Type} (xs ys : list X) (body : X -> St -> result St) (s : St) :
  for_ (xs ++ ys) body s = s' ← for_ xs body s; for_ ys body s'.
Proof.
  revert s. induction xs as [|x xs IH]; intros s; simpl; [reflexivity|].
  destruct (body x s) as [s'|e]; simpl; [apply IH | reflexivity].
Qed.

Lemma for_map {X Y St : Type} (f : X -> Y) (xs : list X)
    (body : Y -> St -> result St) (s : St) :
  for_ (map f xs) body s = for_ xs (fun x => body (f x)) s.
Proof.
  revert s. induction xs as [|x xs IH]; intros s; simpl; [reflexivity|].
  destruct (body (f x) s) as [s'|e]; simpl; [apply IH | reflexivity].
Qed.

(** A loop over [itertools.product] is the nested loop. *)
Lemma for_product {X Y St : Type} (xs : list X) (ys : list Y)
    (body : X * Y -> St -> result St) (s : St) :
  for_ (product xs ys) body s
  = for_ xs (fun x s => for_ ys (fun y => body (x, y)) s) s.
Proof.
  unfold product. revert s. induction xs as [|x xs IH]; intros s; simpl; [reflexivity|].
  rewrite for_app, for_map.
  destruct (for_ ys (fun y => body (x, y)) s) as [s'|e]; simpl; [apply IH | reflexivity].
Qed.

(** Invariant rule for a loop over [range(a, b)]: an invariant that holds
    before the loop and is carried by every iteration, none of which
    raises, holds after the loop, which does not raise. *)
Lemma for_range_inv {St : Type} (I : nat -> St -> Prop) (a b : nat)
    (body : nat -> St -> result St) (s0 : St) :
  a <= b ->
  I a s0 ->
  (forall i s, a <= i < b -> I i s -> exists s', body i s = Ok s' /\ I (S i) s') ->
  exists s', for_ (range a b) body s0 = Ok s' /\ I b s'.
Proof.
  intros Hab H0 Hstep. unfold range.
  remember (b - a) as k eqn:Hk.
  assert (Hb : b = a + k) by lia. subst b. clear Hk Hab.
  revert a s0 H0 Hstep. induction k as [|k IH]; intros a s0 H0 Hstep; simpl.
  - exists s0. split; [reflexivity|]. replace (a + 0) with a by lia. exact H0.
  - destruct (Hstep a s0) as (s1 & Hb1 & HI1); [lia | exact H0 |].
    rewrite Hb1. simpl.
    destruct (IH (S a) s1 HI1) as (s' & Hfor & HI).
    + intros i s Hi. apply Hstep. lia.
    + exists s'. split; [exact Hfor|]. replace (a + S k) with (S a + k) by lia. exact HI.
Qed.

(** The same rule for a loop whose iterations may raise: the invariant
    holds after a loop that ends, and a property of the exception holds
    of the exception of a loop that raises. *)
Lemma for_range_inv_exn {St : Type} (I : nat -> St -> Prop) (E : exn -> Prop)
    (a b : nat) (body : nat -> St -> result St) (s0 : St) :
  a <= b ->
  I a s0 ->
  (forall i s, a <= i < b -> I i s ->
     match body i s with Ok s' => I (S i) s' | Raise e => E e end) ->
  match for_ (range a b) body s0 with Ok s' => I b s' | Raise e => E e end.
Proof.
  intros Hab H0 Hstep. unfold range.
  remember (b - a) as k eqn:Hk.
  assert (Hb : b = a + k) by lia. subst b. clear Hk Hab.
  revert a s0 H0 Hstep. induction k as [|k IH]; intros a s0 H0 Hstep; simpl.
  - replace (a + 0) with a by lia. exact H0.
  - pose proof (Hstep a s0 ltac:(lia) H0) as Hfirst.
    destruct (body a s0) as [s1|e]; simpl; [|exact Hfirst].
    replace (a + S k) with (S a + k) by lia. apply IH; [exact Hfirst|].
    intros i s Hi. apply Hstep. lia.
Qed.

End PythonTheory.

(** * Theory of the edit distance *)

Module EditDistanceTheory.
Import EditDistance PythonTheory.

(** ** Reading and writing cells *)

Lemma getitem_Ok {A : Type} (t : list (list A)) (r c : nat) (v : A) :
  getitem t r c = Ok v <-> exists row, t !! r = Some row /\ row !! c = Some v.
Proof.
  unfold getitem. rewrite bind_Ok. split.
  - intros (row & H1 & H2). exists row. split; apply item_Ok; assumption.
  - intros (row & H1 & H2). exists row. split; apply item_Ok; assumption.
Qed.

Lemma dims_zeros (n m : nat) : dims (zeros n m) n m.
Proof.
  unfold dims, zeros. split.
  - apply length_replicate.
  - apply Forall_forall. intros r Hr.
    apply elem_of_replicate in Hr as [-> _].
    apply length_replicate.
Qed.

Lemma getitem_zeros (n m r c : nat) :
  r < n -> c < m -> getitem (zeros n m) r c = Ok (Finite 0).
Proof.
  intros Hr Hc. apply getitem_Ok. exists (replicate m (Finite 0)). split.
  - unfold zeros. apply lookup_replicate. auto.
  - apply lookup_replicate. auto.
Qed.

Lemma dims_row {A : Type} (t : list (list A)) (n m r : nat) :
  dims t n m -> r < n -> exists row, t !! r = Some row /\ length row = m.
Proof.
  intros [Hn Hm] Hr.
  destruct (lookup_lt_is_Some_2 t r) as [row Hrow]; [lia|].
  exists row. split; [exact Hrow|].
  rewrite Forall_forall in Hm. apply Hm.
  eapply list_elem_of_lookup_2. exact Hrow.
Qed.

(** Inside the table every cell can be read. *)
Lemma getitem_dims {A : Type} (t : list (list A)) (n m r c : nat) :
  dims t n m -> r < n -> c < m -> exists v, getitem t r c = Ok v.
Proof.
  intros Hd Hr Hc. destruct (dims_row t n m r Hd Hr) as (row & Hrow & Hlen).
  destruct (lookup_lt_is_Some_2 row c) as [v Hv]; [lia|].
  exists v. apply getitem_Ok. exists row. auto.
Qed.

(** An in-range assignment succeeds, keeps the shape, stores the value and
    leaves every other cell as it was. *)
Lemma setitem_spec {A : Type} (t : list (list A)) (n m r c : nat) (v : A) :
  dims t n m -> r < n -> c < m ->
  exists t', setitem t r c v = Ok t'
    /\ dims t' n m
    /\ getitem t' r c = Ok v
    /\ (forall r' c', (r', c') <> (r, c) -> getitem t' r' c' = getitem t r' c').
Proof.
  intros Hd Hr Hc.
  destruct (dims_row t n m r Hd Hr) as (row & Hrow & Hlen).
  unfold setitem. rewrite Hrow.
  destruct (decide (c < length row)) as [_|Hn]; [|lia].
  eexists. split; [reflexivity|].
  destruct Hd as [Hn Hm].
  split; [|split].
  - split; [rewrite length_insert; exact Hn|].
    apply Forall_insert; [exact Hm|]. rewrite length_insert. exact Hlen.
  - apply getitem_Ok. exists (<[c:=v]> row). split.
    + apply list_lookup_insert_eq. lia.
    + apply list_lookup_insert_eq. lia.
  - intros r' c' Hne. unfold getitem, item.
    destruct (decide (r' = r)) as [->|Hrr].
    + rewrite list_lookup_insert_eq by lia. rewrite Hrow. simpl.
      rewrite list_lookup_insert_ne by congruence. reflexivity.
    + rewrite list_lookup_insert_ne by congruence. reflexivity.
Qed.

(** ** The recurrence [lev] *)

Lemma lev_nil_l (ic dc sc : Z) (t : list ascii) :
  lev ic dc sc [] t = (Z.of_nat (length t) * ic)%Z.
Proof. reflexivity. Qed.

Lemma lev_nil_r (ic dc sc : Z) (s : list ascii) :
  lev ic dc sc s [] = (Z.of_nat (length s) * dc)%Z.
Proof. destruct s; simpl; lia. Qed.

Lemma lev_cons (ic dc sc : Z) (a b : ascii) (s t : list ascii) :
  lev ic dc sc (a :: s) (b :: t)
  = minimum3 (lev ic dc sc s (b :: t) + dc)
         (lev ic dc sc s t + substitution_logic a b sc)
         (lev ic dc sc (a :: s) t + ic).
Proof. reflexivity. Qed.

#[global] Opaque lev.

(** ** The recurrence on prefixes *)

Lemma take_snoc_rev (s : list ascii) (r : nat) (a : ascii) :
  s !! r = Some a -> rev (take (S r) s) = a :: rev (take r s).
Proof.
  intros H. rewrite (take_S_r s r a H). rewrite rev_app_distr. reflexivity.
Qed.

Lemma prefix_distance_row0 (ic dc sc : Z) (source target : list ascii) (c : nat) :
  c <= length target ->
  prefix_distance ic dc sc source target 0 c = (Z.of_nat c * ic)%Z.
Proof.
  intros Hc. unfold prefix_distance. rewrite take_0. simpl. rewrite lev_nil_l.
  rewrite length_rev, length_take. f_equal. lia.
Qed.

Lemma prefix_distance_col0 (ic dc sc : Z) (source target : list ascii) (r : nat) :
  r <= length source ->
  prefix_distance ic dc sc source target r 0 = (Z.of_nat r * dc)%Z.
Proof.
  intros Hr. unfold prefix_distance. rewrite take_0. simpl. rewrite lev_nil_r.
  rewrite length_rev, length_take. f_equal. lia.
Qed.

Lemma prefix_distance_step (ic dc sc : Z) (source target : list ascii)
    (r c : nat) (a b : ascii) :
  source !! r = Some a -> target !! c = Some b ->
  prefix_distance ic dc sc source target (S r) (S c)
  = minimum3 (prefix_distance ic dc sc source target r (S c) + dc)
         (prefix_distance ic dc sc source target r c + substitution_logic a b sc)
         (prefix_distance ic dc sc source target (S r) c + ic).
Proof.
  intros Ha Hb. unfold prefix_distance.
  rewrite (take_snoc_rev source r a Ha), (take_snoc_rev target c b Hb).
  apply lev_cons.
Qed.


(** ** Bounds that hold for all costs *)

Lemma minimum3_cases (x y z : Z) :
  (minimum3 x y z = x /\ (x <= y)%Z /\ (x <= z)%Z)
  \/ (minimum3 x y z = y /\ (y <= x)%Z /\ (y <= z)%Z)
  \/ (minimum3 x y z = z /\ (z <= x)%Z /\ (z <= y)%Z).
Proof. unfold minimum3. lia. Qed.

Lemma minimum3_swap (x y z : Z) : minimum3 x y z = minimum3 z y x.
Proof. unfold minimum3. lia. Qed.

Lemma substitution_logic_sym (a b : ascii) (sc : Z) :
  substitution_logic a b sc = substitution_logic b a sc.
Proof.
  unfold substitution_logic.
  destruct (decide (a = b)), (decide (b = a)); congruence.
Qed.

Lemma substitution_logic_same (a : ascii) (sc : Z) :
  substitution_logic a a sc = 0%Z.
Proof. unfold substitution_logic. destruct (decide (a = a)); congruence. Qed.

Lemma lev_insert_bound (ic dc sc : Z) (s t : list ascii) (b : ascii) :
  (lev ic dc sc s (b :: t) <= lev ic dc sc s t + ic)%Z.
Proof.
  destruct s as [|a s].
  - rewrite !lev_nil_l. simpl length. lia.
  - rewrite lev_cons. unfold minimum3. lia.
Qed.

Lemma lev_delete_bound (ic dc sc : Z) (s t : list ascii) (a : ascii) :
  (lev ic dc sc (a :: s) t <= lev ic dc sc s t + dc)%Z.
Proof.
  destruct t as [|b t].
  - rewrite !lev_nil_r. simpl length. lia.
  - rewrite lev_cons. unfold minimum3. lia.
Qed.

(** Exchanging the two sequences exchanges the roles of insertion and
    deletion. *)
Lemma lev_swap (ic dc sc : Z) (s t : list ascii) :
  lev ic dc sc s t = lev dc ic sc t s.
Proof.
  revert t. induction s as [|a s IHs]; intros t.
  - rewrite lev_nil_l, lev_nil_r. reflexivity.
  - induction t as [|b t IHt].
    + rewrite lev_nil_l, lev_nil_r. reflexivity.
    + rewrite !lev_cons. rewrite IHt, !IHs.
      rewrite (substitution_logic_sym a b). apply minimum3_swap.
Qed.

(** ** Edit sequences *)

Section Edits.

Variables ic dc sc : Z.

Abbreviation step := (edit_step ic dc sc).
Abbreviation edits := (edit_sequence ic dc sc).

Lemma edits_cost (c c' : Z) (s t : list ascii) :
  edits c s t -> c = c' -> edits c' s t.
Proof. intros H <-. exact H. Qed.

Lemma step_cons (x : ascii) (c : Z) (s u : list ascii) :
  step c s u -> step c (x :: s) (x :: u).
Proof.
  intros H. destruct H as [l1 b l2|l1 a l2|l1 a b l2 Hab].
  - apply (step_insert ic dc sc (x :: l1) b l2).
  - apply (step_delete ic dc sc (x :: l1) a l2).
  - apply (step_substitute ic dc sc (x :: l1) a b l2 Hab).
Qed.

Lemma edits_cons (x : ascii) (c : Z) (s t : list ascii) :
  edits c s t -> edits c (x :: s) (x :: t).
Proof.
  induction 1 as [s|c1 c2 s u t Hstep _ IH].
  - constructor.
  - econstructor; [apply step_cons; exact Hstep | exact IH].
Qed.

Lemma edits_trans (c1 c2 : Z) (s u t : list ascii) :
  edits c1 s u -> edits c2 u t -> edits (c1 + c2) s t.
Proof.
  intros H1 H2. induction H1 as [s|c c' s v u Hstep _ IH].
  - simpl. exact H2.
  - eapply edits_cost; [econstructor; [exact Hstep | apply IH; exact H2]|]. lia.
Qed.

Lemma step_rev (c : Z) (s u : list ascii) :
  step c s u -> step c (rev s) (rev u).
Proof.
  intros H. destruct H as [l1 b l2|l1 a l2|l1 a b l2 Hab].
  - rewrite !rev_app_distr. simpl. rewrite <- app_assoc. simpl. constructor.
  - rewrite !rev_app_distr. simpl. rewrite <- app_assoc. simpl. constructor.
  - rewrite !rev_app_distr. simpl. rewrite <- !app_assoc. simpl.
    constructor. exact Hab.
Qed.

Lemma edits_rev (c : Z) (s t : list ascii) :
  edits c s t -> edits c (rev s) (rev t).
Proof.
  induction 1 as [s|c1 c2 s u t Hstep _ IH].
  - constructor.
  - econstructor; [apply step_rev; exact Hstep | exact IH].
Qed.

Lemma edits_insert_all (t : list ascii) :
  edits (Z.of_nat (length t) * ic) [] t.
Proof.
  induction t as [|b t IH].
  - simpl. constructor.
  - eapply edits_cost.
    + econstructor.
      * apply (step_insert ic dc sc [] b []).
      * apply edits_cons. exact IH.
    + simpl length. lia.
Qed.

Lemma edits_delete_all (s : list ascii) :
  edits (Z.of_nat (length s) * dc) s [].
Proof.
  induction s as [|a s IH].
  - simpl. constructor.
  - eapply edits_cost.
    + econstructor.
      * apply (step_delete ic dc sc [] a s).
      * exact IH.
    + simpl length. lia.
Qed.

(** The recurrence is the cost of an edit sequence. *)
Lemma lev_achieved (s t : list ascii) : edits (lev ic dc sc s t) s t.
Proof.
  revert t. induction s as [|a s IHs]; intros t.
  - rewrite lev_nil_l. apply edits_insert_all.
  - induction t as [|b t IHt].
    + rewrite lev_nil_r. apply edits_delete_all.
    + rewrite lev_cons.
      destruct (minimum3_cases (lev ic dc sc s (b :: t) + dc)
                  (lev ic dc sc s t + substitution_logic a b sc)
                  (lev ic dc sc (a :: s) t + ic)) as [(-> & _)|[(-> & _)|(-> & _)]].
      * eapply edits_cost.
        -- econstructor; [apply (step_delete ic dc sc [] a s) | apply IHs].
        -- simpl. lia.
      * unfold substitution_logic. destruct (decide (a = b)) as [->|Hab].
        -- eapply edits_cost; [apply edits_cons, IHs | lia].
        -- eapply edits_cost.
           ++ econstructor; [apply (step_substitute ic dc sc [] a b s Hab) |
                             apply edits_cons, IHs].
           ++ simpl. lia.
      * eapply edits_cost.
        -- econstructor; [apply (step_insert ic dc sc [] b (a :: s)) |
                          apply edits_cons, IHt].
        -- simpl. lia.
Qed.

Hypothesis ic_nonneg : (0 <= ic)%Z.
Hypothesis dc_nonneg : (0 <= dc)%Z.
Hypothesis sc_nonneg : (0 <= sc)%Z.

Lemma substitution_logic_bounds (a b : ascii) :
  (0 <= substitution_logic a b sc <= sc)%Z.
Proof. unfold substitution_logic. destruct (decide (a = b)); lia. Qed.

Lemma lev_nonneg (s t : list ascii) : (0 <= lev ic dc sc s t)%Z.
Proof.
  revert t. induction s as [|a s IHs]; intros t.
  - rewrite lev_nil_l. lia.
  - induction t as [|b t IHt].
    + rewrite lev_nil_r. lia.
    + rewrite lev_cons.
      pose proof (IHs (b :: t)). pose proof (IHs t).
      pose proof (substitution_logic_bounds a b). unfold minimum3. lia.
Qed.

Lemma lev_same (s : list ascii) : lev ic dc sc s s = 0%Z.
Proof.
  induction s as [|a s IH].
  - reflexivity.
  - pose proof (lev_nonneg (a :: s) (a :: s)) as Hge.
    rewrite lev_cons in *. rewrite substitution_logic_same, IH in *.
    unfold minimum3 in *. lia.
Qed.

(** Lifting a bound through a common first symbol. *)
Lemma lev_bound_cons (x : ascii) (c : Z) (u u' : list ascii) :
  (forall t, lev ic dc sc u t <= c + lev ic dc sc u' t)%Z ->
  forall t, (lev ic dc sc (x :: u) t <= c + lev ic dc sc (x :: u') t)%Z.
Proof.
  intros H t. induction t as [|b t IHt].
  - pose proof (H []) as H0. rewrite !lev_nil_r in *. simpl length. lia.
  - rewrite !lev_cons.
    pose proof (H (b :: t)). pose proof (H t). unfold minimum3. lia.
Qed.

Lemma lev_bound_insert (b : ascii) (s t : list ascii) :
  (lev ic dc sc s t <= ic + lev ic dc sc (b :: s) t)%Z.
Proof.
  induction t as [|b' t IHt].
  - rewrite !lev_nil_r. simpl length. lia.
  - rewrite (lev_cons _ _ _ b b').
    pose proof (lev_insert_bound ic dc sc s t b').
    pose proof (substitution_logic_bounds b b').
    unfold minimum3. lia.
Qed.

Lemma lev_bound_substitute (a b : ascii) (s t : list ascii) :
  (lev ic dc sc (a :: s) t <= sc + lev ic dc sc (b :: s) t)%Z.
Proof.
  induction t as [|b' t IHt].
  - rewrite !lev_nil_r. simpl length. lia.
  - rewrite !lev_cons.
    pose proof (substitution_logic_bounds a b').
    pose proof (substitution_logic_bounds b b').
    unfold minimum3. lia.
Qed.

(** One edit changes the recurrence by at most its cost. *)
Lemma lev_step (c : Z) (s u : list ascii) :
  step c s u -> forall t, (lev ic dc sc s t <= c + lev ic dc sc u t)%Z.
Proof.
  intros H. destruct H as [l1 b l2|l1 a l2|l1 a b l2 Hab].
  - induction l1 as [|x l1 IH]; simpl.
    + intros t. apply lev_bound_insert.
    + apply lev_bound_cons. exact IH.
  - induction l1 as [|x l1 IH]; simpl.
    + intros t. pose proof (lev_delete_bound ic dc sc l2 t a). lia.
    + apply lev_bound_cons. exact IH.
  - induction l1 as [|x l1 IH]; simpl.
    + intros t. apply lev_bound_substitute.
    + apply lev_bound_cons. exact IH.
Qed.

(** No edit sequence is cheaper than the recurrence. *)
Lemma lev_minimal (c : Z) (s t : list ascii) :
  edits c s t -> (lev ic dc sc s t <= c)%Z.
Proof.
  induction 1 as [s|c1 c2 s u t Hstep _ IH].
  - rewrite lev_same. lia.
  - pose proof (lev_step c1 s u Hstep t). lia.
Qed.

End Edits.

Lemma lev_upper (ic dc sc : Z) (s t : list ascii) :
  (lev ic dc sc s t <= Z.of_nat (length s) * dc + Z.of_nat (length t) * ic)%Z.
Proof.
  induction s as [|a s IH].
  - rewrite lev_nil_l. simpl length. lia.
  - pose proof (lev_delete_bound ic dc sc s t a). simpl length. lia.
Qed.

Lemma lev_lower_insert (ic dc sc : Z) (s t : list ascii) :
  (0 <= ic)%Z -> (0 <= dc)%Z -> (0 <= sc)%Z ->
  ((Z.of_nat (length t) - Z.of_nat (length s)) * ic <= lev ic dc sc s t)%Z.
Proof.
  intros Hic Hdc Hsc. revert t. induction s as [|a s IHs]; intros t.
  - rewrite lev_nil_l. simpl length. lia.
  - induction t as [|b t IHt].
    + rewrite lev_nil_r. simpl length. nia.
    + rewrite lev_cons.
      pose proof (IHs (b :: t)) as H1. pose proof (IHs t) as H2.
      pose proof (substitution_logic_bounds sc Hsc a b) as H3.
      simpl length in *. unfold minimum3. nia.
Qed.

Lemma lev_lower_delete (ic dc sc : Z) (s t : list ascii) :
  (0 <= ic)%Z -> (0 <= dc)%Z -> (0 <= sc)%Z ->
  ((Z.of_nat (length s) - Z.of_nat (length t)) * dc <= lev ic dc sc s t)%Z.
Proof.
  intros Hic Hdc Hsc. rewrite lev_swap. apply lev_lower_insert; assumption.
Qed.

(** With positive costs every edit sequence of cost 0 is empty. *)
Lemma edits_positive (ic dc sc c : Z) (s t : list ascii) :
  (0 < ic)%Z -> (0 < dc)%Z -> (0 < sc)%Z ->
  edit_sequence ic dc sc c s t -> (0 <= c)%Z /\ (c = 0%Z -> s = t).
Proof.
  intros Hic Hdc Hsc. induction 1 as [s|c1 c2 s u t Hstep _ [IH _]].
  - split; [lia | reflexivity].
  - assert (0 < c1)%Z by (destruct Hstep; assumption).
    split; [lia|]. intros Hzero. lia.
Qed.


(** ** float64 where it is exact *)

Lemma round64_exact (z : Z) : (Z.abs z < 2 ^ 53)%Z -> round64 z = Finite z.
Proof.
  intros Hz. unfold round64. cbv zeta.
  rewrite (proj2 (Z.ltb_lt _ _) Hz). reflexivity.
Qed.

Lemma add_exact (a cost : Z) :
  (0 <= a)%Z -> (0 <= cost)%Z -> (a + cost < 2 ^ 53)%Z ->
  add (Finite a) cost = Ok (Finite (a + cost)).
Proof.
  intros Ha Hcost Hsum. unfold add, float64_add.
  rewrite (round64_exact cost) by lia. rewrite round64_exact by lia. reflexivity.
Qed.

Lemma min3_Finite (a b c : Z) :
  min3 (Finite a) (Finite b) (Finite c) = Finite (minimum3 a b c).
Proof.
  unfold min3, minimum3. cbn [lt].
  destruct (Z.ltb_spec b a); cbn [lt];
    match goal with
    | |- context [(?x <? ?y)%Z] => destruct (Z.ltb_spec x y)
    end; f_equal; lia.
Qed.

Lemma mul_bound (k n : nat) (d : Z) :
  (0 <= d)%Z -> k <= n -> (0 <= Z.of_nat k * d <= Z.of_nat n * d)%Z.
Proof. intros Hd Hk. nia. Qed.

Lemma prefix_distance_bounds (ic dc sc : Z) (source target : list ascii) (r c : nat) :
  (0 <= ic)%Z -> (0 <= dc)%Z -> (0 <= sc)%Z ->
  r <= length source -> c <= length target ->
  (0 <= prefix_distance ic dc sc source target r c
   <= Z.of_nat r * dc + Z.of_nat c * ic)%Z.
Proof.
  intros Hic Hdc Hsc Hr Hc. unfold prefix_distance. split.
  - apply lev_nonneg; assumption.
  - pose proof (lev_upper ic dc sc (rev (take r source)) (rev (take c target))) as H.
    rewrite !length_rev, !length_take in H.
    replace (r `min` length source) with r in H by lia.
    replace (c `min` length target) with c in H by lia. exact H.
Qed.

(** ** The table computed by the loops *)

(** The loop invariant.  When the cells [G r c] start at 0 and follow the
    additions and the minimum of the loops, none of which raises, the
    loops run without an exception and leave [G r c] in every cell. *)
Lemma table_cells_of (source target : list ascii) (ic dc sc : Z)
    (G : nat -> nat -> float64) :
  G 0 0 = Finite 0 ->
  (forall i, i < length source -> add (G i 0) dc = Ok (G (S i) 0)) ->
  (forall j, j < length target -> add (G 0 j) ic = Ok (G 0 (S j))) ->
  (forall i j a b, source !! i = Some a -> target !! j = Some b ->
     exists deletion substitution insertion,
       add (G i (S j)) dc = Ok deletion
       /\ add (G i j) (substitution_logic a b sc) = Ok substitution
       /\ add (G (S i) j) ic = Ok insertion
       /\ G (S i) (S j) = min3 deletion substitution insertion) ->
  exists table,
    min_edit_distance_table source target ic dc sc = Ok table
    /\ dims table (S (length source)) (S (length target))
    /\ forall r c, r <= length source -> c <= length target ->
         getitem table r c = Ok (G r c).
Proof.
  intros HG0 HGcol HGrow HGin.
  unfold min_edit_distance_table.
  change (length ("#"%char :: source)) with (S (length source)).
  change (length ("#"%char :: target)) with (S (length target)).
  set (n := S (length source)). set (m := S (length target)).
  (* first loop: column 0 *)
  destruct (for_range_inv
    (fun i t => dims t n m /\ forall r, r < i -> getitem t r 0 = Ok (G r 0))
    1 n
    (fun row table =>
       up ← getitem table (row - 1) 0;
       value ← add up dc;
       setitem table row 0 value)
    (zeros n m)) as (t1 & Hrun1 & Hd1 & Hcol1).
  { unfold n. lia. }
  { split; [apply dims_zeros|]. intros r Hr. replace r with 0 by lia.
    rewrite HG0. apply getitem_zeros; unfold n, m; lia. }
  { intros i t Hi [Hd Hcol].
    rewrite (Hcol (i - 1)) by lia. cbn [mbind result_bind].
    rewrite HGcol by (unfold n in Hi; lia). cbn [mbind result_bind].
    replace (S (i - 1)) with i by lia.
    destruct (setitem_spec t n m i 0 (G i 0) Hd)
      as (t' & Hset & Hd' & Hget & Hother); [lia | unfold m; lia |].
    exists t'. split; [exact Hset|]. split; [exact Hd'|].
    intros r Hr. destruct (decide (r = i)) as [->|Hne].
    - exact Hget.
    - rewrite Hother by congruence. apply Hcol. lia. }
  rewrite Hrun1. cbn [mbind result_bind].
  (* second loop: row 0 *)
  destruct (for_range_inv
    (fun j t => dims t n m
       /\ (forall r, r < n -> getitem t r 0 = Ok (G r 0))
       /\ forall c, c < j -> getitem t 0 c = Ok (G 0 c))
    1 m
    (fun col table =>
       left ← getitem table 0 (col - 1);
       value ← add left ic;
       setitem table 0 col value)
    t1) as (t2 & Hrun2 & Hd2 & Hcol2 & Hrow2).
  { unfold m. lia. }
  { split; [exact Hd1|]. split; [exact Hcol1|].
    intros c Hc. replace c with 0 by lia. apply Hcol1. unfold n. lia. }
  { intros j t Hj (Hd & Hcol & Hrow).
    rewrite (Hrow (j - 1)) by lia. cbn [mbind result_bind].
    rewrite HGrow by (unfold m in Hj; lia). cbn [mbind result_bind].
    replace (S (j - 1)) with j by lia.
    destruct (setitem_spec t n m 0 j (G 0 j) Hd)
      as (t' & Hset & Hd' & Hget & Hother); [unfold n; lia | lia |].
    exists t'. split; [exact Hset|]. split; [exact Hd'|]. split.
    - intros r Hr. rewrite Hother; [apply Hcol; exact Hr|].
      intros [= _ E]. lia.
    - intros c Hc. destruct (decide (c = j)) as [->|Hne].
      + exact Hget.
      + rewrite Hother by congruence. apply Hrow. lia. }
  rewrite Hrun2. cbn [mbind result_bind].
  (* third loop: the inner cells, row by row *)
  rewrite for_product.
  destruct (for_range_inv
    (fun i t => dims t n m
       /\ forall r c, r < n -> c < m -> r < i \/ c = 0 -> getitem t r c = Ok (G r c))
    1 n
    (fun x s => for_ (range 1 m) (fun y => (fun '(row, col) table =>
        up ← getitem table (row - 1) col;
        deletion ← add up dc;
        diag ← getitem table (row - 1) (col - 1);
        source_letter ← item ("#"%char :: source) row;
        target_letter ← item ("#"%char :: target) col;
        substitution ← add diag (substitution_logic source_letter target_letter sc);
        left ← getitem table row (col - 1);
        insertion ← add left ic;
        setitem table row col (min3 deletion substitution insertion)) (x, y)) s)
    t2) as (t3 & Hrun3 & Hd3 & Hall).
  { unfold n. lia. }
  { split; [exact Hd2|]. intros r c Hr Hc [Hlt| ->].
    - replace r with 0 by lia. apply Hrow2. exact Hc.
    - apply Hcol2. exact Hr. }
  { intros i t Hi [Hd Hinv].
    destruct (for_range_inv
      (fun j t => dims t n m
         /\ forall r c, r < n -> c < m -> r < i \/ c = 0 \/ (r = i /\ c < j) ->
              getitem t r c = Ok (G r c))
      1 m
      (fun y => (fun '(row, col) table =>
        up ← getitem table (row - 1) col;
        deletion ← add up dc;
        diag ← getitem table (row - 1) (col - 1);
        source_letter ← item ("#"%char :: source) row;
        target_letter ← item ("#"%char :: target) col;
        substitution ← add diag (substitution_logic source_letter target_letter sc);
        left ← getitem table row (col - 1);
        insertion ← add left ic;
        setitem table row col (min3 deletion substitution insertion)) (i, y))
      t) as (t' & Hrun & Hd' & Hinv').
    { unfold m. lia. }
    { split; [exact Hd|]. intros r c Hr Hc [Hlt|[->|[-> Hc1]]].
      - apply Hinv; auto.
      - apply Hinv; auto.
      - apply Hinv; auto. right. lia. }
    { intros j tj Hj [Hdj Hj_inv]. cbn beta iota.
      destruct (lookup_lt_is_Some_2 source (i - 1)) as [a Ha]; [unfold n in Hi; lia|].
      destruct (lookup_lt_is_Some_2 target (j - 1)) as [b Hb]; [unfold m in Hj; lia|].
      assert (Hia : item ("#"%char :: source) i = Ok a).
      { apply item_Ok. destruct i as [|i]; [lia|]. simpl.
        replace (S i - 1) with i in Ha by lia. exact Ha. }
      assert (Hjb : item ("#"%char :: target) j = Ok b).
      { apply item_Ok. destruct j as [|j]; [lia|]. simpl.
        replace (S j - 1) with j in Hb by lia. exact Hb. }
      destruct (HGin (i - 1) (j - 1) a b Ha Hb)
        as (deletion & substitution & insertion & Hdel & Hsub & Hins & Hcell).
      replace (S (i - 1)) with i in * by lia. replace (S (j - 1)) with j in * by lia.
      rewrite (Hj_inv (i - 1) j) by lia. cbn [mbind result_bind].
      rewrite Hdel. cbn [mbind result_bind].
      rewrite (Hj_inv (i - 1) (j - 1)) by lia. cbn [mbind result_bind].
      rewrite Hia, Hjb. cbn [mbind result_bind].
      rewrite Hsub. cbn [mbind result_bind].
      rewrite (Hj_inv i (j - 1)) by lia. cbn [mbind result_bind].
      rewrite Hins. cbn [mbind result_bind]. rewrite <- Hcell.
      destruct (setitem_spec tj n m i j (G i j) Hdj)
        as (t' & Hset & Hd' & Hget & Hother); [lia | lia |].
      exists t'. split; [exact Hset|]. split; [exact Hd'|].
      intros r c Hr Hc Hcase.
      destruct (decide ((r, c) = (i, j))) as [[= -> ->]|Hne].
      - exact Hget.
      - rewrite Hother by exact Hne. apply Hj_inv; auto.
        destruct Hcase as [?|[?|[-> Hlt]]]; auto.
        right. right. split; [reflexivity|].
        assert (c <> j) by congruence. lia. }
    exists t'. split; [exact Hrun|]. split; [exact Hd'|].
    intros r c Hr Hc Hcase. apply Hinv'; auto.
    destruct Hcase as [Hlt| ->]; auto.
    destruct (decide (r = i)) as [->|Hne]; [|left; lia].
    right. right. split; [reflexivity | exact Hc]. }
  exists t3. split; [exact Hrun3|]. split; [exact Hd3|].
  intros r c Hr Hc. apply Hall; unfold n, m; lia.
Qed.

(** With costs for which float64 is exact, the loops run without an
    exception and leave, in every cell, the recurrence between the
    corresponding prefixes. *)
Lemma table_cells (source target : list ascii) (ic dc sc : Z) :
  exact_costs source target ic dc sc ->
  exists table,
    min_edit_distance_table source target ic dc sc = Ok table
    /\ dims table (S (length source)) (S (length target))
    /\ forall r c, r <= length source -> c <= length target ->
         getitem table r c = Ok (Finite (prefix_distance ic dc sc source target r c)).
Proof.
  intros (Hic & Hdc & Hsc & Hexact).
  set (F := prefix_distance ic dc sc source target).
  assert (Hrows : forall k, k <= length source ->
            (0 <= Z.of_nat k * dc <= Z.of_nat (length source) * dc)%Z).
  { intros k Hk. apply mul_bound; assumption. }
  assert (Hcols : forall k, k <= length target ->
            (0 <= Z.of_nat k * ic <= Z.of_nat (length target) * ic)%Z).
  { intros k Hk. apply mul_bound; assumption. }
  assert (HF : forall r c, r <= length source -> c <= length target ->
            (0 <= F r c <= Z.of_nat r * dc + Z.of_nat c * ic)%Z).
  { intros r c Hr Hc. apply prefix_distance_bounds; assumption. }
  assert (Hnext : forall k d, (Z.of_nat k * d + d = Z.of_nat (S k) * d)%Z).
  { intros k d. replace (Z.of_nat (S k)) with (Z.of_nat k + 1)%Z by lia. ring. }
  apply (table_cells_of source target ic dc sc (fun r c => Finite (F r c))).
  - unfold F. rewrite prefix_distance_row0 by lia. reflexivity.
  - intros i Hi. unfold F.
    rewrite !prefix_distance_col0 by lia.
    pose proof (Hrows i ltac:(lia)). pose proof (Hrows (S i) ltac:(lia)).
    pose proof (Hcols 0 ltac:(lia)). pose proof (Hnext i dc).
    rewrite add_exact by lia. congruence.
  - intros j Hj. unfold F.
    rewrite !prefix_distance_row0 by lia.
    pose proof (Hcols j ltac:(lia)). pose proof (Hcols (S j) ltac:(lia)).
    pose proof (Hrows 0 ltac:(lia)). pose proof (Hnext j ic).
    rewrite add_exact by lia. congruence.
  - intros i j a b Ha Hb.
    assert (i < length source) as Hi by (eapply lookup_lt_Some; exact Ha).
    assert (j < length target) as Hj by (eapply lookup_lt_Some; exact Hb).
    pose proof (HF i (S j) ltac:(lia) ltac:(lia)) as Hup.
    pose proof (HF i j ltac:(lia) ltac:(lia)) as Hdiag.
    pose proof (HF (S i) j ltac:(lia) ltac:(lia)) as Hleft.
    pose proof (substitution_logic_bounds sc Hsc a b) as Hsub.
    pose proof (Hrows i ltac:(lia)). pose proof (Hrows (S i) ltac:(lia)).
    pose proof (Hcols j ltac:(lia)). pose proof (Hcols (S j) ltac:(lia)).
    pose proof (Hnext i dc). pose proof (Hnext j ic).
    eexists _, _, _. rewrite !add_exact by lia.
    split; [reflexivity|]. split; [reflexivity|]. split; [reflexivity|].
    rewrite min3_Finite. f_equal. unfold F.
    apply (prefix_distance_step ic dc sc source target _ _ a b Ha Hb).
Qed.

(** ** The recurrence in float64 arithmetic *)

Lemma lev_float64_nil_l (ic dc sc : Z) (t : list ascii) :
  lev_float64 ic dc sc [] t
  = Nat.iter (length t) (fun x => float64_add x ic) (Finite 0).
Proof. reflexivity. Qed.

Lemma lev_float64_nil_r (ic dc sc : Z) (s : list ascii) :
  lev_float64 ic dc sc s []
  = Nat.iter (length s) (fun x => float64_add x dc) (Finite 0).
Proof. destruct s; reflexivity. Qed.

Lemma lev_float64_cons (ic dc sc : Z) (a b : ascii) (s t : list ascii) :
  lev_float64 ic dc sc (a :: s) (b :: t)
  = min3 (float64_add (lev_float64 ic dc sc s (b :: t)) dc)
         (float64_add (lev_float64 ic dc sc s t) (substitution_logic a b sc))
         (float64_add (lev_float64 ic dc sc (a :: s) t) ic).
Proof. reflexivity. Qed.

(** The smallest of three float64 does not depend on their order. *)
Lemma lt_asym (x y : float64) : lt x y = true -> lt y x = false.
Proof.
  destruct x as [a|[|]], y as [b|[|]]; cbn [lt negb andb]; try congruence.
  intros H. apply Z.ltb_lt in H. apply Z.ltb_ge. lia.
Qed.

Lemma lt_trans (x y z : float64) : lt x y = true -> lt y z = true -> lt x z = true.
Proof.
  destruct x as [a|[|]], y as [b|[|]], z as [c|[|]]; cbn [lt negb andb];
    try congruence.
  intros H1 H2. apply Z.ltb_lt in H1, H2. apply Z.ltb_lt. lia.
Qed.

Lemma lt_total (x y : float64) : lt x y = false -> lt y x = false -> x = y.
Proof.
  destruct x as [a|[|]], y as [b|[|]]; cbn [lt negb andb]; try congruence.
  intros H1 H2. apply Z.ltb_ge in H1, H2. f_equal. lia.
Qed.

Lemma min3_swap (x y z : float64) : min3 x y z = min3 z y x.
Proof.
  unfold min3.
  destruct (lt y x) eqn:Hyx, (lt y z) eqn:Hyz;
    repeat match goal with
    | |- context [lt ?u ?v] =>
        lazymatch goal with
        | H : lt u v = _ |- _ => rewrite H
        | _ => destruct (lt u v) eqn:?
        end
    end; try reflexivity;
    repeat match goal with
    | H : lt ?u ?v = true |- _ =>
        lazymatch goal with
        | H' : lt v u = false |- _ => fail
        | _ => pose proof (lt_asym u v H)
        end
    end; try congruence;
    try (apply lt_total; assumption);
    try (symmetry; apply lt_total; assumption).
  all: repeat match goal with
       | H1 : lt ?u ?v = true, H2 : lt ?v ?w = true |- _ =>
           lazymatch goal with
           | H' : lt u w = true |- _ => fail
           | _ => pose proof (lt_trans u v w H1 H2)
           end
       end; try congruence.
Qed.

Lemma lev_float64_swap (ic dc sc : Z) (s t : list ascii) :
  lev_float64 ic dc sc s t = lev_float64 dc ic sc t s.
Proof.
  revert t. induction s as [|a s IHs]; intros t.
  - rewrite lev_float64_nil_l, lev_float64_nil_r. reflexivity.
  - induction t as [|b t IHt].
    + rewrite lev_float64_nil_l, lev_float64_nil_r. reflexivity.
    + rewrite !lev_float64_cons. rewrite IHt, !IHs.
      rewrite (substitution_logic_sym a b). apply min3_swap.
Qed.

(** Sums of costs that are not negative are not negative, whatever is
    rounded. *)
Lemma round64_nonnegative (z : Z) : (0 <= z)%Z -> nonnegative (round64 z).
Proof.
  intros Hz. unfold round64. cbv zeta.
  destruct (Z.abs z <? 2 ^ 53)%Z; [exact Hz|].
  set (e := (Z.log2 (Z.abs z) - 52)%Z).
  set (q := (Z.abs z / 2 ^ e)%Z).
  assert (0 <= 2 ^ e)%Z as Hpow by (apply Z.pow_nonneg; lia).
  assert (0 <= q)%Z as Hq by (apply Z_div_nonneg_nonneg; lia).
  destruct (_ || _)%bool; destruct (_ <? 2 ^ 1024)%Z; cbn [nonnegative];
    try (apply Z.ltb_ge; exact Hz); nia.
Qed.

Lemma float64_add_nonnegative (x : float64) (y : Z) :
  nonnegative x -> (0 <= y)%Z -> nonnegative (float64_add x y).
Proof.
  destruct x as [a|negative]; cbn [nonnegative float64_add]; intros Hx Hy.
  - apply round64_nonnegative. lia.
  - exact Hx.
Qed.

Lemma iter_add_nonnegative (n : nat) (y : Z) :
  (0 <= y)%Z -> nonnegative (Nat.iter n (fun x => float64_add x y) (Finite 0)).
Proof.
  intros Hy. induction n as [|n IH]; cbn [Nat.iter nat_rect].
  - cbn. lia.
  - apply float64_add_nonnegative; assumption.
Qed.

Lemma min3_nonnegative (x y z : float64) :
  nonnegative x -> nonnegative y -> nonnegative z -> nonnegative (min3 x y z).
Proof.
  intros Hx Hy Hz. unfold min3.
  destruct (lt y x); destruct (lt z _); assumption.
Qed.

Lemma min3_zero (x z : float64) :
  nonnegative x -> nonnegative z -> min3 x (Finite 0) z = Finite 0.
Proof.
  unfold min3. destruct x as [a|[|]], z as [c|[|]]; cbn [nonnegative lt negb];
    intros Hx Hz; try discriminate;
    repeat match goal with
    | |- context [(?u <? ?v)%Z] => destruct (Z.ltb_spec u v); cbn [lt negb]
    end; try reflexivity; f_equal; lia.
Qed.

Section FloatCosts.

Variables ic dc sc : Z.
Hypothesis ic_nonneg : (0 <= ic)%Z.
Hypothesis dc_nonneg : (0 <= dc)%Z.
Hypothesis sc_nonneg : (0 <= sc)%Z.

Lemma lev_float64_nonnegative (s t : list ascii) :
  nonnegative (lev_float64 ic dc sc s t).
Proof.
  revert t. induction s as [|a s IHs]; intros t.
  - rewrite lev_float64_nil_l. apply iter_add_nonnegative, ic_nonneg.
  - induction t as [|b t IHt].
    + rewrite lev_float64_nil_r. apply iter_add_nonnegative, dc_nonneg.
    + rewrite lev_float64_cons.
      pose proof (substitution_logic_bounds sc sc_nonneg a b).
      apply min3_nonnegative; apply float64_add_nonnegative; auto; lia.
Qed.

Lemma lev_float64_same (s : list ascii) : lev_float64 ic dc sc s s = Finite 0.
Proof.
  induction s as [|a s IH]; [reflexivity|].
  rewrite lev_float64_cons, IH, substitution_logic_same.
  change (float64_add (Finite 0) 0) with (round64 0).
  rewrite round64_exact by lia.
  apply min3_zero; apply float64_add_nonnegative;
    auto using lev_float64_nonnegative.
Qed.

End FloatCosts.

#[global] Opaque lev_float64.

(** With costs that convert, the loops run without an exception and
    leave, in every cell, the float64 recurrence between the
    corresponding prefixes, on the float64 values of the costs. *)
Lemma table_cells_float64 (source target : list ascii) (ic dc sc yi yd ys : Z) :
  round64 ic = Finite yi -> round64 dc = Finite yd -> round64 sc = Finite ys ->
  exists table,
    min_edit_distance_table source target ic dc sc = Ok table
    /\ dims table (S (length source)) (S (length target))
    /\ forall r c, r <= length source -> c <= length target ->
         getitem table r c
         = Ok (lev_float64 yi yd ys (rev (take r source)) (rev (take c target))).
Proof.
  intros Hic Hdc Hsc.
  assert (forall x, add x ic = Ok (float64_add x yi)) as Hadd_i.
  { intros x. unfold add. rewrite Hic. reflexivity. }
  assert (forall x, add x dc = Ok (float64_add x yd)) as Hadd_d.
  { intros x. unfold add. rewrite Hdc. reflexivity. }
  assert (forall x a b,
            add x (substitution_logic a b sc)
            = Ok (float64_add x (substitution_logic a b ys))) as Hadd_s.
  { intros x a b. unfold add, substitution_logic.
    destruct (decide (a = b)); [rewrite round64_exact by lia | rewrite Hsc]; reflexivity. }
  apply (table_cells_of source target ic dc sc
           (fun r c => lev_float64 yi yd ys (rev (take r source)) (rev (take c target)))).
  - rewrite !take_0. reflexivity.
  - intros i Hi. rewrite Hadd_d, !take_0. cbn [rev].
    rewrite !lev_float64_nil_r, !length_rev, !length_take.
    replace (S i `min` length source) with (S (i `min` length source)) by lia.
    reflexivity.
  - intros j Hj. rewrite Hadd_i, !take_0. cbn [rev].
    rewrite !lev_float64_nil_l, !length_rev, !length_take.
    replace (S j `min` length target) with (S (j `min` length target)) by lia.
    reflexivity.
  - intros i j a b Ha Hb. eexists _, _, _.
    rewrite Hadd_d, Hadd_s, Hadd_i.
    split; [reflexivity|]. split; [reflexivity|]. split; [reflexivity|].
    rewrite (take_snoc_rev source i a Ha), (take_snoc_rev target j b Hb).
    apply lev_float64_cons.
Qed.


(** ** The table computed by the loops, for all costs *)

Lemma add_outcome (x : float64) (cost : Z) :
  match add x cost with
  | Ok _ => converts cost
  | Raise e => e = OverflowError /\ ~ converts cost
  end.
Proof.
  unfold add, converts. destruct (round64 cost) as [y|negative].
  - exists y. reflexivity.
  - split; [reflexivity|]. intros [y [=]].
Qed.

Lemma substitution_logic_converts (a b : ascii) (sc : Z) :
  ~ converts (substitution_logic a b sc) -> ~ converts sc.
Proof.
  unfold substitution_logic. destruct (decide (a = b)) as [_|_]; [|auto].
  intros Hno. exfalso. apply Hno. exists 0%Z. apply round64_exact. lia.
Qed.

(** Whatever the costs, the loops end with a table of the right shape,
    or with the [OverflowError] of a cost that does not convert. *)
Lemma table_outcome (source target : list ascii) (ic dc sc : Z) :
  match min_edit_distance_table source target ic dc sc with
  | Ok table => dims table (S (length source)) (S (length target))
  | Raise e => e = OverflowError /\ ~ (converts ic /\ converts dc /\ converts sc)
  end.
Proof.
  unfold min_edit_distance_table.
  change (length ("#"%char :: source)) with (S (length source)).
  change (length ("#"%char :: target)) with (S (length target)).
  set (n := S (length source)). set (m := S (length target)).
  set (E := fun e : exn =>
              e = OverflowError /\ ~ (converts ic /\ converts dc /\ converts sc)).
  (* first loop *)
  pose proof (for_range_inv_exn (fun _ t => dims t n m) E 1 n
    (fun row table =>
       up ← getitem table (row - 1) 0;
       value ← add up dc;
       setitem table row 0 value)
    (zeros n m)) as H1.
  assert (forall i t, 1 <= i < n -> dims t n m ->
            match (up ← getitem t (i - 1) 0;
                   value ← add up dc;
                   setitem t i 0 value)
            with Ok s' => dims s' n m | Raise e => E e end) as Hbody1.
  { intros i t Hi Hd.
    destruct (getitem_dims t n m (i - 1) 0 Hd) as [x ->]; [lia | unfold m; lia |].
    cbn [mbind result_bind]. pose proof (add_outcome x dc) as Hadd.
    destruct (add x dc) as [v|e']; cbn [mbind result_bind].
    - destruct (setitem_spec t n m i 0 v Hd) as (t' & -> & Hd' & _);
        [lia | unfold m; lia | exact Hd'].
    - destruct Hadd as [-> Hno]. split; [reflexivity | tauto]. }
  specialize (H1 ltac:(unfold n; lia) (dims_zeros n m) Hbody1).
  destruct (for_ (range 1 n) _ (zeros n m)) as [t1|e]; cbn [mbind result_bind];
    [|exact H1].
  (* second loop *)
  pose proof (for_range_inv_exn (fun _ t => dims t n m) E 1 m
    (fun col table =>
       left ← getitem table 0 (col - 1);
       value ← add left ic;
       setitem table 0 col value)
    t1) as H2.
  assert (forall i t, 1 <= i < m -> dims t n m ->
            match (left ← getitem t 0 (i - 1);
                   value ← add left ic;
                   setitem t 0 i value)
            with Ok s' => dims s' n m | Raise e => E e end) as Hbody2.
  { intros i t Hi Hd.
    destruct (getitem_dims t n m 0 (i - 1) Hd) as [x ->]; [unfold n; lia | lia |].
    cbn [mbind result_bind]. pose proof (add_outcome x ic) as Hadd.
    destruct (add x ic) as [v|e']; cbn [mbind result_bind].
    - destruct (setitem_spec t n m 0 i v Hd) as (t' & -> & Hd' & _);
        [unfold n; lia | lia | exact Hd'].
    - destruct Hadd as [-> Hno]. split; [reflexivity | tauto]. }
  specialize (H2 ltac:(unfold m; lia) H1 Hbody2).
  destruct (for_ (range 1 m) _ t1) as [t2|e]; cbn [mbind result_bind]; [|exact H2].
  (* third loop *)
  rewrite for_product.
  apply (for_range_inv_exn (fun _ t => dims t n m) E 1 n); [unfold n; lia | exact H2 |].
  intros i t Hi Hd.
  apply (for_range_inv_exn (fun _ t => dims t n m) E 1 m); [unfold m; lia | exact Hd |].
  intros j tj Hj Hdj. cbn beta iota.
  destruct (getitem_dims tj n m (i - 1) j Hdj) as [up ->]; [lia | lia |].
  cbn [mbind result_bind]. pose proof (add_outcome up dc) as Hadd1.
  destruct (add up dc) as [deletion|e']; cbn [mbind result_bind].
  2:{ destruct Hadd1 as [-> Hno]. split; [reflexivity | tauto]. }
  destruct (getitem_dims tj n m (i - 1) (j - 1) Hdj) as [diag ->]; [lia | lia |].
  cbn [mbind result_bind].
  destruct (lookup_lt_is_Some_2 ("#"%char :: source) i) as [a Ha]; [simpl; unfold n in Hi; lia|].
  destruct (lookup_lt_is_Some_2 ("#"%char :: target) j) as [b Hb]; [simpl; unfold m in Hj; lia|].
  rewrite (proj2 (item_Ok _ _ _) Ha), (proj2 (item_Ok _ _ _) Hb).
  cbn [mbind result_bind].
  pose proof (add_outcome diag (substitution_logic a b sc)) as Hadd2.
  destruct (add diag (substitution_logic a b sc)) as [substitution|e'];
    cbn [mbind result_bind].
  2:{ destruct Hadd2 as [-> Hno]. apply substitution_logic_converts in Hno.
      split; [reflexivity | tauto]. }
  destruct (getitem_dims tj n m i (j - 1) Hdj) as [left ->]; [lia | lia |].
  cbn [mbind result_bind]. pose proof (add_outcome left ic) as Hadd3.
  destruct (add left ic) as [insertion|e']; cbn [mbind result_bind].
  2:{ destruct Hadd3 as [-> Hno]. split; [reflexivity | tauto]. }
  destruct (setitem_spec tj n m i j (min3 deletion substitution insertion) Hdj)
    as (t' & -> & Hd' & _); [lia | lia | exact Hd'].
Qed.

(** ** The range of the costs that convert *)

Lemma round64_large (z : Z) :
  (2 ^ 53 <= Z.abs z)%Z ->
  exists e q r,
    (1 <= e)%Z /\ (2 ^ 52 <= q < 2 ^ 53)%Z /\ (0 <= r < 2 ^ e)%Z
    /\ (2 ^ e = 2 * 2 ^ (e - 1))%Z /\ (0 < 2 ^ (e - 1))%Z
    /\ Z.abs z = (q * 2 ^ e + r)%Z
    /\ round64 z
       = let q' := if ((2 ^ (e - 1) <? r) || ((r =? 2 ^ (e - 1)) && Z.odd q))%Z
                   then (q + 1)%Z else q in
         if (q' * 2 ^ e <? 2 ^ 1024)%Z
         then Finite (Z.sgn z * (q' * 2 ^ e))%Z
         else Infinity (z <? 0)%Z.
Proof.
  intros Hz. set (a := Z.abs z) in *.
  assert (0 < a)%Z as Hpos by lia.
  pose proof (Z.log2_spec a Hpos) as [Hlow Hhigh].
  assert (53 <= Z.log2 a)%Z as Hlog.
  { rewrite <- (Z.log2_pow2 53) by lia. apply Z.log2_le_mono. exact Hz. }
  set (e := (Z.log2 a - 52)%Z).
  assert (1 <= e)%Z as He by (unfold e; lia).
  assert (2 ^ Z.log2 a = 2 ^ 52 * 2 ^ e)%Z as Hpow.
  { rewrite <- Z.pow_add_r by lia. f_equal. unfold e. lia. }
  assert (2 ^ Z.succ (Z.log2 a) = 2 ^ 53 * 2 ^ e)%Z as Hpow'.
  { rewrite <- Z.pow_add_r by lia. f_equal. unfold e. lia. }
  assert (0 < 2 ^ e)%Z as Hpe by (apply Z.pow_pos_nonneg; lia).
  assert (0 < 2 ^ (e - 1))%Z as Hhalf by (apply Z.pow_pos_nonneg; lia).
  assert (2 ^ e = 2 * 2 ^ (e - 1))%Z as Htwice.
  { replace e with (1 + (e - 1))%Z at 1 by lia. rewrite Z.pow_add_r by lia. reflexivity. }
  exists e, (a / 2 ^ e)%Z, (a mod 2 ^ e)%Z.
  split; [exact He|]. split.
  { split.
    - apply Z.div_le_lower_bound; [exact Hpe|]. lia.
    - apply Z.div_lt_upper_bound; [exact Hpe|]. lia. }
  split; [apply Z.mod_pos_bound; exact Hpe|].
  split; [exact Htwice|]. split; [exact Hhalf|]. split.
  { rewrite Z.mul_comm. apply Z.div_mod. lia. }
  unfold round64. cbv zeta. fold a. fold e.
  rewrite (proj2 (Z.ltb_ge _ _) Hz). reflexivity.
Qed.

(** The integers that convert are those of magnitude below
    [2^1024 - 2^970], half a step above the largest finite float64. *)
Lemma converts_iff (z : Z) : converts z <-> (Z.abs z < 2 ^ 1024 - 2 ^ 970)%Z.
Proof.
  destruct (Z.lt_ge_cases (Z.abs z) (2 ^ 53)) as [Hsmall|Hlarge].
  - split; [intros _; lia|]. intros _. exists z. apply round64_exact, Hsmall.
  - unfold converts.
    destruct (round64_large z Hlarge)
      as (e & q & r & He & Hq & Hr & Htwice & Hhalf & Ha & ->).
    cbv zeta. rewrite Ha.
    set (P := (2 ^ e)%Z) in *. set (h := (2 ^ (e - 1))%Z) in *.
    assert ((e <= 970 /\ P <= 2 ^ 970) \/ (e = 971 /\ P = 2 ^ 971)
            \/ (972 <= e /\ 2 ^ 972 <= P))%Z as Hcases.
    { destruct (Z.le_gt_cases e 970) as [Hle|Hgt].
      - left. split; [exact Hle|]. apply Z.pow_le_mono_r; lia.
      - destruct (Z.eq_dec e 971%Z) as [->|Hne].
        + right. left. split; reflexivity.
        + right. right. split; [lia|]. apply Z.pow_le_mono_r; lia. }
    destruct ((h <? r) || ((r =? h) && Z.odd q))%Z eqn:Hup.
    + (* rounded up *)
      assert (h <= r)%Z as Hge.
      { apply orb_true_iff in Hup as [Hup|Hup].
        - apply Z.ltb_lt in Hup. lia.
        - apply andb_true_iff in Hup as [Hup _]. apply Z.eqb_eq in Hup. lia. }
      assert (r = h -> Z.odd q = true) as Hodd.
      { intros ->. apply orb_true_iff in Hup as [Hup|Hup].
        - apply Z.ltb_lt in Hup. lia.
        - apply andb_true_iff in Hup as [_ Hup]. exact Hup. }
      destruct (Z.ltb_spec ((q + 1) * P) (2 ^ 1024)) as [Hfin|Hinf].
      * split; [|intros _; eexists; reflexivity]. intros _.
        destruct Hcases as [[_ HP]|[[_ HP]|[_ HP]]]; nia.
      * split; [intros [y [=]]|]. intros Hlt. exfalso.
        destruct Hcases as [[_ HP]|[[_ HP]|[_ HP]]]; nia.
    + (* rounded down *)
      assert (r <= h)%Z as Hle.
      { apply orb_false_iff in Hup as [Hup _]. apply Z.ltb_ge in Hup. exact Hup. }
      assert (r = h -> Z.odd q = false) as Heven.
      { intros ->. apply orb_false_iff in Hup as [_ Hup].
        rewrite Z.eqb_refl in Hup. exact Hup. }
      destruct (Z.ltb_spec (q * P) (2 ^ 1024)) as [Hfin|Hinf].
      * split; [|intros _; eexists; reflexivity]. intros _.
        destruct Hcases as [[_ HP]|[[_ HP]|[_ HP]]]; try nia.
        subst P. rewrite HP in *.
        destruct (Z.eq_dec q (2 ^ 53 - 1)%Z) as [->|Hne]; [|lia].
        destruct (Z.eq_dec r h) as [Heq|Hneq]; [|lia].
        specialize (Heven Heq). vm_compute in Heven. discriminate.
      * split; [intros [y [=]]|]. intros Hlt. exfalso.
        destruct Hcases as [[_ HP]|[[_ HP]|[_ HP]]]; nia.
Qed.


(** ** The bottom-right cell *)

(** With costs for which float64 is exact, the bottom-right cell of the
    table is the recurrence between the two sequences. *)
Lemma table_corner (source target : list ascii) (ic dc sc : Z) :
  exact_costs source target ic dc sc ->
  (table ← min_edit_distance_table source target ic dc sc;
   getitem table (length source) (length target))
  = Ok (Finite (lev ic dc sc (rev source) (rev target))).
Proof.
  intros Hexact.
  destruct (table_cells source target ic dc sc Hexact) as (table & -> & _ & Hcells).
  cbn [mbind result_bind]. rewrite Hcells by lia.
  unfold prefix_distance. rewrite !firstn_all. reflexivity.
Qed.

Lemma exact_costs_take (S T : list ascii) (ic dc sc : Z) (i j : nat) :
  exact_costs S T ic dc sc -> exact_costs (take i S) (take j T) ic dc sc.
Proof.
  unfold exact_costs. intros (Hic & Hdc & Hsc & Hsum). repeat split; try assumption.
  rewrite !length_take.
  pose proof (mul_bound (i `min` length S) (length S) dc Hdc ltac:(lia)).
  pose proof (mul_bound (j `min` length T) (length T) ic Hic ltac:(lia)).
  lia.
Qed.

(** X1.  For non-negative costs with which float64 is exact, the
    bottom-right cell of the table that the loops fill is the cost of
    some sequence of single-symbol insertions, deletions and
    substitutions turning [source] into [target], and no such sequence is
    cheaper. *)
Theorem distance_minimum (source target : list ascii) (ic dc sc : Z) :
  exact_costs source target ic dc sc ->
  exists d,
    (table ← min_edit_distance_table source target ic dc sc;
     getitem table (length source) (length target)) = Ok (Finite d)
    /\ edit_sequence ic dc sc d source target
    /\ forall c, edit_sequence ic dc sc c source target -> (d <= c)%Z.
Proof.
  intros Hexact. exists (lev ic dc sc (rev source) (rev target)).
  split; [apply table_corner, Hexact|].
  destruct Hexact as (Hic & Hdc & Hsc & _). split.
  - rewrite <- (rev_involutive source) at 2. rewrite <- (rev_involutive target) at 2.
    apply edits_rev, lev_achieved.
  - intros c Hc. apply lev_minimal; try assumption. apply edits_rev. exact Hc.
Qed.

Lemma distance_minimum_witness :
  exists d,
    (table ← min_edit_distance_table (chars "intention") (chars "execution") 1 1 2;
     getitem table (length (chars "intention")) (length (chars "execution")))
    = Ok (Finite d)
    /\ edit_sequence 1 1 2 d (chars "intention") (chars "execution")
    /\ forall c, edit_sequence 1 1 2 c (chars "intention") (chars "execution") -> (d <= c)%Z.
Proof.
  apply (distance_minimum (chars "intention") (chars "execution") 1 1 2).
  unfold exact_costs. simpl. lia.
Defined.

(** X3.  For non-negative costs that float64 can hold, the
    bottom-right cell of the table for a sequence and itself is 0,
    whatever float64 rounds in the other cells. *)
Theorem distance_same (S : list ascii) (ic dc sc : Z) :
  (0 <= ic < 2 ^ 1024 - 2 ^ 970)%Z ->
  (0 <= dc < 2 ^ 1024 - 2 ^ 970)%Z ->
  (0 <= sc < 2 ^ 1024 - 2 ^ 970)%Z ->
  (table ← min_edit_distance_table S S ic dc sc; getitem table (length S) (length S))
  = Ok (Finite 0).
Proof.
  intros Hic Hdc Hsc.
  destruct (proj2 (converts_iff ic) ltac:(lia)) as [yi Hyi].
  destruct (proj2 (converts_iff dc) ltac:(lia)) as [yd Hyd].
  destruct (proj2 (converts_iff sc) ltac:(lia)) as [ys Hys].
  pose proof (round64_nonnegative ic ltac:(lia)) as Hi. rewrite Hyi in Hi.
  pose proof (round64_nonnegative dc ltac:(lia)) as Hd. rewrite Hyd in Hd.
  pose proof (round64_nonnegative sc ltac:(lia)) as Hs. rewrite Hys in Hs.
  destruct (table_cells_float64 S S ic dc sc yi yd ys Hyi Hyd Hys) as (table & -> & _ & Hcells).
  cbn [mbind result_bind]. rewrite Hcells by lia. rewrite !firstn_all.
  f_equal. apply lev_float64_same; assumption.
Qed.

Lemma distance_same_witness :
  (table ← min_edit_distance_table (chars "intention") (chars "intention")
             (2 ^ 53 + 1) (2 ^ 60) (10 ^ 300);
   getitem table (length (chars "intention")) (length (chars "intention")))
  = Ok (Finite 0).
Proof.
  apply (distance_same (chars "intention") (2 ^ 53 + 1) (2 ^ 60) (10 ^ 300)); lia.
Defined.

(** The loops on two empty strings: a table with the single cell 0. *)
Example table_of_empty_strings :
  min_edit_distance_table [] [] 1 1 2 = Ok [[Finite 0]].
Proof. reflexivity. Qed.

(** C5 as stated fails: the cells are float64.  With the non-negative
    insertion cost [2^53 + 1] and an empty source, the loops leave
    [2^53], the nearest float64, in [table[0][1]], not
    [1 * insert_cost]. *)
Lemma row_cell_is_rounded :
  (0 <= 2 ^ 53 + 1)%Z
  /\ min_edit_distance_table (chars "") (chars "a") (2 ^ 53 + 1) 1 2
     = Ok [[Finite 0; Finite (2 ^ 53)]]
  /\ (2 ^ 53)%Z <> (1 * (2 ^ 53 + 1))%Z.
Proof. split; [lia|]. split; [vm_compute; reflexivity | lia]. Qed.

(** C5, amended.  For every source and target and non-negative costs
    with which float64 is exact, that is with
    [len(source) * delete_cost + len(target) * insert_cost
     + substitute_cost < 2^53], the loops of [min_edit_distance] produce
    a table of [len(source)+1] rows and [len(target)+1] columns with
    [table[0][j] = j * insert_cost], [table[i][0] = i * delete_cost], and,
    for [1 <= i <= len(source)] and [1 <= j <= len(target)],
    [table[i][j]] the minimum of [table[i-1][j] + delete_cost],
    [table[i-1][j-1]] plus 0 when [source[i-1] = target[j-1]] and plus
    [substitute_cost] otherwise, and [table[i][j-1] + insert_cost]. *)
Theorem cost_table_recurrence (source target : list ascii) (ic dc sc : Z) :
  exact_costs source target ic dc sc ->
  exists table,
    min_edit_distance_table source target ic dc sc = Ok table
    /\ dims table (length source + 1) (length target + 1)
    /\ (forall j, j <= length target ->
          getitem table 0 j = Ok (Finite (Z.of_nat j * ic)))
    /\ (forall i, i <= length source ->
          getitem table i 0 = Ok (Finite (Z.of_nat i * dc)))
    /\ (forall i j, 1 <= i <= length source -> 1 <= j <= length target ->
          exists up diag left a b,
            getitem table (i - 1) j = Ok (Finite up)
            /\ getitem table (i - 1) (j - 1) = Ok (Finite diag)
            /\ getitem table i (j - 1) = Ok (Finite left)
            /\ source !! (i - 1) = Some a
            /\ target !! (j - 1) = Some b
            /\ getitem table i j
               = Ok (Finite (Z.min (up + dc)
                               (Z.min (diag + if decide (a = b) then 0 else sc)
                                      (left + ic))))).
Proof.
  intros Hexact.
  destruct (table_cells source target ic dc sc Hexact) as (table & Hrun & Hd & Hcells).
  exists table. split; [exact Hrun|]. split.
  { replace (length source + 1) with (S (length source)) by lia.
    replace (length target + 1) with (S (length target)) by lia. exact Hd. }
  split; [|split].
  - intros j Hj. rewrite Hcells by lia. rewrite prefix_distance_row0 by exact Hj.
    reflexivity.
  - intros i Hi. rewrite Hcells by lia. rewrite prefix_distance_col0 by exact Hi.
    reflexivity.
  - intros i j Hi Hj.
    destruct (lookup_lt_is_Some_2 source (i - 1)) as [a Ha]; [lia|].
    destruct (lookup_lt_is_Some_2 target (j - 1)) as [b Hb]; [lia|].
    exists (prefix_distance ic dc sc source target (i - 1) j),
           (prefix_distance ic dc sc source target (i - 1) (j - 1)),
           (prefix_distance ic dc sc source target i (j - 1)), a, b.
    rewrite !Hcells by lia. repeat split; try assumption.
    do 2 f_equal.
    replace i with (S (i - 1)) at 1 by lia. replace j with (S (j - 1)) at 1 by lia.
    rewrite (prefix_distance_step ic dc sc source target _ _ a b Ha Hb).
    replace (S (i - 1)) with i by lia. replace (S (j - 1)) with j by lia.
    reflexivity.
Qed.

Lemma cost_table_recurrence_witness :
  exists table,
    min_edit_distance_table (chars "intention") (chars "execution") 1 1 2 = Ok table
    /\ dims table (length (chars "intention") + 1) (length (chars "execution") + 1)
    /\ (forall j, j <= length (chars "execution") ->
          getitem table 0 j = Ok (Finite (Z.of_nat j * 1)))
    /\ (forall i, i <= length (chars "intention") ->
          getitem table i 0 = Ok (Finite (Z.of_nat i * 1)))
    /\ (forall i j, 1 <= i <= length (chars "intention") ->
                    1 <= j <= length (chars "execution") ->
          exists up diag left a b,
            getitem table (i - 1) j = Ok (Finite up)
            /\ getitem table (i - 1) (j - 1) = Ok (Finite diag)
            /\ getitem table i (j - 1) = Ok (Finite left)
            /\ chars "intention" !! (i - 1) = Some a
            /\ chars "execution" !! (j - 1) = Some b
            /\ getitem table i j
               = Ok (Finite (Z.min (up + 1)
                               (Z.min (diag + if decide (a = b) then 0 else 2)
                                      (left + 1))))).
Proof.
  apply (cost_table_recurrence (chars "intention") (chars "execution") 1 1 2).
  unfold exact_costs. simpl. lia.
Defined.

(** ** The frame that is returned *)

(** The frame returned by [min_edit_distance] never depends on the table
    its loops have filled: it is built from the global [res]. *)
Lemma min_edit_distance_returns_res (res : option (list (list Z)))
    (source target : list ascii) (ic dc sc : Z) (table : list (list float64)) :
  min_edit_distance_table source target ic dc sc = Ok table ->
  min_edit_distance res source target ic dc sc
  = match res with
    | None => Raise NameError
    | Some data =>
        df ← new_DataFrame data ("#"%char :: target);
        set_index df ("#"%char :: source)
    end.
Proof. unfold min_edit_distance. intros ->. reflexivity. Qed.

(** C1 fails on the code.  Called on ['intention'] and ['execution'] with
    the default costs, where the bottom-right cell of the table that the
    loops fill is 8: with [res] unbound the call ends in a [NameError];
    with [res] bound to a stale 10 x 10 array of zeros it returns that
    array, whose bottom-right cell is 0. *)
Theorem min_edit_distance_ignores_table :
  (table ← min_edit_distance_table (chars "intention") (chars "execution") 1 1 2;
   getitem table 9 9) = Ok (Finite 8)
  /\ min_edit_distance None (chars "intention") (chars "execution") 1 1 2
     = Raise NameError
  /\ min_edit_distance (Some (replicate 10 (replicate 10 0%Z)))
       (chars "intention") (chars "execution") 1 1 2
     = Ok {| values := replicate 10 (replicate 10 0%Z);
             columns := chars "#execution";
             index := chars "#intention" |}.
Proof. repeat split; vm_compute; reflexivity. Qed.

(** C8 fails on the code, by the defect of C1.  With equal insertion and
    deletion cost the bottom-right cells of the two tables are equal, 8
    for ['intention'] and ['execution'], but neither call returns a
    distance: with [res] unbound both end in a [NameError]; with [res]
    bound to the rows of the table for ['a'] and ['ab'], the call on
    ['a'] and ['ab'] returns a frame and the call on ['ab'] and ['a']
    ends in a [ValueError]. *)
Theorem min_edit_distance_returns_no_distance :
  (table ← min_edit_distance_table (chars "intention") (chars "execution") 1 1 2;
   getitem table 9 9) = Ok (Finite 8)
  /\ (table ← min_edit_distance_table (chars "execution") (chars "intention") 1 1 2;
      getitem table 9 9) = Ok (Finite 8)
  /\ min_edit_distance None (chars "intention") (chars "execution") 1 1 2
     = Raise NameError
  /\ min_edit_distance None (chars "execution") (chars "intention") 1 1 2
     = Raise NameError
  /\ min_edit_distance_table (chars "a") (chars "ab") 1 1 2
     = Ok [[Finite 0; Finite 1; Finite 2]; [Finite 1; Finite 0; Finite 1]]
  /\ min_edit_distance (Some [[0; 1; 2]; [1; 0; 1]]%Z) (chars "a") (chars "ab") 1 1 2
     = Ok {| values := [[0; 1; 2]; [1; 0; 1]]%Z;
             columns := chars "#ab";
             index := chars "#a" |}
  /\ min_edit_distance (Some [[0; 1; 2]; [1; 0; 1]]%Z) (chars "ab") (chars "a") 1 1 2
     = Raise ValueError.
Proof. repeat split; vm_compute; reflexivity. Qed.

(** C4 as stated fails, in both directions.  A negative cost is not
    rejected: with [insert_cost = -1] the loops fill the table as usual;
    the call then returns a frame when [res] is bound to an array of the
    right shape, and ends in the [NameError] of the unbound [res]
    otherwise, never in an [InvalidCostError].  And a non-negative cost
    can fail: with [delete_cost = 10^400], which float64 cannot hold, the
    first loop ends in an [OverflowError]. *)
Lemma negative_cost_accepted :
  min_edit_distance_table (chars "a") (chars "b") (-1) 1 2
  = Ok [[Finite 0; Finite (-1)]; [Finite 1; Finite 0]]
  /\ min_edit_distance (Some [[0; -1]; [1; 0]]%Z) (chars "a") (chars "b") (-1) 1 2
     = Ok {| values := [[0; -1]; [1; 0]]%Z;
             columns := chars "#b";
             index := chars "#a" |}
  /\ min_edit_distance None (chars "a") (chars "b") (-1) 1 2 = Raise NameError
  /\ NameError <> InvalidCostError
  /\ (0 <= 10 ^ 400)%Z
  /\ min_edit_distance_table (chars "a") (chars "b") 1 (10 ^ 400) 2 = Raise OverflowError
  /\ min_edit_distance None (chars "a") (chars "b") 1 (10 ^ 400) 2 = Raise OverflowError
  /\ OverflowError <> InvalidCostError.
Proof.
  repeat split; try (vm_compute; reflexivity); discriminate.
Qed.

(** C4, amended.  The computation has no cost validation: for every pair
    of sequences, empty ones included, and for all integer costs,
    negative or not, the loops either run to their end and leave a table
    of [len(source)+1] rows and [len(target)+1] columns, or end in the
    [OverflowError] of a cost that float64 cannot hold, which can only
    happen when some cost has a magnitude of [2^1024 - 2^970] or more;
    and no call ends in an [InvalidCostError]. *)
Theorem no_cost_validation (res : option (list (list Z)))
    (source target : list ascii) (ic dc sc : Z) :
  match min_edit_distance_table source target ic dc sc with
  | Ok table => dims table (length source + 1) (length target + 1)
  | Raise e =>
      e = OverflowError
      /\ ~ ((Z.abs ic < 2 ^ 1024 - 2 ^ 970)%Z
            /\ (Z.abs dc < 2 ^ 1024 - 2 ^ 970)%Z
            /\ (Z.abs sc < 2 ^ 1024 - 2 ^ 970)%Z)
  end
  /\ min_edit_distance res source target ic dc sc <> Raise InvalidCostError.
Proof.
  pose proof (table_outcome source target ic dc sc) as Houtcome.
  unfold min_edit_distance.
  destruct (min_edit_distance_table source target ic dc sc) as [table|e].
  - split.
    + replace (length source + 1) with (S (length source)) by lia.
      replace (length target + 1) with (S (length target)) by lia. exact Houtcome.
    + cbn [mbind result_bind]. destruct res as [data|]; [|discriminate].
      unfold new_DataFrame, set_index.
      destruct (decide (Forall _ data)); cbn [mbind result_bind]; [|discriminate].
      destruct (decide (Forall _ data)); cbn [mbind result_bind]; [|discriminate].
      destruct (decide (_ = _)); discriminate.
  - destruct Houtcome as [-> Hno]. split.
    + split; [reflexivity|]. rewrite <- !converts_iff. exact Hno.
    + discriminate.
Qed.

(** ** Symmetry and the triangle inequality *)

(** X20.  With equal insertion and deletion cost, the loops leave the
    same value in the bottom-right cell of the table for [S] and [T] and
    of the table for [T] and [S], whatever float64 rounds: this holds for
    all integer costs that float64 can hold, negative or not. *)
Theorem table_corner_symmetric (S T : list ascii) (ic dc sc : Z) :
  ic = dc ->
  (Z.abs ic < 2 ^ 1024 - 2 ^ 970)%Z -> (Z.abs sc < 2 ^ 1024 - 2 ^ 970)%Z ->
  exists d,
    (table ← min_edit_distance_table S T ic dc sc;
     getitem table (length S) (length T)) = Ok d
    /\ (table ← min_edit_distance_table T S ic dc sc;
        getitem table (length T) (length S)) = Ok d.
Proof.
  intros <- Hic Hsc.
  apply converts_iff in Hic as [y Hy]. apply converts_iff in Hsc as [ys Hys].
  destruct (table_cells_float64 S T ic ic sc y y ys Hy Hy Hys) as (t1 & -> & _ & Hcells1).
  destruct (table_cells_float64 T S ic ic sc y y ys Hy Hy Hys) as (t2 & -> & _ & Hcells2).
  exists (lev_float64 y y ys (rev S) (rev T)). cbn [mbind result_bind].
  rewrite Hcells1, Hcells2 by lia. rewrite !firstn_all.
  split; [reflexivity|]. f_equal. apply lev_float64_swap.
Qed.

Lemma table_corner_symmetric_witness :
  exists d,
    (table ← min_edit_distance_table (chars "b") (chars "aaa") (2 ^ 53 - 1) (2 ^ 53 - 1) 1;
     getitem table (length (chars "b")) (length (chars "aaa"))) = Ok d
    /\ (table ← min_edit_distance_table (chars "aaa") (chars "b") (2 ^ 53 - 1) (2 ^ 53 - 1) 1;
        getitem table (length (chars "aaa")) (length (chars "b"))) = Ok d.
Proof.
  apply (table_corner_symmetric (chars "b") (chars "aaa") (2 ^ 53 - 1) (2 ^ 53 - 1) 1).
  - reflexivity.
  - lia.
  - lia.
Defined.

(** C9 as stated fails: the cells are float64.  With
    [insert_cost = delete_cost = 2^53 - 1] and [substitute_cost = 1], which
    are not negative and satisfy the conditions of the claim, the
    bottom-right cells are [2^54] for ['b'] and ['aaa'], 1 for ['b'] and
    ['a'], and [2^54 - 2] for ['a'] and ['aaa']. *)
Lemma triangle_fails_by_rounding :
  (0 <= 2 ^ 53 - 1)%Z /\ (0 <= 1)%Z
  /\ (2 ^ 53 - 1 = 2 ^ 53 - 1)%Z
  /\ (1 <= (2 ^ 53 - 1) + (2 ^ 53 - 1))%Z
  /\ (table ← min_edit_distance_table (chars "b") (chars "aaa")
                (2 ^ 53 - 1) (2 ^ 53 - 1) 1;
      getitem table 1 3) = Ok (Finite (2 ^ 54))
  /\ (table ← min_edit_distance_table (chars "b") (chars "a")
                (2 ^ 53 - 1) (2 ^ 53 - 1) 1;
      getitem table 1 1) = Ok (Finite 1)
  /\ (table ← min_edit_distance_table (chars "a") (chars "aaa")
                (2 ^ 53 - 1) (2 ^ 53 - 1) 1;
      getitem table 1 3) = Ok (Finite (2 ^ 54 - 2))
  /\ ~ (2 ^ 54 <= 1 + (2 ^ 54 - 2))%Z.
Proof. repeat split; try (vm_compute; reflexivity); lia. Qed.

(** C9, amended.  For non-negative costs with equal insertion and deletion
    cost and a substitution cost of at most their sum, with which float64
    is exact on the three tables, the bottom-right cells of the tables
    that the loops fill satisfy the triangle inequality. *)
Theorem distance_triangle (A B C : list ascii) (ic dc sc : Z) :
  exact_costs A C ic dc sc -> exact_costs A B ic dc sc -> exact_costs B C ic dc sc ->
  ic = dc -> (sc <= ic + dc)%Z ->
  exists dAC dAB dBC,
    (table ← min_edit_distance_table A C ic dc sc;
     getitem table (length A) (length C)) = Ok (Finite dAC)
    /\ (table ← min_edit_distance_table A B ic dc sc;
        getitem table (length A) (length B)) = Ok (Finite dAB)
    /\ (table ← min_edit_distance_table B C ic dc sc;
        getitem table (length B) (length C)) = Ok (Finite dBC)
    /\ (dAC <= dAB + dBC)%Z.
Proof.
  intros HAC HAB HBC <- _.
  exists (lev ic ic sc (rev A) (rev C)), (lev ic ic sc (rev A) (rev B)),
         (lev ic ic sc (rev B) (rev C)).
  rewrite !table_corner by assumption. repeat split.
  destruct HAC as (Hic & _ & Hsc & _).
  apply lev_minimal; try assumption.
  eapply edits_trans; apply lev_achieved.
Qed.

Lemma distance_triangle_witness :
  exists dAC dAB dBC,
    (table ← min_edit_distance_table (chars "intention") (chars "execution") 1 1 2;
     getitem table (length (chars "intention")) (length (chars "execution")))
    = Ok (Finite dAC)
    /\ (table ← min_edit_distance_table (chars "intention") (chars "extension") 1 1 2;
        getitem table (length (chars "intention")) (length (chars "extension")))
       = Ok (Finite dAB)
    /\ (table ← min_edit_distance_table (chars "extension") (chars "execution") 1 1 2;
        getitem table (length (chars "extension")) (length (chars "execution")))
       = Ok (Finite dBC)
    /\ (dAC <= dAB + dBC)%Z.
Proof.
  apply (distance_triangle (chars "intention") (chars "extension") (chars "execution") 1 1 2);
    first [reflexivity | unfold exact_costs; simpl; lia].
Defined.

(** ** Further properties of the bottom-right cell *)

(** X4.  For non-negative costs with which float64 is exact, the
    bottom-right cell is at least the cost of the insertions, or of the
    deletions, that the difference of the lengths makes necessary, and at
    most the cost of deleting all of [S] and inserting all of [T]. *)
Theorem distance_bounds (S T : list ascii) (ic dc sc : Z) :
  exact_costs S T ic dc sc ->
  exists d,
    (table ← min_edit_distance_table S T ic dc sc;
     getitem table (length S) (length T)) = Ok (Finite d)
    /\ ((Z.of_nat (length T) - Z.of_nat (length S)) * ic <= d)%Z
    /\ ((Z.of_nat (length S) - Z.of_nat (length T)) * dc <= d)%Z
    /\ (d <= Z.of_nat (length S) * dc + Z.of_nat (length T) * ic)%Z.
Proof.
  intros Hexact. exists (lev ic dc sc (rev S) (rev T)).
  split; [apply table_corner, Hexact|].
  destruct Hexact as (Hic & Hdc & Hsc & _).
  rewrite <- (length_rev S), <- (length_rev T).
  split; [apply lev_lower_insert; assumption|].
  split; [apply lev_lower_delete; assumption | apply lev_upper].
Qed.

Lemma distance_bounds_witness :
  exists d,
    (table ← min_edit_distance_table (chars "intention") (chars "executions") 1 1 2;
     getitem table (length (chars "intention")) (length (chars "executions")))
    = Ok (Finite d)
    /\ ((Z.of_nat (length (chars "executions")) - Z.of_nat (length (chars "intention"))) * 1
        <= d)%Z
    /\ ((Z.of_nat (length (chars "intention")) - Z.of_nat (length (chars "executions"))) * 1
        <= d)%Z
    /\ (d <= Z.of_nat (length (chars "intention")) * 1
             + Z.of_nat (length (chars "executions")) * 1)%Z.
Proof.
  apply (distance_bounds (chars "intention") (chars "executions") 1 1 2).
  unfold exact_costs. simpl. lia.
Defined.

(** X5.  With positive costs with which float64 is exact, the
    bottom-right cell is 0 exactly for equal sequences. *)
Theorem distance_zero_iff_equal (S T : list ascii) (ic dc sc : Z) :
  exact_costs S T ic dc sc ->
  (0 < ic)%Z -> (0 < dc)%Z -> (0 < sc)%Z ->
  (table ← min_edit_distance_table S T ic dc sc; getitem table (length S) (length T))
  = Ok (Finite 0)
  <-> S = T.
Proof.
  intros Hexact Hic Hdc Hsc. rewrite table_corner by exact Hexact. split.
  - intros [= Hzero].
    pose proof (lev_achieved ic dc sc (rev S) (rev T)) as Hedits.
    apply (edits_positive ic dc sc _ _ _ Hic Hdc Hsc) in Hedits as [_ Heq].
    specialize (Heq Hzero).
    rewrite <- (rev_involutive S), <- (rev_involutive T), Heq. reflexivity.
  - intros <-. do 2 f_equal. apply lev_same; lia.
Qed.

Lemma distance_zero_iff_equal_witness :
  (table ← min_edit_distance_table (chars "intention") (chars "execution") 1 1 2;
   getitem table (length (chars "intention")) (length (chars "execution")))
  = Ok (Finite 0)
  <-> chars "intention" = chars "execution".
Proof.
  apply (distance_zero_iff_equal (chars "intention") (chars "execution") 1 1 2);
    try lia.
  unfold exact_costs. simpl. lia.
Defined.

(** X6.  Where float64 is exact, the triangle inequality needs no
    relation between the costs: it holds for all non-negative costs, also
    when inserting and deleting cost differently or a substitution costs
    more than both together. *)
Theorem distance_triangle_all_costs (A B C : list ascii) (ic dc sc : Z) :
  exact_costs A C ic dc sc -> exact_costs A B ic dc sc -> exact_costs B C ic dc sc ->
  exists dAC dAB dBC,
    (table ← min_edit_distance_table A C ic dc sc;
     getitem table (length A) (length C)) = Ok (Finite dAC)
    /\ (table ← min_edit_distance_table A B ic dc sc;
        getitem table (length A) (length B)) = Ok (Finite dAB)
    /\ (table ← min_edit_distance_table B C ic dc sc;
        getitem table (length B) (length C)) = Ok (Finite dBC)
    /\ (dAC <= dAB + dBC)%Z.
Proof.
  intros HAC HAB HBC.
  exists (lev ic dc sc (rev A) (rev C)), (lev ic dc sc (rev A) (rev B)),
         (lev ic dc sc (rev B) (rev C)).
  rewrite !table_corner by assumption. repeat split.
  destruct HAC as (Hic & Hdc & Hsc & _).
  apply lev_minimal; try assumption.
  eapply edits_trans; apply lev_achieved.
Qed.

Lemma distance_triangle_all_costs_witness :
  exists dAC dAB dBC,
    (table ← min_edit_distance_table (chars "intention") (chars "execution") 1 3 7;
     getitem table (length (chars "intention")) (length (chars "execution")))
    = Ok (Finite dAC)
    /\ (table ← min_edit_distance_table (chars "intention") (chars "extension") 1 3 7;
        getitem table (length (chars "intention")) (length (chars "extension")))
       = Ok (Finite dAB)
    /\ (table ← min_edit_distance_table (chars "extension") (chars "execution") 1 3 7;
        getitem table (length (chars "extension")) (length (chars "execution")))
       = Ok (Finite dBC)
    /\ (dAC <= dAB + dBC)%Z.
Proof.
  apply (distance_triangle_all_costs
           (chars "intention") (chars "extension") (chars "execution") 1 3 7);
    unfold exact_costs; simpl; lia.
Defined.

(** X7.  Every cell of the table is a bottom-right cell itself: with
    costs with which float64 is exact, the cell in row [i] and column [j]
    is the bottom-right cell of the table that the loops fill for the
    first [i] symbols of the source and the first [j] symbols of the
    target. *)
Theorem table_cell_is_prefix_distance (S T : list ascii) (ic dc sc : Z) (i j : nat) :
  exact_costs S T ic dc sc ->
  i <= length S -> j <= length T ->
  exists table table' d,
    min_edit_distance_table S T ic dc sc = Ok table
    /\ min_edit_distance_table (take i S) (take j T) ic dc sc = Ok table'
    /\ dims table' (i + 1) (j + 1)
    /\ getitem table i j = Ok (Finite d)
    /\ getitem table' i j = Ok (Finite d).
Proof.
  intros Hexact Hi Hj.
  destruct (table_cells S T ic dc sc Hexact) as (table & Hrun & _ & Hcells).
  destruct (table_cells (take i S) (take j T) ic dc sc (exact_costs_take _ _ _ _ _ i j Hexact))
    as (table' & Hrun' & Hd' & Hcells').
  rewrite !length_take in Hd', Hcells'.
  replace (i `min` length S) with i in * by lia.
  replace (j `min` length T) with j in * by lia.
  exists table, table', (prefix_distance ic dc sc S T i j).
  split; [exact Hrun|]. split; [exact Hrun'|]. split.
  { rewrite !Nat.add_1_r. exact Hd'. }
  split; [apply Hcells; assumption|].
  rewrite Hcells' by lia. unfold prefix_distance.
  rewrite !take_take. replace (i `min` i) with i by lia. replace (j `min` j) with j by lia.
  reflexivity.
Qed.

Lemma table_cell_is_prefix_distance_witness :
  exists table table' d,
    min_edit_distance_table (chars "intention") (chars "execution") 1 1 2 = Ok table
    /\ min_edit_distance_table (take 3 (chars "intention")) (take 4 (chars "execution")) 1 1 2
       = Ok table'
    /\ dims table' (3 + 1) (4 + 1)
    /\ getitem table 3 4 = Ok (Finite d)
    /\ getitem table' 3 4 = Ok (Finite d).
Proof.
  apply (table_cell_is_prefix_distance (chars "intention") (chars "execution") 1 1 2 3 4).
  - unfold exact_costs. simpl. lia.
  - simpl. lia.
  - simpl. lia.
Defined.

End EditDistanceTheory.

(** * Theory of the byte-pair encoder *)

Module BPETheory.
Import BPE PythonTheory.

(** ** [split] and [join] *)

Lemma append_nil_l (s : string) : "" +:+ s = s.
Proof. reflexivity. Qed.

Lemma append_cons (c : ascii) (s1 s2 : string) :
  String c s1 +:+ s2 = String c (s1 +:+ s2).
Proof. reflexivity. Qed.

Lemma append_nil_r (s : string) : s +:+ "" = s.
Proof.
  induction s as [|c s IH]; [reflexivity|]. rewrite append_cons, IH. reflexivity.
Qed.

Lemma append_assoc (s1 s2 s3 : string) : (s1 +:+ s2) +:+ s3 = s1 +:+ (s2 +:+ s3).
Proof.
  induction s1 as [|c s1 IH]; [reflexivity|]. rewrite !append_cons, IH. reflexivity.
Qed.

Lemma append_eq_nil (s1 s2 : string) : s1 +:+ s2 = "" -> s1 = "" /\ s2 = "".
Proof. destruct s1; [auto|]. rewrite append_cons. discriminate. Qed.

Lemma chars_append (s1 s2 : string) :
  list_ascii_of_string (s1 +:+ s2) = list_ascii_of_string s1 ++ list_ascii_of_string s2.
Proof.
  induction s1 as [|c s1 IH]; [reflexivity|]. rewrite append_cons. simpl.
  f_equal. exact IH.
Qed.

Lemma spaceless_append (w1 w2 : string) :
  spaceless w1 -> spaceless w2 -> spaceless (w1 +:+ w2).
Proof.
  unfold spaceless. intros H1 H2. rewrite chars_append. apply Forall_app. auto.
Qed.

Lemma symbol_append (w1 w2 : string) : symbol w1 -> symbol w2 -> symbol (w1 +:+ w2).
Proof.
  intros [Hne1 Hs1] [_ Hs2]. split.
  - intros H. apply append_eq_nil in H as [H _]. contradiction.
  - apply spaceless_append; assumption.
Qed.

(** Every word that [split] yields is a symbol. *)
Lemma split_from_symbols (s word : string) :
  spaceless word -> Forall symbol (split_from word s).
Proof.
  revert word. induction s as [|c s IH]; intros word Hword; simpl.
  - destruct (decide (word = "")); [constructor|].
    constructor; [split; assumption | constructor].
  - destruct (isspace c) eqn:Hc.
    + apply Forall_app. split.
      * destruct (decide (word = "")); [constructor|].
        constructor; [split; assumption | constructor].
      * apply IH. constructor.
    + apply IH. apply spaceless_append; [exact Hword|].
      constructor; [exact Hc | constructor].
Qed.

Lemma split_symbols (s : string) : Forall symbol (split s).
Proof. apply split_from_symbols. constructor. Qed.

(** Reading a run of characters that are not white space. *)
Lemma split_from_run (w word s : string) :
  spaceless w -> split_from word (w +:+ s) = split_from (word +:+ w) s.
Proof.
  revert word. induction w as [|c w IH]; intros word Hw.
  - rewrite append_nil_l, append_nil_r. reflexivity.
  - inversion Hw as [|? ? Hc Hw']; subst. rewrite append_cons. simpl. rewrite Hc.
    rewrite IH by exact Hw'. rewrite append_assoc. reflexivity.
Qed.

(** [split] undoes [join] on symbols. *)
Lemma split_join (xs : list string) :
  Forall symbol xs -> split (join " " xs) = xs.
Proof.
  unfold split, join. induction xs as [|x xs IH]; intros Hxs; [reflexivity|].
  inversion Hxs as [|? ? [Hne Hx] Hxs']; subst.
  destruct xs as [|y xs].
  - simpl. rewrite <- (append_nil_r x) at 1.
    rewrite split_from_run by exact Hx. rewrite append_nil_l. simpl.
    destruct (decide (x = "")); [contradiction | reflexivity].
  - change (String.concat " " (x :: y :: xs))
      with (x +:+ (" " +:+ String.concat " " (y :: xs))).
    rewrite split_from_run by exact Hx. rewrite append_nil_l, append_cons. simpl.
    destruct (decide (x = "")); [contradiction|]. simpl. f_equal.
    rewrite append_nil_l. apply IH. exact Hxs'.
Qed.

(** ** Dictionaries and sets *)

(** Case analysis on the first decision in the goal. *)
Ltac decide_goal_as H :=
  match goal with
  | |- context [decide ?P] => destruct (decide P) as [H|H]
  end.

Tactic Notation "decide_goal" "as" ident(H) := decide_goal_as H.

Lemma fold_left_agree {A B : Type} (f g : A -> B -> A) (xs : list B) (a : A) :
  (forall a x, f a x = g a x) -> fold_left f xs a = fold_left g xs a.
Proof.
  intros H. revert a. induction xs as [|x xs IH]; intros a; simpl; [reflexivity|].
  rewrite H. apply IH.
Qed.

Lemma elem_of_dict_set {K V : Type} `{EqDecision K} (d : list (K * V)) (k : K) (v : V)
    (kv : K * V) :
  kv ∈ dict_set d k v -> kv ∈ d \/ kv = (k, v).
Proof.
  induction d as [|[k' v'] d IH]; simpl.
  - intros H. apply list_elem_of_singleton in H as ->. right. reflexivity.
  - destruct (decide (k = k')) as [->|Hne]; intros H.
    + apply elem_of_cons in H as [->|H]; [right; reflexivity|].
      left. apply elem_of_cons. right. exact H.
    + apply elem_of_cons in H as [->|H].
      * left. apply elem_of_cons. left. reflexivity.
      * destruct (IH H) as [H'|H']; [|right; exact H'].
        left. apply elem_of_cons. right. exact H'.
Qed.

(** The entries of a dictionary filled by a loop of assignments
    [d[f x] = g x]. *)
Lemma elem_of_fold_dict_set {X K V : Type} `{EqDecision K}
    (f : X -> K) (g : X -> V) (xs : list X) (d : list (K * V)) (kv : K * V) :
  kv ∈ fold_left (fun d x => dict_set d (f x) (g x)) xs d ->
  kv ∈ d \/ exists x, x ∈ xs /\ kv = (f x, g x).
Proof.
  revert d. induction xs as [|x xs IH]; intros d; simpl.
  - auto.
  - intros H. destruct (IH _ H) as [H'|(x' & Hx' & Hk)].
    + apply elem_of_dict_set in H' as [H'|H']; [left; exact H'|].
      right. exists x. split; [apply elem_of_cons; left; reflexivity | exact H'].
    + right. exists x'. split; [apply elem_of_cons; right; exact Hx' | exact Hk].
Qed.

Lemma elem_of_set_update {X : Type} `{EqDecision X} (s xs : list X) (x : X) :
  x ∈ set_update s xs <-> x ∈ s \/ x ∈ xs.
Proof.
  unfold set_update. revert s. induction xs as [|y xs IH]; intros s; simpl.
  - split; [auto|]. intros [H|H]; [exact H|]. inversion H.
  - rewrite IH. destruct (decide (y ∈ s)) as [Hin|Hnin].
    + rewrite elem_of_cons. split; [tauto|].
      intros [H|[->|H]]; auto.
    + rewrite elem_of_app, list_elem_of_singleton, elem_of_cons. tauto.
Qed.

(** ** The vocabulary invariant *)

Lemma initialize_vocab_from (token_counts : list (string * Z)) (vocab0 : list string)
    (sym : string) :
  sym ∈ vocab0
  \/ (exists token value, (token, value) ∈ token_counts /\ sym ∈ split token) ->
  sym ∈ fold_left (fun vocab '(token, _) => set_update vocab (split token))
                  token_counts vocab0.
Proof.
  revert vocab0. induction token_counts as [|[token value] tc IH]; intros vocab0; simpl.
  - intros [H|(token & value & H & _)]; [exact H | inversion H].
  - intros H. apply IH. destruct H as [H|(token' & value' & Hin & Hsym)].
    + left. apply elem_of_set_update. left. exact H.
    + apply elem_of_cons in Hin as [[= -> ->]|Hin].
      * left. apply elem_of_set_update. right. exact Hsym.
      * right. exists token', value'. auto.
Qed.

Lemma vocab_invariant_init (tokens_of : string -> list string)
    (corpus : list string) (n_merges : Z) :
  vocab_invariant (__init__ tokens_of corpus n_merges).
Proof.
  unfold vocab_invariant, __init__. simpl.
  apply Forall_forall. intros [key value] Hkey.
  apply Forall_forall. intros sym Hsym.
  apply initialize_vocab_from. right. exists key, value. auto.
Qed.

Lemma merge_characters_cons (vocab : list string) (c0 c1 : string) (rest : list string) :
  merge_characters vocab (c0 :: c1 :: rest)
  = if decide (c0 +:+ c1 ∈ vocab)
    then (c0 +:+ c1) :: merge_characters vocab rest
    else c0 :: merge_characters vocab (c1 :: rest).
Proof. reflexivity. Qed.

(** What the scan of [modify_tokens] leaves in a key: symbols that were
    there, and merged symbols found in the vocabulary. *)
Lemma merge_characters_elements (vocab characters : list string) :
  Forall (fun c => c ∈ characters \/ c ∈ vocab) (merge_characters vocab characters).
Proof.
  remember (length characters) as n eqn:Hn.
  revert characters Hn. induction n as [n IH] using lt_wf_ind.
  intros characters Hn. destruct characters as [|c0 [|c1 rest]].
  - constructor.
  - constructor; [|constructor]. left. apply elem_of_cons. left. reflexivity.
  - rewrite merge_characters_cons.
    destruct (decide (c0 +:+ c1 ∈ vocab)) as [Hin|Hnin].
    + constructor; [right; exact Hin|].
      eapply Forall_impl; [apply (IH (length rest)); [simpl in Hn; lia | reflexivity]|].
      intros c [H|H]; [left | right; exact H].
      apply elem_of_cons. right. apply elem_of_cons. right. exact H.
    + constructor; [left; apply elem_of_cons; left; reflexivity|].
      eapply Forall_impl; [apply (IH (length (c1 :: rest))); [simpl in *; lia | reflexivity]|].
      intros c [H|H]; [left | right; exact H].
      apply elem_of_cons. right. exact H.
Qed.

Lemma merge_characters_symbols (vocab characters : list string) :
  Forall symbol characters -> Forall symbol (merge_characters vocab characters).
Proof.
  remember (length characters) as n eqn:Hn.
  revert characters Hn. induction n as [n IH] using lt_wf_ind.
  intros characters Hn Hsym. destruct characters as [|c0 [|c1 rest]].
  - constructor.
  - exact Hsym.
  - inversion Hsym as [|? ? H0 Hsym1]; subst.
    inversion Hsym1 as [|? ? H1 Hsym2]; subst.
    rewrite merge_characters_cons.
    destruct (decide (c0 +:+ c1 ∈ vocab)) as [Hin|Hnin].
    + constructor; [apply symbol_append; assumption|].
      apply (IH (length rest)); [simpl; lia | reflexivity | exact Hsym2].
    + constructor; [exact H0|].
      apply (IH (length (c1 :: rest))); [simpl; lia | reflexivity | exact Hsym1].
Qed.

Lemma vocab_invariant_modify_vocab (self : bpe_tokenizer) (new_character : string) :
  vocab_invariant self -> vocab_invariant (modify_vocab self new_character).
Proof.
  unfold vocab_invariant. simpl. intros H.
  eapply Forall_impl; [exact H|]. intros [key value] Hkey.
  eapply Forall_impl; [exact Hkey|]. intros sym Hsym.
  apply elem_of_app. left. exact Hsym.
Qed.

(** Every entry of the mapping that [modify_tokens] builds is an entry of
    the old mapping with its key rewritten and its count kept. *)
Lemma modify_tokens_entries (self : bpe_tokenizer) (new_character new_key : string)
    (value : Z) :
  (new_key, value) ∈ token_counts (modify_tokens self new_character) ->
  exists key,
    (key, value) ∈ token_counts self
    /\ new_key = join " " (merge_characters (vocab self) (split key)).
Proof.
  simpl. intros Hkey.
  replace (fold_left _ (token_counts self) [])
    with (fold_left (fun d (x : string * Z) =>
            dict_set d (join " " (merge_characters (vocab self) (split x.1))) x.2)
            (token_counts self) []) in Hkey.
  2:{ apply fold_left_agree. intros d [token value']. reflexivity. }
  apply elem_of_fold_dict_set in Hkey as [Hkey|([token value'] & Hin & Heq)];
    [inversion Hkey|].
  simpl in Heq. injection Heq as -> ->. exists token. auto.
Qed.

Lemma vocab_invariant_modify_tokens (self : bpe_tokenizer) (new_character : string) :
  vocab_invariant self -> vocab_invariant (modify_tokens self new_character).
Proof.
  unfold vocab_invariant. intros H.
  apply Forall_forall. intros [key value] Hkey.
  apply modify_tokens_entries in Hkey as (token & Hin & ->).
  simpl.
  rewrite split_join by (apply merge_characters_symbols, split_symbols).
  rewrite Forall_forall in H. specialize (H _ Hin). simpl in H.
  rewrite Forall_forall in H.
  eapply Forall_impl; [apply merge_characters_elements|].
  intros sym [Hsym|Hsym]; [apply H; exact Hsym | exact Hsym].
Qed.

Lemma vocab_invariant_step (self self' : bpe_tokenizer) (chosen : string * string) :
  vocab_invariant self -> step self = Ok (chosen, self') -> vocab_invariant self'.
Proof.
  unfold step. intros H Hstep.
  destruct (find_most_common_pair self) as [best|e]; simpl in Hstep; [|discriminate].
  injection Hstep as _ <-.
  apply vocab_invariant_modify_tokens, vocab_invariant_modify_vocab. exact H.
Qed.

Lemma vocab_invariant_merge_loop (n : nat) (self : bpe_tokenizer) :
  vocab_invariant self -> vocab_invariant (merge_loop n self).1.
Proof.
  revert self. induction n as [|n IH]; intros self H; simpl; [exact H|].
  destruct (step self) as [[chosen self']|e] eqn:Hstep; [|exact H].
  apply IH. eapply vocab_invariant_step; eassumption.
Qed.

Lemma vocab_invariant_merge (self : bpe_tokenizer) (n : option Z) :
  vocab_invariant self -> vocab_invariant (merge self n).1.
Proof.
  intros H. unfold merge.
  pose proof (vocab_invariant_merge_loop (Z.to_nat (default (n_merges self) n)) self H) as H'.
  destruct (merge_loop _ self) as [self' [[]|e]]; exact H'.
Qed.

(** C7.  In every reachable state of the trainer, every symbol of every
    key of [token_counts] is a member of [vocab]: the constructor
    establishes this and every merge step preserves it. *)
Theorem reachable_vocab_invariant (tokens_of : string -> list string)
    (self : bpe_tokenizer) :
  reachable tokens_of self -> vocab_invariant self.
Proof.
  induction 1 as [corpus n|self chosen self' _ IH Hstep|self n _ IH].
  - apply vocab_invariant_init.
  - eapply vocab_invariant_step; eassumption.
  - apply vocab_invariant_merge. exact IH.
Qed.

Lemma reachable_vocab_invariant_witness :
  vocab_invariant (merge (__init__ one_token example_text 10) (Some 8%Z)).1.
Proof.
  apply (reachable_vocab_invariant one_token).
  apply reachable_merge. apply reachable_init.
Defined.

(** ** The most common pair *)


Lemma dict_get_set {K V : Type} `{EqDecision K} (d : list (K * V)) (k q : K) (v : V) :
  dict_get (dict_set d k v) q = if decide (q = k) then Some v else dict_get d q.
Proof.
  induction d as [|[k' v'] d IH]; simpl.
  - destruct (decide (q = k)); reflexivity.
  - destruct (decide (k = k')) as [->|Hne]; simpl.
    + destruct (decide (q = k')); reflexivity.
    + destruct (decide (q = k')) as [->|Hq].
      * destruct (decide (k' = k)); [congruence | reflexivity].
      * exact IH.
Qed.

Lemma keys_dict_set {K V : Type} `{EqDecision K} (d : list (K * V)) (k : K) (v : V) :
  map fst (dict_set d k v)
  = if decide (k ∈ map fst d) then map fst d else map fst d ++ [k].
Proof.
  induction d as [|[k' v'] d IH]; simpl; [reflexivity|].
  destruct (decide (k = k')) as [->|Hne]; simpl.
  - decide_goal as H; [reflexivity|].
    exfalso. apply H. apply elem_of_cons. left. reflexivity.
  - rewrite IH. decide_goal as Hin; decide_goal as H; try reflexivity.
    + exfalso. apply H. apply elem_of_cons. right. exact Hin.
    + apply elem_of_cons in H as [H|H]; contradiction.
Qed.

Lemma set_update_snoc {X : Type} `{EqDecision X} (s xs : list X) (x : X) :
  set_update s (xs ++ [x])
  = if decide (x ∈ set_update s xs) then set_update s xs else set_update s xs ++ [x].
Proof. unfold set_update. rewrite fold_left_app. reflexivity. Qed.

(** [set_update [] xs] lists the elements of [xs] in the order in which
    they first occur. *)
Lemma set_update_first {X : Type} `{EqDecision X} (xs kb ka : list X) (p : X) :
  set_update [] xs = kb ++ p :: ka ->
  exists before after,
    xs = before ++ p :: after /\ (p ∉ before) /\ (forall q, q ∈ before -> q ∈ kb).
Proof.
  revert kb ka. induction xs as [|x xs IH] using rev_ind; intros kb ka Hkeys.
  - destruct kb; discriminate.
  - rewrite set_update_snoc in Hkeys.
    destruct (decide (x ∈ set_update [] xs)) as [Hin|Hnin].
    + destruct (IH kb ka Hkeys) as (before & after & -> & Hp & Hkb).
      exists before, (after ++ [x]). split; [|auto].
      rewrite <- app_assoc. reflexivity.
    + destruct ka as [|y ka _] using rev_ind.
      * apply app_inj_tail in Hkeys as [Hkb ->].
        exists xs, []. split; [reflexivity|]. split.
        -- intros H'. apply Hnin. apply elem_of_set_update. right. exact H'.
        -- intros q Hq. rewrite <- Hkb. apply elem_of_set_update. right. exact Hq.
      * rewrite app_comm_cons, app_assoc in Hkeys.
        apply app_inj_tail in Hkeys as [Hkeys ->].
        destruct (IH kb ka Hkeys) as (before & after & -> & Hp & Hkb).
        exists before, (after ++ [y]). split; [|auto].
        rewrite <- app_assoc. reflexivity.
Qed.

(** [max_from] returns the first element with the largest key. *)
Lemma max_from_split {X : Type} (key : X -> Z) (xs pre mid : list X) (best : X) :
  (forall q, q ∈ pre -> (key q < key best)%Z) ->
  (forall q, q ∈ mid -> (key q <= key best)%Z) ->
  exists kb ka,
    pre ++ best :: mid ++ xs = kb ++ max_from key best xs :: ka
    /\ (forall q, q ∈ kb -> (key q < key (max_from key best xs))%Z)
    /\ (forall q, q ∈ ka -> (key q <= key (max_from key best xs))%Z).
Proof.
  revert pre mid best. induction xs as [|x xs IH]; intros pre mid best Hpre Hmid; simpl.
  - exists pre, mid. rewrite app_nil_r. auto.
  - destruct (key best <? key x)%Z eqn:Hlt.
    + apply Z.ltb_lt in Hlt.
      destruct (IH (pre ++ best :: mid) [] x) as (kb & ka & Heq & Hkb & Hka).
      * intros q Hq. apply elem_of_app in Hq as [Hq|Hq]; [specialize (Hpre q Hq); lia|].
        apply elem_of_cons in Hq as [->|Hq]; [exact Hlt | specialize (Hmid q Hq); lia].
      * intros q Hq. inversion Hq.
      * exists kb, ka. split; [|auto]. rewrite <- Heq. rewrite <- app_assoc. reflexivity.
    + apply Z.ltb_ge in Hlt.
      destruct (IH pre (mid ++ [x]) best) as (kb & ka & Heq & Hkb & Hka).
      * exact Hpre.
      * intros q Hq. apply elem_of_app in Hq as [Hq|Hq]; [auto|].
        apply list_elem_of_singleton in Hq as ->. exact Hlt.
      * exists kb, ka. split; [|auto]. rewrite <- Heq. rewrite <- app_assoc. reflexivity.
Qed.

(** The loop over the indices of one key adds its adjacent pairs, from
    left to right. *)
Lemma count_pairs_key (value : Z) (cs pre : list string)
    (pairs : list ((string * string) * Z)) :
  for_ (seq (length pre) (length cs - 1)) (fun index pairs =>
      first ← item (pre ++ cs) index;
      second ← item (pre ++ cs) (index + 1);
      Ok (dict_add pairs (first, second) value)) pairs
  = Ok (fold_left (fun d p => dict_add d p value) (adjacent_pairs cs) pairs).
Proof.
  revert pre pairs. induction cs as [|c0 cs IH]; intros pre pairs; [reflexivity|].
  destruct cs as [|c1 rest]; [reflexivity|].
  change (length (c0 :: c1 :: rest) - 1) with (S (length rest)).
  change (seq (length pre) (S (length rest)))
    with (length pre :: seq (S (length pre)) (length rest)).
  cbn [for_].
  assert (H0 : item (pre ++ c0 :: c1 :: rest) (length pre) = Ok c0).
  { apply item_Ok. apply list_lookup_middle. reflexivity. }
  assert (H1 : item (pre ++ c0 :: c1 :: rest) (length pre + 1) = Ok c1).
  { apply item_Ok.
    replace (pre ++ c0 :: c1 :: rest) with ((pre ++ [c0]) ++ c1 :: rest)
      by (rewrite <- app_assoc; reflexivity).
    apply list_lookup_middle. rewrite length_app. simpl. lia. }
  rewrite H0. simpl. rewrite H1. simpl.
  specialize (IH (pre ++ [c0]) (dict_add pairs (c0, c1) value)).
  rewrite <- app_assoc in IH. simpl in IH.
  rewrite length_app in IH. simpl in IH.
  replace (length pre + 1) with (S (length pre)) in IH by lia.
  replace (length rest - 0) with (length rest) in IH by lia.
  exact IH.
Qed.

(** The [pairs] mapping is the scan, aggregated. *)
Lemma count_pairs_from (token_counts : list (string * Z))
    (pairs : list ((string * string) * Z)) :
  for_ token_counts (fun '(token, value) pairs =>
    let characters := split token in
    for_ (range 0 (length characters - 1)) (fun index pairs =>
      first ← item characters index;
      second ← item characters (index + 1);
      Ok (dict_add pairs (first, second) value)) pairs) pairs
  = Ok (fold_left (fun d '(p, value) => dict_add d p value)
          (scanned_pairs token_counts) pairs).
Proof.
  revert pairs. induction token_counts as [|[token value] tc IH]; intros pairs;
    [reflexivity|].
  cbn [for_ scanned_pairs flat_map]. unfold range.
  replace (length (split token) - 1 - 0) with (length (split token) - 1) by lia.
  pose proof (count_pairs_key value (split token) [] pairs) as Hkey.
  simpl in Hkey. rewrite Hkey. simpl.
  rewrite IH. f_equal. rewrite fold_left_app. f_equal. clear Hkey.
  generalize (adjacent_pairs (split token)). intros ps. revert pairs.
  induction ps as [|p ps IHps]; intros pairs; simpl; [reflexivity|]. apply IHps.
Qed.

Lemma count_pairs_scan (token_counts : list (string * Z)) :
  count_pairs token_counts
  = Ok (fold_left (fun d '(p, value) => dict_add d p value)
          (scanned_pairs token_counts) []).
Proof. apply count_pairs_from. Qed.

Lemma pair_count_snoc (scan : list ((string * string) * Z))
    (p q : string * string) (value : Z) :
  pair_count (scan ++ [(p, value)]) q
  = (pair_count scan q + if decide (p = q) then value else 0)%Z.
Proof.
  unfold pair_count. induction scan as [|[p' v'] scan IH]; simpl.
  - destruct (decide (p = q)); lia.
  - rewrite IH. destruct (decide (p' = q)); lia.
Qed.

Lemma pair_count_absent (scan : list ((string * string) * Z)) (q : string * string) :
  q ∉ map fst scan -> pair_count scan q = 0%Z.
Proof.
  unfold pair_count. induction scan as [|[p' v'] scan IH]; simpl; [reflexivity|].
  intros Hq. destruct (decide (p' = q)) as [->|Hne].
  - exfalso. apply Hq. apply elem_of_cons. left. reflexivity.
  - apply IH. intros H. apply Hq. apply elem_of_cons. right. exact H.
Qed.

(** The aggregated scan: its keys are the scanned pairs in the order in
    which they are first met, and each is mapped to its aggregate count. *)
Lemma aggregate_scan (scan : list ((string * string) * Z)) :
  let pairs := fold_left (fun d '(p, value) => dict_add d p value) scan [] in
  map fst pairs = set_update [] (map fst scan)
  /\ forall q, dict_get pairs q
       = if decide (q ∈ map fst scan) then Some (pair_count scan q) else None.
Proof.
  induction scan as [|[p value] scan [IHkeys IHget]] using rev_ind; simpl.
  - split; reflexivity.
  - rewrite fold_left_app. simpl.
    set (pairs := fold_left _ scan []) in *.
    split.
    + unfold dict_add. rewrite keys_dict_set, IHkeys.
      rewrite map_app. simpl. rewrite set_update_snoc. reflexivity.
    + intros q. unfold dict_add. rewrite dict_get_set, pair_count_snoc.
      rewrite map_app. simpl.
      destruct (decide (q = p)) as [->|Hne].
      * destruct (decide (p = p)) as [_|]; [|congruence].
        rewrite IHget.
        destruct (decide (p ∈ map fst scan ++ [p])) as [_|Hnin].
        2:{ exfalso. apply Hnin. apply elem_of_app. right. apply elem_of_cons. left.
            reflexivity. }
        destruct (decide (p ∈ map fst scan)) as [Hin|Hnin]; simpl; [reflexivity|].
        rewrite (pair_count_absent scan p Hnin). reflexivity.
      * destruct (decide (p = q)) as [->|_]; [congruence|].
        rewrite IHget.
        destruct (decide (q ∈ map fst scan)) as [Hin|Hnin];
          destruct (decide (q ∈ map fst scan ++ [p])) as [Hin'|Hnin'].
        -- f_equal. lia.
        -- exfalso. apply Hnin'. apply elem_of_app. left. exact Hin.
        -- exfalso. apply elem_of_app in Hin' as [H|H]; [contradiction|].
           apply list_elem_of_singleton in H. contradiction.
        -- reflexivity.
Qed.

(** C10.  When some key of [token_counts] has at least two symbols,
    [find_most_common_pair] returns a pair.  Scanning the keys in their
    order and each key from left to right, the returned pair is met, no
    pair that is met has a larger aggregate count, and every pair met
    before its first occurrence has a strictly smaller one: the returned
    pair has the maximal aggregate count and, among the pairs of that
    count, is the one met (and inserted into the mapping) first. *)
Theorem find_most_common_pair_first_max (self : bpe_tokenizer) :
  (exists key value, (key, value) ∈ token_counts self /\ 2 <= length (split key)) ->
  exists best before after,
    find_most_common_pair self = Ok best
    /\ map fst (scanned_pairs (token_counts self)) = before ++ best :: after
    /\ (forall q, q ∈ map fst (scanned_pairs (token_counts self)) ->
          (pair_count (scanned_pairs (token_counts self)) q
           <= pair_count (scanned_pairs (token_counts self)) best)%Z)
    /\ (forall q, q ∈ before ->
          (pair_count (scanned_pairs (token_counts self)) q
           < pair_count (scanned_pairs (token_counts self)) best)%Z).
Proof.
  intros (key & value & Hkey & Hlen).
  unfold find_most_common_pair. rewrite count_pairs_scan. simpl.
  set (scan := scanned_pairs (token_counts self)).
  destruct (aggregate_scan scan) as [Hkeys Hget]. simpl in Hkeys, Hget.
  set (pairs := fold_left _ scan []) in *.
  (* the scan is not empty *)
  assert (Hscan : exists p, p ∈ map fst scan).
  { unfold scan, scanned_pairs.
    destruct (split key) as [|c0 [|c1 rest]] eqn:Hsplit; simpl in Hlen; try lia.
    exists (c0, c1). apply list_elem_of_fmap. exists ((c0, c1), value). split; [reflexivity|].
    apply list_elem_of_In, in_flat_map. exists (key, value). split.
    - apply list_elem_of_In. exact Hkey.
    - rewrite Hsplit. simpl. left. reflexivity. }
  destruct (map fst pairs) as [|first keys] eqn:Hpairs.
  { exfalso. destruct Hscan as [p Hp].
    assert (H : p ∈ set_update [] (map fst scan)).
    { apply elem_of_set_update. right. exact Hp. }
    rewrite <- Hkeys in H. inversion H. }
  simpl.
  set (key_of := fun q : string * string => default 0%Z (dict_get pairs q)).
  destruct (max_from_split key_of keys [] [] first) as (kb & ka & Heq & Hkb & Hka).
  { intros q Hq. inversion Hq. }
  { intros q Hq. inversion Hq. }
  simpl in Heq. set (best := max_from key_of first keys) in *.
  assert (Hcount : forall q, q ∈ map fst scan -> key_of q = pair_count scan q).
  { intros q Hq. unfold key_of. rewrite Hget.
    destruct (decide (q ∈ map fst scan)); [reflexivity | contradiction]. }
  rewrite Hkeys in Heq.
  destruct (set_update_first (map fst scan) kb ka best Heq)
    as (before & after & Hsplit & Hbest & Hbefore).
  assert (Hbest_in : best ∈ map fst scan).
  { rewrite Hsplit. apply elem_of_app. right. apply elem_of_cons. left. reflexivity. }
  exists best, before, after. split; [reflexivity|]. split; [exact Hsplit|]. split.
  - intros q Hq_in.
    rewrite <- (Hcount q Hq_in), <- (Hcount best Hbest_in).
    assert (Hq_keys : q ∈ kb ++ best :: ka).
    { rewrite <- Heq. apply elem_of_set_update. right. exact Hq_in. }
    apply elem_of_app in Hq_keys as [H|H].
    + specialize (Hkb q H). lia.
    + apply elem_of_cons in H as [->|H]; [lia | apply Hka; exact H].
  - intros q Hq.
    assert (Hq_in : q ∈ map fst scan).
    { rewrite Hsplit. apply elem_of_app. left. exact Hq. }
    rewrite <- (Hcount q Hq_in), <- (Hcount best Hbest_in).
    apply Hkb, Hbefore, Hq.
Qed.

Lemma find_most_common_pair_first_max_witness :
  exists best before after,
    find_most_common_pair example_tokenizer = Ok best
    /\ map fst (scanned_pairs (token_counts example_tokenizer)) = before ++ best :: after
    /\ (forall q, q ∈ map fst (scanned_pairs (token_counts example_tokenizer)) ->
          (pair_count (scanned_pairs (token_counts example_tokenizer)) q
           <= pair_count (scanned_pairs (token_counts example_tokenizer)) best)%Z)
    /\ (forall q, q ∈ before ->
          (pair_count (scanned_pairs (token_counts example_tokenizer)) q
           < pair_count (scanned_pairs (token_counts example_tokenizer)) best)%Z).
Proof.
  apply (find_most_common_pair_first_max example_tokenizer).
  exists "l o w </W>", 5%Z. split.
  - vm_compute. left.
  - vm_compute. lia.
Defined.

(** ** The textbook example *)

Lemma count_tokens_agree (tokens_of tokens_of' : string -> list string)
    (corpus : list string) :
  Forall (fun text => tokens_of text = tokens_of' text) corpus ->
  count_tokens tokens_of corpus = count_tokens tokens_of' corpus.
Proof.
  intros H. unfold count_tokens. f_equal.
  generalize (@nil (string * Z)).
  induction H as [|text corpus Htext _ IH]; intros counts; simpl; [reflexivity|].
  rewrite Htext. apply IH.
Qed.

(** C6.  On the corpus [low] x 5, [lowest] x 2, [newer] x 6, [wider] x 3,
    [new] x 2, each text being tokenized to itself, [merge(n=8)] runs its
    eight iterations without an exception; the first selects the pair
    [(e, r)] and the second the pair [(er, </W>)], and all eight are the
    pairs that the notebook prints for the reference implementation
    copied from the book (which spells the marker [</w>]). *)
Theorem example_merges (tokens_of : string -> list string) :
  Forall (fun text => tokens_of text = [text]) example_text ->
  selected_pairs 8 (__init__ tokens_of example_text 10)
  = [("e", "r"); ("er", "</W>"); ("n", "e"); ("ne", "w"); ("l", "o"); ("lo", "w");
     ("new", "er</W>"); ("low", "</W>")]
  /\ exists self',
       merge (__init__ tokens_of example_text 10) (Some 8%Z) = (self', Ok tt)
       /\ vocab self'
          = vocab (__init__ tokens_of example_text 10)
            ++ ["er"; "er</W>"; "ne"; "new"; "lo"; "low"; "newer</W>"; "low</W>"].
Proof.
  intros H.
  assert (Hinit : __init__ tokens_of example_text 10 = example_tokenizer).
  { unfold example_tokenizer, __init__.
    rewrite (count_tokens_agree tokens_of one_token example_text H). reflexivity. }
  rewrite Hinit. split.
  - vm_compute. reflexivity.
  - eexists. split; vm_compute; reflexivity.
Qed.

Lemma example_merges_witness :
  selected_pairs 8 (__init__ one_token example_text 10)
  = [("e", "r"); ("er", "</W>"); ("n", "e"); ("ne", "w"); ("l", "o"); ("lo", "w");
     ("new", "er</W>"); ("low", "</W>")]
  /\ exists self',
       merge (__init__ one_token example_text 10) (Some 8%Z) = (self', Ok tt)
       /\ vocab self'
          = vocab (__init__ one_token example_text 10)
            ++ ["er"; "er</W>"; "ne"; "new"; "lo"; "low"; "newer</W>"; "low</W>"].
Proof.
  apply (example_merges one_token).
  apply Forall_forall. intros text _. reflexivity.
Defined.

(** ** Running out of pairs *)


Lemma merge_loop_steps (n : nat) (self self' : bpe_tokenizer) :
  merge_loop n self = (self', Ok tt) -> steps n self self'.
Proof.
  revert self. induction n as [|n IH]; intros self; simpl.
  - intros [= <-]. constructor.
  - destruct (step self) as [[chosen next]|e] eqn:Hstep; [|discriminate].
    intros H. econstructor; [exact Hstep | apply IH; exact H].
Qed.





(** ** Rewriting the keys *)

Lemma replace_pair_cons (a b c0 c1 : string) (rest : list string) :
  replace_pair a b (c0 :: c1 :: rest)
  = if decide (c0 = a /\ c1 = b)
    then (a +:+ b) :: replace_pair a b rest
    else c0 :: replace_pair a b (c1 :: rest).
Proof. reflexivity. Qed.

Lemma adjacent_pairs_cons (c0 c1 : string) (rest : list string) :
  adjacent_pairs (c0 :: c1 :: rest) = (c0, c1) :: adjacent_pairs (c1 :: rest).
Proof. reflexivity. Qed.

(** X2.  Where the only adjacent pairs of a key whose concatenation is in
    the vocabulary are occurrences of [(a, b)], the scan of
    [modify_tokens] rewrites the key as the specification says. *)
Theorem merge_characters_replace_pair (vocab : list string) (a b : string)
    (characters : list string) :
  a +:+ b ∈ vocab ->
  (forall x y, (x, y) ∈ adjacent_pairs characters -> x +:+ y ∈ vocab -> x = a /\ y = b) ->
  merge_characters vocab characters = replace_pair a b characters.
Proof.
  intros Hab.
  remember (length characters) as n eqn:Hn.
  revert characters Hn. induction n as [n IH] using lt_wf_ind.
  intros characters Hn Honly. destruct characters as [|c0 [|c1 rest]]; try reflexivity.
  rewrite merge_characters_cons, replace_pair_cons.
  rewrite adjacent_pairs_cons in Honly.
  assert (Htail : forall x y, (x, y) ∈ adjacent_pairs (c1 :: rest) ->
                    x +:+ y ∈ vocab -> x = a /\ y = b).
  { intros x y Hxy. apply Honly. apply elem_of_cons. right. exact Hxy. }
  destruct (decide (c0 +:+ c1 ∈ vocab)) as [Hin|Hnin].
  - destruct (Honly c0 c1) as [-> ->]; [apply elem_of_cons; left; reflexivity | exact Hin |].
    destruct (decide (a = a /\ b = b)) as [_|Hne]; [|exfalso; apply Hne; auto].
    f_equal. apply (IH (length rest)); [simpl in Hn; lia | reflexivity |].
    intros x y Hxy. apply Htail.
    destruct rest as [|c2 rest']; [inversion Hxy|].
    rewrite adjacent_pairs_cons. apply elem_of_cons. right. exact Hxy.
  - destruct (decide (c0 = a /\ c1 = b)) as [[-> ->]|_]; [contradiction|].
    f_equal. apply (IH (length (c1 :: rest))); [simpl in *; lia | reflexivity | exact Htail].
Qed.

Lemma merge_characters_replace_pair_witness :
  merge_characters ["e"; "r"; "n"; "w"; "</W>"; "er"] ["n"; "e"; "w"; "e"; "r"; "</W>"]
  = replace_pair "e" "r" ["n"; "e"; "w"; "e"; "r"; "</W>"].
Proof.
  apply (merge_characters_replace_pair
           ["e"; "r"; "n"; "w"; "</W>"; "er"] "e" "r" ["n"; "e"; "w"; "e"; "r"; "</W>"]).
  - apply list_elem_of_In. vm_compute. tauto.
  - intros x y Hxy Hin. apply list_elem_of_In in Hxy. apply list_elem_of_In in Hin.
    vm_compute in Hxy.
    repeat (destruct Hxy as [Hxy|Hxy];
            [injection Hxy as <- <-;
             first [split; reflexivity
                   | exfalso; vm_compute in Hin; intuition discriminate]|]).
    destruct Hxy.
Defined.

(** The scan only tests membership in the vocabulary: the order in which
    Python lists the initial set of symbols does not matter. *)
Lemma merge_characters_same_members (vocab vocab' characters : list string) :
  (forall x, x ∈ vocab <-> x ∈ vocab') ->
  merge_characters vocab characters = merge_characters vocab' characters.
Proof.
  intros Hsame.
  remember (length characters) as n eqn:Hn.
  revert characters Hn. induction n as [n IH] using lt_wf_ind.
  intros characters Hn. destruct characters as [|c0 [|c1 rest]]; try reflexivity.
  rewrite !merge_characters_cons.
  destruct (decide (c0 +:+ c1 ∈ vocab)) as [Hin|Hnin];
    destruct (decide (c0 +:+ c1 ∈ vocab')) as [Hin'|Hnin'].
  - f_equal. apply (IH (length rest)); [simpl in Hn; lia | reflexivity].
  - exfalso. apply Hnin', Hsame, Hin.
  - exfalso. apply Hnin, Hsame, Hin'.
  - f_equal. apply (IH (length (c1 :: rest))); [simpl in *; lia | reflexivity].
Qed.

(** C2 fails on the code.  After two merges on the words [</W>], [</] and
    [W>], the key ['</ W> </W>'] is in [token_counts] and the vocabulary
    holds the marker ['</W>'].  The third iteration selects the pair
    [(W>, </W>)], but [modify_tokens] tests membership in the vocabulary,
    not equality with the selected pair, and merges [</] with [W>]
    instead: the key becomes ['</W> </W>'], where the rewrite of the
    selected pair alone gives ['</ W></W>']. *)
Theorem modify_tokens_merges_another_pair :
  token_counts marker_tokenizer
  = [("</ W> </W>", 1%Z); ("</ </W>", 2%Z); ("W> </W>", 2%Z)]
  /\ find_most_common_pair marker_tokenizer = Ok ("W>", "</W>")
  /\ (exists self',
        step marker_tokenizer = Ok (("W>", "</W>"), self')
        /\ token_counts self'
           = [("</W> </W>", 1%Z); ("</ </W>", 2%Z); ("W></W>", 2%Z)])
  /\ join " " (replace_pair "W>" "</W>" (split "</ W> </W>")) = "</ W></W>".
Proof.
  split; [vm_compute; reflexivity|]. split; [vm_compute; reflexivity|].
  split; [|vm_compute; reflexivity].
  eexists. split; vm_compute; reflexivity.
Qed.

End BPETheory.

(** * The counts and the words of the trainer *)

Module TrainerTheory.

Import BPE PythonTheory BPETheory.

(** ** Dictionaries that are tabulated functions *)

Lemma dict_set_new {K V : Type} `{EqDecision K} (d : list (K * V)) (k : K) (v : V) :
  k ∉ map fst d -> dict_set d k v = d ++ [(k, v)].
Proof.
  induction d as [|[k' v'] d IH]; intros Hnew; simpl.
  - reflexivity.
  - simpl in Hnew. apply not_elem_of_cons in Hnew as [Hne Hnew].
    decide_goal as Heq; [contradiction|]. rewrite IH by exact Hnew. reflexivity.
Qed.

Lemma fold_dict_set_distinct {X K V : Type} `{EqDecision K}
    (f : X -> K) (g : X -> V) (xs : list X) (d : list (K * V)) :
  NoDup (map fst d ++ map f xs) ->
  fold_left (fun d x => dict_set d (f x) (g x)) xs d = d ++ map (fun x => (f x, g x)) xs.
Proof.
  revert d. induction xs as [|x xs IH]; intros d Hnodup; simpl.
  - rewrite app_nil_r. reflexivity.
  - simpl in Hnodup. apply NoDup_app in Hnodup as (Hd & Hdisjoint & Hxs).
    apply NoDup_cons in Hxs as [Hx Hxs].
    assert (f x ∉ map fst d) as Hnew.
    { intros Hin. apply (Hdisjoint _ Hin). left. }
    rewrite dict_set_new by exact Hnew. rewrite IH.
    + rewrite <- app_assoc. reflexivity.
    + rewrite map_app. simpl. rewrite <- app_assoc. simpl.
      apply NoDup_app. split; [exact Hd|]. split.
      * intros k Hk Hin. apply elem_of_cons in Hin as [->|Hin]; [contradiction|].
        apply (Hdisjoint _ Hk). right. exact Hin.
      * apply NoDup_cons. split; assumption.
Qed.

Lemma dict_get_tabulate {K V : Type} `{EqDecision K} (g : K -> V) (keys : list K) (q : K) :
  dict_get (map (fun k => (k, g k)) keys) q
  = if decide (q ∈ keys) then Some (g q) else None.
Proof.
  induction keys as [|k keys IH]; cbn [map dict_get].
  - decide_goal as Hin; [inversion Hin | reflexivity].
  - destruct (decide (q = k)) as [->|Hne].
    + decide_goal as Hin; [reflexivity|]. exfalso. apply Hin. left.
    + rewrite IH. destruct (decide (q ∈ keys)) as [Hin|Hin];
        decide_goal as Hin'; try reflexivity.
      * exfalso. apply Hin'. right. exact Hin.
      * apply elem_of_cons in Hin' as [?|?]; contradiction.
Qed.

Lemma dict_set_tabulate {K V : Type} `{EqDecision K} (g : K -> V) (keys : list K)
    (q : K) (v : V) :
  NoDup keys ->
  dict_set (map (fun k => (k, g k)) keys) q v
  = if decide (q ∈ keys)
    then map (fun k => (k, if decide (k = q) then v else g k)) keys
    else map (fun k => (k, g k)) keys ++ [(q, v)].
Proof.
  intros Hnodup. destruct (decide (q ∈ keys)) as [Hin|Hin].
  - induction keys as [|k keys IH]; [inversion Hin|].
    apply NoDup_cons in Hnodup as [Hk Hnodup]. simpl.
    destruct (decide (q = k)) as [->|Hne].
    + destruct (decide (k = k)) as [_|?]; [|contradiction].
      f_equal. apply map_ext_in. intros k' Hk'.
      destruct (decide (k' = k)) as [->|_]; [|reflexivity].
      apply list_elem_of_In in Hk'. contradiction.
    + destruct (decide (k = q)) as [?|_]; [congruence|].
      f_equal. apply IH; [exact Hnodup|].
      apply elem_of_cons in Hin as [?|?]; [contradiction | assumption].
  - apply dict_set_new. rewrite map_map. simpl. rewrite map_id. exact Hin.
Qed.

Lemma dict_tabulated {K V : Type} `{EqDecision K} (g : K -> V) (d : list (K * V)) :
  NoDup (map fst d) ->
  (forall q, q ∈ map fst d -> dict_get d q = Some (g q)) ->
  d = map (fun k => (k, g k)) (map fst d).
Proof.
  induction d as [|[k v] d IH]; intros Hnodup Hget; simpl in *.
  - reflexivity.
  - apply NoDup_cons in Hnodup as [Hk Hnodup].
    pose proof (Hget k (list_elem_of_here _ _)) as Hv.
    destruct (decide (k = k)) as [_|?]; [|contradiction]. injection Hv as ->.
    f_equal. apply IH; [exact Hnodup|].
    intros q Hq. specialize (Hget q (list_elem_of_further _ _ _ Hq)).
    destruct (decide (q = k)) as [->|_]; [contradiction | exact Hget].
Qed.

Lemma NoDup_set_update {X : Type} `{EqDecision X} (s xs : list X) :
  NoDup s -> NoDup (set_update s xs).
Proof.
  revert s. induction xs as [|x xs IH]; intros s Hs; [exact Hs|].
  unfold set_update. simpl. apply IH.
  decide_goal as Hin; [exact Hs|].
  apply NoDup_app. split; [exact Hs|]. split.
  - intros y Hy Hyx. apply list_elem_of_singleton in Hyx as ->. contradiction.
  - apply NoDup_singleton.
Qed.

Lemma NoDup_map_inj {X Y : Type} (f : X -> Y) (xs : list X) :
  (forall x y, f x = f y -> x = y) -> NoDup xs -> NoDup (map f xs).
Proof.
  intros Hinj. induction 1 as [|x xs Hx _ IH]; simpl; constructor; [|exact IH].
  intros Hin. apply list_elem_of_In, in_map_iff in Hin as (y & Heq & Hy).
  apply Hinj in Heq as ->. apply Hx, list_elem_of_In, Hy.
Qed.

Lemma NoDup_map_inv {X Y : Type} (f : X -> Y) (xs : list X) :
  NoDup (map f xs) -> NoDup xs.
Proof.
  induction xs as [|x xs IH]; simpl; intros Hnodup; [constructor|].
  apply NoDup_cons in Hnodup as [Hx Hnodup]. constructor; [|apply IH, Hnodup].
  intros Hin. apply Hx, list_elem_of_In, in_map, list_elem_of_In, Hin.
Qed.

(** ** [Counter] *)

Lemma occurrences_snoc (token t : string) (tokens : list string) :
  occurrences token (tokens ++ [t])
  = (occurrences token tokens + if decide (t = token) then 1 else 0)%Z.
Proof.
  induction tokens as [|t' tokens IH]; simpl.
  - destruct (decide (t = token)); reflexivity.
  - rewrite IH. destruct (decide (t' = token)); lia.
Qed.

Lemma occurrences_absent (token : string) (tokens : list string) :
  token ∉ tokens -> occurrences token tokens = 0%Z.
Proof.
  induction tokens as [|t tokens IH]; intros Hnot; simpl; [reflexivity|].
  apply not_elem_of_cons in Hnot as [Hne Hnot].
  destruct (decide (t = token)) as [?|_]; [congruence | apply IH, Hnot].
Qed.

Lemma Counter_update_entries (tokens : list string) :
  Counter_update [] tokens
  = map (fun token => (token, occurrences token tokens)) (set_update [] tokens).
Proof.
  induction tokens as [|t tokens IH] using rev_ind; [reflexivity|].
  unfold Counter_update in *. rewrite fold_left_app. simpl. rewrite IH.
  unfold dict_add. rewrite dict_get_tabulate.
  rewrite dict_set_tabulate by (apply NoDup_set_update, NoDup_nil_2).
  rewrite set_update_snoc.
  destruct (decide (t ∈ set_update [] tokens)) as [Hin|Hin].
  - apply map_ext. intros token. rewrite occurrences_snoc.
    destruct (decide (token = t)) as [->|Hne].
    + destruct (decide (t = t)) as [_|?]; [simpl; reflexivity | contradiction].
    + destruct (decide (t = token)) as [?|_]; [congruence|]. f_equal. lia.
  - rewrite map_app. simpl. f_equal.
    + apply map_ext_in. intros token Htoken. rewrite occurrences_snoc.
      destruct (decide (t = token)) as [<-|_]; [|f_equal; lia].
      apply list_elem_of_In in Htoken. contradiction.
    + rewrite occurrences_snoc.
      destruct (decide (t = t)) as [_|?]; [|contradiction].
      rewrite occurrences_absent; [reflexivity|].
      intros Ht. apply Hin. apply elem_of_set_update. right. exact Ht.
Qed.

Lemma Counter_update_corpus (tokens_of : string -> list string) (corpus : list string)
    (counts : list (string * Z)) :
  fold_left (fun token_counts text => Counter_update token_counts (tokens_of text))
            corpus counts
  = Counter_update counts (corpus_tokens tokens_of corpus).
Proof.
  revert counts. induction corpus as [|text corpus IH]; intros counts; simpl.
  - reflexivity.
  - rewrite IH. unfold Counter_update. rewrite fold_left_app. reflexivity.
Qed.

(** ** The keys of [make_bpe_style_tokens] *)

Lemma join_cons (sep x : string) (xs : list string) :
  xs <> [] -> join sep (x :: xs) = x +:+ sep +:+ join sep xs.
Proof. destruct xs; [contradiction | reflexivity]. Qed.

Lemma join_empty_cons (x : string) (xs : list string) :
  join "" (x :: xs) = x +:+ join "" xs.
Proof.
  destruct xs as [|y xs]; simpl.
  - rewrite append_nil_r. reflexivity.
  - reflexivity.
Qed.

Lemma bpe_key_cons (c : ascii) (token : string) :
  bpe_key (String c token) = String c (String " " (bpe_key token)).
Proof.
  unfold bpe_key, list_str. simpl map. rewrite <- app_comm_cons.
  rewrite join_cons; [reflexivity|]. destruct (map _ _); discriminate.
Qed.

Lemma bpe_key_inj (token token' : string) : bpe_key token = bpe_key token' -> token = token'.
Proof.
  revert token'. induction token as [|c token IH]; intros [|c' token'].
  - reflexivity.
  - rewrite bpe_key_cons. discriminate.
  - rewrite bpe_key_cons. discriminate.
  - rewrite !bpe_key_cons. intros [= -> Heq]. f_equal. apply IH, Heq.
Qed.

Lemma make_bpe_style_tokens_distinct (token_counts : list (string * Z)) :
  NoDup (map fst token_counts) ->
  make_bpe_style_tokens token_counts
  = map (fun '(key, value) => (bpe_key key, value)) token_counts.
Proof.
  intros Hnodup. unfold make_bpe_style_tokens.
  rewrite (fold_left_agree _ (fun d kv => dict_set d (bpe_key kv.1) kv.2))
    by (intros d [key value]; reflexivity).
  rewrite fold_dict_set_distinct.
  - simpl. apply map_ext. intros [key value]. reflexivity.
  - simpl. rewrite <- (map_map fst bpe_key).
    apply NoDup_map_inj; [|exact Hnodup].
    intros x y. apply bpe_key_inj.
Qed.

Lemma count_tokens_entries (tokens_of : string -> list string) (corpus : list string) :
  count_tokens tokens_of corpus
  = map (fun token => (bpe_key token, occurrences token (corpus_tokens tokens_of corpus)))
        (set_update [] (corpus_tokens tokens_of corpus)).
Proof.
  unfold count_tokens. rewrite Counter_update_corpus, Counter_update_entries.
  rewrite make_bpe_style_tokens_distinct.
  - rewrite map_map. reflexivity.
  - rewrite map_map. simpl. rewrite map_id. apply NoDup_set_update, NoDup_nil_2.
Qed.

Lemma total_dict_set {K : Type} `{EqDecision K} (d : list (K * Z)) (k : K) (v : Z) :
  fold_right Z.add 0%Z (map snd (dict_set d k v))
  = (fold_right Z.add 0%Z (map snd d) - default 0%Z (dict_get d k) + v)%Z.
Proof.
  induction d as [|[k' v'] d IH]; simpl.
  - lia.
  - destruct (decide (k = k')) as [->|Hne]; simpl; [lia|]. rewrite IH. lia.
Qed.

Lemma Counter_update_total (counts : list (string * Z)) (tokens : list string) :
  fold_right Z.add 0%Z (map snd (Counter_update counts tokens))
  = (fold_right Z.add 0%Z (map snd counts) + Z.of_nat (length tokens))%Z.
Proof.
  revert counts. induction tokens as [|t tokens IH]; intros counts.
  - simpl. lia.
  - change (Counter_update counts (t :: tokens))
      with (Counter_update (dict_add counts t 1) tokens).
    rewrite IH. unfold dict_add. rewrite total_dict_set. simpl length. lia.
Qed.

(** X8.  The constructor counts the tokens of the corpus: [token_counts]
    has one key for each distinct token, in the order of the first
    occurrences; the key is made of the characters of the token and the
    marker, separated by single spaces, and its value is the number of
    occurrences of the token.  The keys are distinct and the values add
    up to the number of tokens of the corpus. *)
Theorem count_tokens_counts_occurrences (tokens_of : string -> list string)
    (corpus : list string) (n_merges : Z) :
  token_counts (__init__ tokens_of corpus n_merges)
  = map (fun token => (bpe_key token, occurrences token (corpus_tokens tokens_of corpus)))
        (set_update [] (corpus_tokens tokens_of corpus))
  /\ NoDup (map fst (token_counts (__init__ tokens_of corpus n_merges)))
  /\ fold_right Z.add 0%Z (map snd (token_counts (__init__ tokens_of corpus n_merges)))
     = Z.of_nat (length (corpus_tokens tokens_of corpus)).
Proof.
  simpl token_counts. split; [apply count_tokens_entries|]. split.
  - rewrite count_tokens_entries, map_map. simpl.
    apply NoDup_map_inj; [apply bpe_key_inj|]. apply NoDup_set_update, NoDup_nil_2.
  - unfold count_tokens. rewrite Counter_update_corpus.
    rewrite make_bpe_style_tokens_distinct.
    + rewrite map_map.
      rewrite (map_ext _ snd) by (intros [key value]; reflexivity).
      rewrite Counter_update_total. simpl. lia.
    + rewrite Counter_update_entries, map_map. simpl. rewrite map_id.
      apply NoDup_set_update, NoDup_nil_2.
Qed.

(** ** The first vocabulary *)

Lemma initialize_vocab_elem (token_counts : list (string * Z)) (vocab0 : list string)
    (sym : string) :
  sym ∈ fold_left (fun vocab '(token, _) => set_update vocab (split token))
                  token_counts vocab0 ->
  sym ∈ vocab0
  \/ (exists token value, (token, value) ∈ token_counts /\ sym ∈ split token).
Proof.
  revert vocab0. induction token_counts as [|[token value] token_counts IH];
    intros vocab0; simpl; intros Hin.
  - left. exact Hin.
  - apply IH in Hin as [Hin|(token' & value' & Hentry & Hsym)].
    + apply elem_of_set_update in Hin as [Hin|Hin]; [left; exact Hin|].
      right. exists token, value. split; [left | exact Hin].
    + right. exists token', value'. split; [right; exact Hentry | exact Hsym].
Qed.

Lemma initialize_vocab_NoDup (token_counts : list (string * Z)) (vocab0 : list string) :
  NoDup vocab0 ->
  NoDup (fold_left (fun vocab '(token, _) => set_update vocab (split token))
                   token_counts vocab0).
Proof.
  revert vocab0. induction token_counts as [|[token value] token_counts IH];
    intros vocab0 Hnodup; simpl; [exact Hnodup|].
  apply IH, NoDup_set_update, Hnodup.
Qed.

(** X9.  [initialize_vocab] returns exactly the symbols of the keys, each
    of them once: a string is in the first vocabulary if and only if it
    is a symbol of some key, and the vocabulary has no duplicates. *)
Theorem initialize_vocab_exact (token_counts : list (string * Z)) :
  NoDup (initialize_vocab token_counts)
  /\ forall sym,
       sym ∈ initialize_vocab token_counts
       <-> exists token value, (token, value) ∈ token_counts /\ sym ∈ split token.
Proof.
  unfold initialize_vocab. split; [apply initialize_vocab_NoDup, NoDup_nil_2|].
  intros sym. split.
  - intros Hin. apply initialize_vocab_elem in Hin as [Hin|Hin]; [inversion Hin | exact Hin].
  - intros Hin. apply initialize_vocab_from. right. exact Hin.
Qed.

(** ** The words that the keys spell *)

Lemma symbol_char (c : ascii) : isspace c = false -> symbol (String c "").
Proof.
  intros Hc. split; [discriminate|]. unfold spaceless. simpl. constructor; [exact Hc|constructor].
Qed.

Lemma list_str_symbols (token : string) :
  spaceless token -> Forall symbol (list_str token ++ ["</W>"]).
Proof.
  unfold spaceless, list_str. intros Htoken. apply Forall_app. split.
  - induction Htoken as [|c cs Hc _ IH]; simpl; constructor; [apply symbol_char, Hc | exact IH].
  - constructor; [|constructor]. split; [discriminate|].
    unfold spaceless. simpl. repeat constructor.
Qed.

Lemma join_list_str (token marker : string) :
  join "" (list_str token ++ [marker]) = token +:+ marker.
Proof.
  unfold list_str. induction token as [|c token IH]; simpl map.
  - reflexivity.
  - rewrite <- app_comm_cons, join_empty_cons, IH. reflexivity.
Qed.

Lemma spelled_bpe_key (token : string) :
  spaceless token -> spelled (bpe_key token) = token +:+ "</W>".
Proof.
  intros Htoken. unfold spelled, bpe_key.
  rewrite split_join by (apply list_str_symbols, Htoken). apply join_list_str.
Qed.

Lemma join_merge_characters (vocab characters : list string) :
  join "" (merge_characters vocab characters) = join "" characters.
Proof.
  remember (length characters) as n eqn:Hn.
  revert characters Hn. induction n as [n IH] using lt_wf_ind.
  intros characters Hn. destruct characters as [|c0 [|c1 rest]]; [reflexivity..|].
  rewrite merge_characters_cons.
  destruct (decide (c0 +:+ c1 ∈ vocab)) as [Hin|Hnin].
  - rewrite !join_empty_cons, (IH (length rest)) by (simpl in *; lia || reflexivity).
    rewrite append_assoc. reflexivity.
  - rewrite (join_empty_cons c0 (c1 :: rest)), join_empty_cons.
    rewrite (IH (length (c1 :: rest))) by (simpl in *; lia || reflexivity).
    reflexivity.
Qed.

Lemma length_merge_characters (vocab characters : list string) :
  length (merge_characters vocab characters) <= length characters.
Proof.
  remember (length characters) as n eqn:Hn.
  revert characters Hn. induction n as [n IH] using lt_wf_ind.
  intros characters ->. destruct characters as [|c0 [|c1 rest]]; [simpl; lia..|].
  rewrite merge_characters_cons.
  destruct (decide (c0 +:+ c1 ∈ vocab)) as [Hin|Hnin].
  - pose proof (IH (length rest) ltac:(simpl in *; lia) rest eq_refl). simpl in *. lia.
  - pose proof (IH (length (c1 :: rest)) ltac:(simpl in *; lia) (c1 :: rest) eq_refl).
    simpl in *. lia.
Qed.

(** The key that [modify_tokens] builds from [key]. *)
Lemma split_new_token (vocab : list string) (key : string) :
  split (join " " (merge_characters vocab (split key)))
  = merge_characters vocab (split key).
Proof. apply split_join, merge_characters_symbols, split_symbols. Qed.

Lemma spelled_new_token (vocab : list string) (key : string) :
  spelled (join " " (merge_characters vocab (split key))) = spelled key.
Proof. unfold spelled. rewrite split_new_token. apply join_merge_characters. Qed.

Lemma step_inv (self self' : bpe_tokenizer) (chosen : string * string) :
  step self = Ok (chosen, self') ->
  find_most_common_pair self = Ok chosen
  /\ self' = modify_tokens (modify_vocab self (chosen.1 +:+ chosen.2))
                           (chosen.1 +:+ chosen.2).
Proof.
  unfold step. intros Hstep.
  destruct (find_most_common_pair self) as [best|e]; simpl in Hstep; [|discriminate].
  injection Hstep as -> <-. split; reflexivity.
Qed.

(** X10.  A loop iteration of [merge] never changes the word that a key
    spells, nor its count, and never lengthens a key: every key of the
    new [token_counts] comes from a key of the old one with the same
    count and the same symbols written together, has at most as many
    symbols, and is its own symbols joined by single spaces. *)
Theorem step_keeps_words (self self' : bpe_tokenizer) (chosen : string * string)
    (key' : string) (value : Z) :
  step self = Ok (chosen, self') ->
  (key', value) ∈ token_counts self' ->
  exists key,
    (key, value) ∈ token_counts self
    /\ spelled key' = spelled key
    /\ length (split key') <= length (split key)
    /\ key' = join " " (split key').
Proof.
  intros Hstep Hentry. apply step_inv in Hstep as [_ ->].
  apply modify_tokens_entries in Hentry as (key & Hkey & ->).
  exists key. split; [exact Hkey|]. simpl vocab.
  rewrite spelled_new_token, !split_new_token.
  split; [reflexivity|]. split; [apply length_merge_characters | reflexivity].
Qed.

Lemma step_keeps_words_witness :
  exists key,
    (key, 6%Z) ∈ token_counts example_tokenizer
    /\ spelled "n e w er </W>" = spelled key
    /\ length (split "n e w er </W>") <= length (split key)
    /\ "n e w er </W>" = join " " (split "n e w er </W>").
Proof.
  apply (step_keeps_words example_tokenizer
           (modify_tokens (modify_vocab example_tokenizer "er") "er") ("e", "r")).
  - vm_compute. reflexivity.
  - vm_compute. do 2 right. left.
Defined.

(** ** The counts of the words *)

Lemma append_inj_l (s1 s2 marker : string) : s1 +:+ marker = s2 +:+ marker -> s1 = s2.
Proof.
  intros Heq. apply (f_equal list_ascii_of_string) in Heq.
  rewrite !chars_append in Heq. apply app_inv_tail in Heq.
  rewrite <- (string_of_list_ascii_of_string s1), <- (string_of_list_ascii_of_string s2).
  rewrite Heq. reflexivity.
Qed.

Lemma occurrences_total (tokens : list string) :
  fold_right Z.add 0%Z
    (map (fun token => occurrences token tokens) (set_update [] tokens))
  = Z.of_nat (length tokens).
Proof.
  pose proof (Counter_update_total [] tokens) as Htotal.
  rewrite Counter_update_entries, map_map in Htotal. simpl in Htotal. exact Htotal.
Qed.

Lemma corpus_tokens_spaceless (tokens_of : string -> list string) (corpus : list string)
    (token : string) :
  Forall (fun text => Forall spaceless (tokens_of text)) corpus ->
  token ∈ set_update [] (corpus_tokens tokens_of corpus) -> spaceless token.
Proof.
  intros Hcorpus Htoken.
  apply elem_of_set_update in Htoken as [Htoken|Htoken]; [inversion Htoken|].
  apply list_elem_of_In, in_flat_map in Htoken as (text & Htext & Htoken).
  rewrite Forall_forall in Hcorpus.
  specialize (Hcorpus text (proj2 (list_elem_of_In _ _) Htext)).
  rewrite Forall_forall in Hcorpus. apply Hcorpus, list_elem_of_In, Htoken.
Qed.

Lemma words_counted_init (tokens_of : string -> list string) (corpus : list string)
    (n_merges : Z) :
  Forall (fun text => Forall spaceless (tokens_of text)) corpus ->
  words_counted tokens_of (__init__ tokens_of corpus n_merges).
Proof.
  intros Hcorpus. unfold words_counted, __init__.
  cbn [BPE.corpus BPE.token_counts].
  rewrite count_tokens_entries, map_map. apply map_ext_in. intros token Htoken.
  f_equal. apply spelled_bpe_key.
  apply (corpus_tokens_spaceless tokens_of corpus); [exact Hcorpus|].
  apply list_elem_of_In, Htoken.
Qed.

Lemma modify_tokens_distinct (self : bpe_tokenizer) (new_character : string) :
  NoDup (map (fun '(key, _) => spelled key) (token_counts self)) ->
  token_counts (modify_tokens self new_character)
  = map (fun '(key, value) =>
           (join " " (merge_characters (vocab self) (split key)), value))
        (token_counts self).
Proof.
  intros Hnodup. simpl.
  rewrite (fold_left_agree _ (fun d (x : string * Z) =>
             dict_set d (join " " (merge_characters (vocab self) (split x.1))) x.2))
    by (intros d [token value]; reflexivity).
  rewrite fold_dict_set_distinct.
  - simpl. apply map_ext. intros [key value]. reflexivity.
  - simpl. apply (NoDup_map_inv spelled). rewrite map_map.
    rewrite (map_ext _ (fun '(key, _) => spelled key)); [exact Hnodup|].
    intros [key value]. apply spelled_new_token.
Qed.

Lemma words_counted_NoDup (tokens_of : string -> list string) (self : bpe_tokenizer) :
  words_counted tokens_of self ->
  NoDup (map (fun '(key, _) => spelled key) (token_counts self)).
Proof.
  unfold words_counted. intros Hwords.
  apply (f_equal (map fst)) in Hwords. rewrite !map_map in Hwords. simpl in Hwords.
  rewrite (map_ext _ (fun x => fst (let '(key, value) := x in (spelled key, value))))
    by (intros [key value]; reflexivity).
  rewrite Hwords. apply NoDup_map_inj; [|apply NoDup_set_update, NoDup_nil_2].
  intros x y. apply append_inj_l.
Qed.

Lemma words_counted_step (tokens_of : string -> list string)
    (self self' : bpe_tokenizer) (chosen : string * string) :
  words_counted tokens_of self -> step self = Ok (chosen, self') ->
  words_counted tokens_of self'.
Proof.
  intros Hwords Hstep. apply step_inv in Hstep as [_ ->].
  pose proof (words_counted_NoDup _ _ Hwords) as Hnodup.
  unfold words_counted in *.
  rewrite modify_tokens_distinct by exact Hnodup.
  simpl corpus. simpl token_counts. rewrite <- Hwords, map_map.
  apply map_ext. intros [key value]. rewrite spelled_new_token. reflexivity.
Qed.

Lemma step_fields (self self' : bpe_tokenizer) (chosen : string * string) :
  step self = Ok (chosen, self') ->
  corpus self' = corpus self /\ n_merges self' = n_merges self
  /\ n_merges_done self' = n_merges_done self
  /\ vocab self' = vocab self ++ [chosen.1 +:+ chosen.2].
Proof. intros Hstep. apply step_inv in Hstep as [_ ->]. repeat split. Qed.

Lemma steps_fields (n : nat) (self last : bpe_tokenizer) :
  steps n self last ->
  corpus last = corpus self /\ n_merges last = n_merges self
  /\ n_merges_done last = n_merges_done self
  /\ vocab last = vocab self ++ map (fun p => p.1 +:+ p.2) (selected_pairs n self)
  /\ length (selected_pairs n self) = n.
Proof.
  induction 1 as [self|n self chosen self' last Hstep _ (IH1 & IH2 & IH3 & IH4 & IH5)].
  - simpl. rewrite app_nil_r. repeat split.
  - simpl selected_pairs. rewrite Hstep.
    apply step_fields in Hstep as (H1 & H2 & H3 & H4).
    rewrite IH1, IH2, IH3, IH4, H1, H2, H3, H4. simpl. rewrite <- app_assoc, IH5.
    repeat split.
Qed.

Lemma words_counted_steps (tokens_of : string -> list string) (n : nat)
    (self last : bpe_tokenizer) :
  steps n self last -> words_counted tokens_of self -> words_counted tokens_of last.
Proof.
  induction 1 as [self|n self chosen self' last Hstep _ IH]; intros Hwords.
  - exact Hwords.
  - apply IH. eapply words_counted_step; eassumption.
Qed.

(** How the loop of [merge] can end: after all its iterations, or at the
    first iteration that raises, which it does with a [ValueError]. *)
Lemma step_raises_ValueError (self : bpe_tokenizer) (e : exn) :
  step self = Raise e -> e = ValueError.
Proof.
  unfold step, find_most_common_pair. rewrite count_pairs_scan. simpl.
  destruct (map fst _) as [|p ps]; simpl; [|discriminate].
  intros [= <-]. reflexivity.
Qed.

Lemma merge_loop_outcome (n : nat) (self last : bpe_tokenizer) (r : result unit) :
  merge_loop n self = (last, r) ->
  (r = Ok tt /\ steps n self last)
  \/ (r = Raise ValueError
      /\ exists k, k < n /\ steps k self last /\ step last = Raise ValueError).
Proof.
  revert self. induction n as [|n IH]; intros self; simpl.
  - intros [= <- <-]. left. split; [reflexivity | constructor].
  - destruct (step self) as [[chosen next]|e] eqn:Hstep.
    + intros Hloop. apply IH in Hloop as [[-> Hsteps]|(-> & k & Hk & Hsteps & Hlast)].
      * left. split; [reflexivity|]. econstructor; eassumption.
      * right. split; [reflexivity|]. exists (S k).
        split; [lia|]. split; [econstructor; eassumption | exact Hlast].
    + intros [= <- <-]. pose proof (step_raises_ValueError _ _ Hstep) as ->.
      right. split; [reflexivity|]. exists 0.
      split; [lia|]. split; [constructor | exact Hstep].
Qed.

Lemma words_counted_merge (tokens_of : string -> list string) (self : bpe_tokenizer)
    (n : option Z) :
  words_counted tokens_of self -> words_counted tokens_of (merge self n).1.
Proof.
  intros Hwords. unfold merge.
  destruct (merge_loop _ self) as [last r] eqn:Hloop.
  assert (words_counted tokens_of last) as Hlast.
  { apply merge_loop_outcome in Hloop as [[_ Hsteps]|(_ & k & _ & Hsteps & _)];
      eapply words_counted_steps; eassumption. }
  destruct r as [[]|e]; exact Hlast.
Qed.

Lemma merge_corpus (self : bpe_tokenizer) (n : option Z) :
  corpus (merge self n).1 = corpus self.
Proof.
  unfold merge. destruct (merge_loop _ self) as [last r] eqn:Hloop.
  apply merge_loop_outcome in Hloop as [[-> Hsteps]|(-> & k & _ & Hsteps & _)];
    apply steps_fields in Hsteps as (Hcorpus & _); exact Hcorpus.
Qed.

Lemma words_counted_reachable (tokens_of : string -> list string)
    (self : bpe_tokenizer) :
  reachable tokens_of self ->
  Forall (fun text => Forall spaceless (tokens_of text)) (corpus self) ->
  words_counted tokens_of self.
Proof.
  intros Hreach Hcorpus.
  induction Hreach as [corpus n_merges|self chosen self' _ IH Hstep|self n _ IH].
  - apply words_counted_init. exact Hcorpus.
  - pose proof (step_fields _ _ _ Hstep) as (Heq & _). rewrite Heq in Hcorpus.
    eapply words_counted_step; [apply IH, Hcorpus | exact Hstep].
  - rewrite merge_corpus in Hcorpus. apply words_counted_merge, IH, Hcorpus.
Qed.

(** X11.  When the tokens of the corpus contain no white space, every
    object that a program can hold still counts the words of the corpus:
    its keys, in their order, spell the distinct tokens in the order of
    their first occurrence, each followed by the marker, with the number
    of occurrences of the token as value; so no merge ever loses or mixes
    a count, and the values add up to the number of tokens. *)
Theorem reachable_words_counted (tokens_of : string -> list string)
    (self : bpe_tokenizer) :
  reachable tokens_of self ->
  Forall (fun text => Forall spaceless (tokens_of text)) (corpus self) ->
  words_counted tokens_of self
  /\ fold_right Z.add 0%Z (map snd (token_counts self))
     = Z.of_nat (length (corpus_tokens tokens_of (corpus self))).
Proof.
  intros Hreach Hcorpus.
  pose proof (words_counted_reachable _ _ Hreach Hcorpus) as Hwords.
  split; [exact Hwords|].
  unfold words_counted in Hwords. apply (f_equal (map snd)) in Hwords.
  rewrite !map_map in Hwords. simpl in Hwords.
  rewrite (map_ext _ snd) in Hwords by (intros [key value]; reflexivity).
  rewrite Hwords. apply occurrences_total.
Qed.

Lemma reachable_words_counted_witness :
  words_counted split (merge (__init__ split ["low low lower"; "newer new"] 10) (Some 3%Z)).1
  /\ fold_right Z.add 0%Z
       (map snd (token_counts
          (merge (__init__ split ["low low lower"; "newer new"] 10) (Some 3%Z)).1))
     = Z.of_nat (length (corpus_tokens split
          (corpus (merge (__init__ split ["low low lower"; "newer new"] 10) (Some 3%Z)).1))).
Proof.
  apply (reachable_words_counted split
           (merge (__init__ split ["low low lower"; "newer new"] 10) (Some 3%Z)).1).
  - apply reachable_merge, reachable_init.
  - vm_compute. repeat constructor.
Defined.

(** ** How [merge] ends *)

Lemma merge_inv_Ok (self self' : bpe_tokenizer) (n : Z) :
  merge self (Some n) = (self', Ok tt) ->
  exists last,
    merge_loop (Z.to_nat n) self = (last, Ok tt)
    /\ self' = set_n_merges_done last (n_merges_done last + n)%Z.
Proof.
  unfold merge. simpl default.
  destruct (merge_loop (Z.to_nat n) self) as [last [[]|e]]; [|discriminate].
  intros [= <-]. exists last. split; reflexivity.
Qed.

Lemma merge_inv_Raise (self last : bpe_tokenizer) (n : Z) (e : exn) :
  merge self (Some n) = (last, Raise e) ->
  merge_loop (Z.to_nat n) self = (last, Raise e).
Proof.
  unfold merge. simpl default.
  destruct (merge_loop (Z.to_nat n) self) as [last' [[]|e']]; [discriminate|].
  intros [= <- <-]. reflexivity.
Qed.

(** X12.  When [merge] raises, the exception is a [ValueError] of [max];
    the object is left as the iterations that were completed made it,
    with the symbols they merged in [vocab], but [n_merges_done] does not
    count them: it keeps the value it had before the call. *)
Theorem merge_failure_keeps_iterations (self last : bpe_tokenizer) (n : Z) (e : exn) :
  merge self (Some n) = (last, Raise e) ->
  e = ValueError
  /\ exists k,
       k < Z.to_nat n
       /\ steps k self last
       /\ step last = Raise ValueError
       /\ vocab last = vocab self ++ map (fun p => p.1 +:+ p.2) (selected_pairs k self)
       /\ n_merges_done last = n_merges_done self.
Proof.
  intros Hmerge. apply merge_inv_Raise, merge_loop_outcome in Hmerge
    as [[[=] _]|([= ->] & k & Hk & Hsteps & Hlast)].
  split; [reflexivity|]. exists k.
  pose proof (steps_fields _ _ _ Hsteps) as (_ & _ & Hdone & Hvocab & _).
  repeat split; assumption.
Qed.

Lemma merge_failure_keeps_iterations_witness :
  ValueError = ValueError
  /\ exists k,
       k < Z.to_nat 30
       /\ steps k example_tokenizer (merge example_tokenizer (Some 30%Z)).1
       /\ step (merge example_tokenizer (Some 30%Z)).1 = Raise ValueError
       /\ vocab (merge example_tokenizer (Some 30%Z)).1
          = vocab example_tokenizer
            ++ map (fun p => p.1 +:+ p.2) (selected_pairs k example_tokenizer)
       /\ n_merges_done (merge example_tokenizer (Some 30%Z)).1
          = n_merges_done example_tokenizer.
Proof.
  apply (merge_failure_keeps_iterations example_tokenizer
           (merge example_tokenizer (Some 30%Z)).1 30 ValueError).
  vm_compute. reflexivity.
Defined.

(** X13.  A call of [merge] that returns has appended to [vocab], in the
    order of their selection, the concatenations of the pairs that its
    iterations selected, one for each of the [n] iterations, has removed
    nothing from it, and has added [n] to [n_merges_done]. *)
Theorem merge_appends_merged_symbols (self self' : bpe_tokenizer) (n : Z) :
  merge self (Some n) = (self', Ok tt) ->
  vocab self'
  = vocab self ++ map (fun p => p.1 +:+ p.2) (selected_pairs (Z.to_nat n) self)
  /\ length (selected_pairs (Z.to_nat n) self) = Z.to_nat n
  /\ n_merges_done self' = (n_merges_done self + n)%Z
  /\ corpus self' = corpus self.
Proof.
  intros Hmerge. apply merge_inv_Ok in Hmerge as (last & Hloop & ->).
  apply merge_loop_steps, steps_fields in Hloop as (Hcorpus & _ & Hdone & Hvocab & Hlen).
  simpl. rewrite Hdone. repeat split; assumption.
Qed.

Lemma merge_appends_merged_symbols_witness :
  vocab (merge example_tokenizer (Some 8%Z)).1
  = vocab example_tokenizer
    ++ map (fun p => p.1 +:+ p.2) (selected_pairs (Z.to_nat 8) example_tokenizer)
  /\ length (selected_pairs (Z.to_nat 8) example_tokenizer) = Z.to_nat 8
  /\ n_merges_done (merge example_tokenizer (Some 8%Z)).1
     = (n_merges_done example_tokenizer + 8)%Z
  /\ corpus (merge example_tokenizer (Some 8%Z)).1 = corpus example_tokenizer.
Proof.
  apply (merge_appends_merged_symbols example_tokenizer
           (merge example_tokenizer (Some 8%Z)).1 8).
  vm_compute. reflexivity.
Defined.

(** ** Training in several calls *)

Lemma step_set_n_merges_done (self : bpe_tokenizer) (v : Z) :
  step (set_n_merges_done self v)
  = match step self with
    | Ok (chosen, self') => Ok (chosen, set_n_merges_done self' v)
    | Raise e => Raise e
    end.
Proof.
  unfold step.
  change (find_most_common_pair (set_n_merges_done self v))
    with (find_most_common_pair self).
  destruct (find_most_common_pair self) as [chosen|e]; reflexivity.
Qed.

Lemma merge_loop_set_n_merges_done (n : nat) (self : bpe_tokenizer) (v : Z) :
  merge_loop n (set_n_merges_done self v)
  = (set_n_merges_done (merge_loop n self).1 v, (merge_loop n self).2).
Proof.
  revert self. induction n as [|n IH]; intros self; simpl; [reflexivity|].
  rewrite step_set_n_merges_done.
  destruct (step self) as [[chosen next]|e]; [apply IH | reflexivity].
Qed.

Lemma merge_loop_add (a b : nat) (self : bpe_tokenizer) :
  merge_loop (a + b) self
  = match merge_loop a self with
    | (self', Ok _) => merge_loop b self'
    | (self', Raise e) => (self', Raise e)
    end.
Proof.
  revert self. induction a as [|a IH]; intros self; simpl; [reflexivity|].
  destruct (step self) as [[chosen next]|e]; [apply IH | reflexivity].
Qed.

(** X14.  Training can be done in several calls: when [merge(a)] and
    then [merge(b)] return, for [a] and [b] that are not negative, the
    object is the one that a single [merge(a + b)] on the first object
    produces, and that call returns as well. *)
Theorem merge_twice (self self1 self2 : bpe_tokenizer) (a b : Z) :
  (0 <= a)%Z -> (0 <= b)%Z ->
  merge self (Some a) = (self1, Ok tt) ->
  merge self1 (Some b) = (self2, Ok tt) ->
  merge self (Some (a + b)%Z) = (self2, Ok tt).
Proof.
  intros Ha Hb Hfirst Hsecond.
  apply merge_inv_Ok in Hfirst as (last1 & Hloop1 & ->).
  apply merge_inv_Ok in Hsecond as (last2 & Hloop2 & ->).
  rewrite merge_loop_set_n_merges_done in Hloop2.
  destruct (merge_loop (Z.to_nat b) last1) as [last r] eqn:Hloop.
  simpl in Hloop2. injection Hloop2 as <- ->.
  pose proof (merge_loop_steps _ _ _ Hloop) as Hsteps.
  apply steps_fields in Hsteps as (_ & _ & Hdone & _).
  unfold merge. simpl default.
  rewrite Z2Nat.inj_add, merge_loop_add, Hloop1, Hloop by assumption.
  unfold set_n_merges_done. simpl. rewrite Hdone. do 2 f_equal. lia.
Qed.

Lemma merge_twice_witness :
  merge example_tokenizer (Some (3 + 5)%Z)
  = ((merge (merge example_tokenizer (Some 3%Z)).1 (Some 5%Z)).1, Ok tt).
Proof.
  apply (merge_twice example_tokenizer (merge example_tokenizer (Some 3%Z)).1
           (merge (merge example_tokenizer (Some 3%Z)).1 (Some 5%Z)).1 3 5).
  - lia.
  - lia.
  - vm_compute. reflexivity.
  - vm_compute. reflexivity.
Defined.

(** ** Every iteration removes a symbol *)

Lemma max_from_elem {X : Type} (key : X -> Z) (best : X) (xs : list X) :
  max_from key best xs ∈ best :: xs.
Proof.
  revert best. induction xs as [|x xs IH]; intros best; simpl; [left|].
  destruct (key best <? key x)%Z.
  - right. apply IH.
  - specialize (IH best). apply elem_of_cons in IH as [->|IH]; [left | do 2 right; exact IH].
Qed.

Lemma find_most_common_pair_adjacent (self : bpe_tokenizer) (best : string * string) :
  find_most_common_pair self = Ok best ->
  exists key value,
    (key, value) ∈ token_counts self /\ best ∈ adjacent_pairs (split key).
Proof.
  unfold find_most_common_pair. rewrite count_pairs_scan. simpl.
  destruct (aggregate_scan (scanned_pairs (token_counts self))) as [Hkeys _].
  simpl in Hkeys. rewrite Hkeys.
  destruct (set_update [] _) as [|p ps] eqn:Hset; simpl; [discriminate|].
  intros [= <-].
  match goal with
  | |- context [max_from ?key p ps] =>
      pose proof (max_from_elem key p ps) as Hin; revert Hin;
      generalize (max_from key p ps)
  end.
  intros best Hin. rewrite <- Hset in Hin. clear Hkeys Hset.
  apply elem_of_set_update in Hin as [Hin|Hin]; [inversion Hin|].
  apply list_elem_of_In, in_map_iff in Hin as ([q value] & Hq & Hin). simpl in Hq. subst q.
  unfold scanned_pairs in Hin. apply in_flat_map in Hin as ([key value'] & Hkey & Hin).
  apply in_map_iff in Hin as (q & [= <- _] & Hin).
  exists key, value'. split; apply list_elem_of_In; assumption.
Qed.

Lemma merge_characters_shrinks (vocab characters : list string) (x y : string) :
  (x, y) ∈ adjacent_pairs characters -> x +:+ y ∈ vocab ->
  length (merge_characters vocab characters) < length characters.
Proof.
  intros Hpair Hvocab.
  induction characters as [|c0 [|c1 rest] IH].
  - inversion Hpair.
  - inversion Hpair.
  - rewrite merge_characters_cons.
    destruct (decide (c0 +:+ c1 ∈ vocab)) as [Hin|Hnin].
    + pose proof (length_merge_characters vocab rest). simpl in *. lia.
    + rewrite adjacent_pairs_cons in Hpair.
      apply elem_of_cons in Hpair as [[= -> ->]|Hpair]; [contradiction|].
      specialize (IH Hpair). simpl in *. lia.
Qed.

Lemma symbol_total_dict_set (d : list (string * Z)) (k : string) (v : Z) :
  symbol_total (dict_set d k v) <= symbol_total d + length (split k).
Proof.
  unfold symbol_total. induction d as [|[k' v'] d IH]; simpl.
  - lia.
  - destruct (decide (k = k')) as [->|Hne]; simpl; lia.
Qed.

Lemma symbol_total_fold (f : string * Z -> string) (g : string * Z -> Z)
    (xs : list (string * Z)) (d : list (string * Z)) :
  symbol_total (fold_left (fun d x => dict_set d (f x) (g x)) xs d)
  <= symbol_total d + list_sum (map (fun x => length (split (f x))) xs).
Proof.
  revert d. induction xs as [|x xs IH]; intros d; simpl; [lia|].
  pose proof (IH (dict_set d (f x) (g x))).
  pose proof (symbol_total_dict_set d (f x) (g x)). lia.
Qed.

Lemma list_sum_lt {X : Type} (f g : X -> nat) (xs : list X) (x : X) :
  (forall y, f y <= g y) -> x ∈ xs -> f x < g x ->
  list_sum (map f xs) < list_sum (map g xs).
Proof.
  intros Hle Hin Hlt.
  assert (forall ys, list_sum (map f ys) <= list_sum (map g ys)) as Hall.
  { induction ys as [|y ys IH]; simpl; [lia|]. specialize (Hle y). lia. }
  induction xs as [|y xs IH]; [inversion Hin|]. simpl.
  apply elem_of_cons in Hin as [<-|Hin].
  - specialize (Hall xs). lia.
  - specialize (IH Hin). specialize (Hle y). lia.
Qed.

Lemma step_decreases (self self' : bpe_tokenizer) (chosen : string * string) :
  step self = Ok (chosen, self') ->
  symbol_total (token_counts self') < symbol_total (token_counts self).
Proof.
  intros Hstep. apply step_inv in Hstep as [Hfind ->].
  apply find_most_common_pair_adjacent in Hfind as (key & value & Hkey & Hpair).
  destruct chosen as [a b]. simpl fst. simpl snd.
  set (vocab' := vocab self ++ [a +:+ b]).
  change (token_counts (modify_tokens (modify_vocab self (a +:+ b)) (a +:+ b)))
    with (fold_left (fun d '(token, value) =>
            dict_set d (join " " (merge_characters vocab' (split token))) value)
            (token_counts self) []).
  rewrite (fold_left_agree _ (fun d (x : string * Z) =>
             dict_set d (join " " (merge_characters vocab' (split x.1))) x.2))
    by (intros d [token value']; reflexivity).
  eapply Nat.le_lt_trans; [apply symbol_total_fold|].
  change (symbol_total []) with 0. rewrite Nat.add_0_l. unfold symbol_total.
  apply (list_sum_lt _ _ _ (key, value)).
  - intros [token value']. simpl. rewrite split_new_token.
    apply length_merge_characters.
  - exact Hkey.
  - simpl. rewrite split_new_token.
    apply (merge_characters_shrinks _ _ a b); [exact Hpair|].
    unfold vocab'. apply elem_of_app. right. left.
Qed.

Lemma steps_symbol_total (n : nat) (self last : bpe_tokenizer) :
  steps n self last ->
  n + symbol_total (token_counts last) <= symbol_total (token_counts self).
Proof.
  induction 1 as [self|n self chosen self' last Hstep _ IH]; [lia|].
  apply step_decreases in Hstep. lia.
Qed.

(** X15.  Every iteration of [merge] that completes removes at least one
    symbol from the keys, so [merge] cannot complete more iterations
    than the keys have symbols: a call that asks for more raises a
    [ValueError], after at most that many iterations. *)
Theorem merge_beyond_symbols_raises (self : bpe_tokenizer) (n : Z) :
  symbol_total (token_counts self) < Z.to_nat n ->
  exists last k,
    merge self (Some n) = (last, Raise ValueError)
    /\ steps k self last
    /\ k + symbol_total (token_counts last) <= symbol_total (token_counts self).
Proof.
  intros Hn. unfold merge. simpl default.
  destruct (merge_loop (Z.to_nat n) self) as [last r] eqn:Hloop.
  apply merge_loop_outcome in Hloop as [[-> Hsteps]|(-> & k & Hk & Hsteps & Hlast)].
  - apply steps_symbol_total in Hsteps. lia.
  - exists last, k. split; [reflexivity|]. split; [exact Hsteps|].
    apply steps_symbol_total, Hsteps.
Qed.

Lemma merge_beyond_symbols_raises_witness :
  exists last k,
    merge example_tokenizer (Some 28%Z) = (last, Raise ValueError)
    /\ steps k example_tokenizer last
    /\ k + symbol_total (token_counts last) <= symbol_total (token_counts example_tokenizer).
Proof.
  apply (merge_beyond_symbols_raises example_tokenizer 28). vm_compute. lia.
Defined.

(** ** The form of the keys *)

Lemma keys_joined_init (tokens_of : string -> list string) (corpus : list string) :
  Forall (fun text => Forall spaceless (tokens_of text)) corpus ->
  Forall (fun '(key, _) => key = join " " (split key)) (count_tokens tokens_of corpus).
Proof.
  intros Hcorpus. rewrite count_tokens_entries. apply Forall_forall.
  intros [key value] Hin.
  apply list_elem_of_In, in_map_iff in Hin as (token & [= <- _] & Htoken).
  unfold bpe_key at 2. rewrite split_join; [reflexivity|].
  apply list_str_symbols.
  apply (corpus_tokens_spaceless tokens_of corpus); [exact Hcorpus|].
  apply list_elem_of_In, Htoken.
Qed.

Lemma keys_joined_step (self self' : bpe_tokenizer) (chosen : string * string) :
  step self = Ok (chosen, self') ->
  Forall (fun '(key, _) => key = join " " (split key)) (token_counts self').
Proof.
  intros Hstep. apply step_inv in Hstep as [_ ->]. apply Forall_forall.
  intros [key value] Hin. apply modify_tokens_entries in Hin as (key0 & _ & ->).
  rewrite split_new_token. reflexivity.
Qed.

Lemma keys_joined_steps (n : nat) (self last : bpe_tokenizer) :
  steps n self last ->
  Forall (fun '(key, _) => key = join " " (split key)) (token_counts self) ->
  Forall (fun '(key, _) => key = join " " (split key)) (token_counts last).
Proof.
  induction 1 as [self|n self chosen self' last Hstep _ IH]; intros Hkeys; [exact Hkeys|].
  apply IH. eapply keys_joined_step. exact Hstep.
Qed.

Lemma keys_joined_merge (self : bpe_tokenizer) (n : option Z) :
  Forall (fun '(key, _) => key = join " " (split key)) (token_counts self) ->
  Forall (fun '(key, _) => key = join " " (split key)) (token_counts (merge self n).1).
Proof.
  intros Hkeys. unfold merge.
  destruct (merge_loop _ self) as [last r] eqn:Hloop.
  apply merge_loop_outcome in Hloop as [[-> Hsteps]|(-> & k & _ & Hsteps & _)];
    apply (keys_joined_steps _ _ _ Hsteps Hkeys).
Qed.

(** X19.  When the tokens of the corpus contain no white space, the keys
    of every object that a program can hold are distinct, and each key is
    its symbols joined by single spaces, with no other white space. *)
Theorem reachable_keys_well_formed (tokens_of : string -> list string)
    (self : bpe_tokenizer) :
  reachable tokens_of self ->
  Forall (fun text => Forall spaceless (tokens_of text)) (corpus self) ->
  NoDup (map fst (token_counts self))
  /\ Forall (fun '(key, _) => key = join " " (split key)) (token_counts self).
Proof.
  intros Hreach Hcorpus. split.
  - pose proof (words_counted_NoDup _ _ (words_counted_reachable _ _ Hreach Hcorpus))
      as Hnodup.
    apply (NoDup_map_inv spelled). rewrite map_map.
    rewrite (map_ext _ (fun '(key, _) => spelled key)); [exact Hnodup|].
    intros [key value]. reflexivity.
  - induction Hreach as [corpus n_merges|self chosen self' _ _ Hstep|self n _ IH].
    + apply keys_joined_init. exact Hcorpus.
    + eapply keys_joined_step. exact Hstep.
    + rewrite merge_corpus in Hcorpus. apply keys_joined_merge, IH, Hcorpus.
Qed.

Lemma reachable_keys_well_formed_witness :
  NoDup (map fst (token_counts
           (merge (__init__ split ["low low lower"; "newer new"] 10) (Some 4%Z)).1))
  /\ Forall (fun '(key, _) => key = join " " (split key))
       (token_counts (merge (__init__ split ["low low lower"; "newer new"] 10) (Some 4%Z)).1).
Proof.
  apply (reachable_keys_well_formed split
           (merge (__init__ split ["low low lower"; "newer new"] 10) (Some 4%Z)).1).
  - apply reachable_merge, reachable_init.
  - vm_compute. repeat constructor.
Defined.

End TrainerTheory.

(** * The reference implementation *)

Module ReferenceTheory.

Import BPE Reference PythonTheory BPETheory TrainerTheory.

(** ** [get_stats] *)

(** X16.  [get_stats] never raises, and maps every adjacent pair of
    symbols of the words, in the order in which the pairs are first met,
    to the sum of the frequencies of the words it occurs in, once for
    each occurrence; a pair that occurs nowhere is not a key. *)
Theorem get_stats_aggregates (vocab : list (string * Z)) :
  get_stats vocab
  = Ok (map (fun pair => (pair, pair_count (scanned_pairs vocab) pair))
            (set_update [] (map fst (scanned_pairs vocab)))).
Proof.
  change (get_stats vocab) with (count_pairs vocab). rewrite count_pairs_scan. f_equal.
  destruct (aggregate_scan (scanned_pairs vocab)) as [Hkeys Hget]. simpl in Hkeys, Hget.
  rewrite <- Hkeys. apply dict_tabulated.
  - rewrite Hkeys. apply NoDup_set_update, NoDup_nil_2.
  - intros q Hq. rewrite Hget. rewrite Hkeys in Hq.
    apply elem_of_set_update in Hq as [Hq|Hq]; [inversion Hq|].
    destruct (decide (q ∈ map fst (scanned_pairs vocab))); [reflexivity | contradiction].
Qed.

(** ** The substitution of [merge_vocab] *)

Section Substitution.

Variables literal repl : string.

Lemma sub_from_0 (before : option ascii) (c : ascii) (s : string) :
  sub_from literal repl 0 before (String c s)
  = if matches_here literal before (String c s)
    then repl +:+ sub_from literal repl (String.length literal - 1) (Some c) s
    else String c (sub_from literal repl 0 (Some c) s).
Proof. reflexivity. Qed.

Lemma sub_from_skip (u rest : string) (before : option ascii) :
  sub_from literal repl (String.length u) before (u +:+ rest)
  = sub_from literal repl 0 (last_char before u) rest.
Proof.
  revert before. induction u as [|c u IH]; intros before.
  - rewrite append_nil_l. reflexivity.
  - rewrite append_cons. simpl. apply IH.
Qed.

Lemma last_char_nonspace (u : string) (before : option ascii) :
  spaceless u -> not_after_nonspace before = false ->
  not_after_nonspace (last_char before u) = false.
Proof.
  unfold spaceless. revert before. induction u as [|c u IH]; intros before Hu Hbefore.
  - exact Hbefore.
  - simpl in *. inversion Hu; subst. apply IH; assumption.
Qed.

Lemma last_char_symbol (u : string) (before : option ascii) :
  symbol u -> not_after_nonspace (last_char before u) = false.
Proof.
  intros [Hne Hu]. destruct u as [|c u]; [contradiction|].
  unfold spaceless in Hu. simpl in *. inversion Hu; subst.
  apply last_char_nonspace; assumption.
Qed.

Lemma last_char_append (u v : string) (before : option ascii) :
  last_char before (u +:+ v) = last_char (last_char before u) v.
Proof.
  revert before. induction u as [|c u IH]; intros before.
  - rewrite append_nil_l. reflexivity.
  - rewrite append_cons. simpl. apply IH.
Qed.

Lemma matches_here_after_nonspace (before : option ascii) (s : string) :
  not_after_nonspace before = false -> matches_here literal before s = false.
Proof. unfold matches_here. intros ->. reflexivity. Qed.

(** Inside a symbol, and on the space that follows it, nothing matches. *)
Lemma sub_from_inner (u rest : string) (before : option ascii) :
  spaceless u -> not_after_nonspace before = false ->
  sub_from literal repl 0 before (u +:+ rest)
  = u +:+ sub_from literal repl 0 (last_char before u) rest.
Proof.
  unfold spaceless. revert before. induction u as [|c u IH]; intros before Hu Hbefore.
  - rewrite !append_nil_l. reflexivity.
  - rewrite !append_cons, sub_from_0, matches_here_after_nonspace by exact Hbefore.
    simpl in Hu. inversion Hu; subst. f_equal. apply IH; assumption.
Qed.

Lemma sub_from_separator (rest : string) (before : option ascii) :
  not_after_nonspace before = false ->
  sub_from literal repl 0 before (" " +:+ rest)
  = " " +:+ sub_from literal repl 0 (Some " "%char) rest.
Proof.
  intros Hbefore. rewrite !append_cons, !append_nil_l, sub_from_0.
  rewrite matches_here_after_nonspace by exact Hbefore. reflexivity.
Qed.

Lemma sub_from_symbol (c0 rest : string) (before : option ascii) :
  symbol c0 -> matches_here literal before (c0 +:+ rest) = false ->
  sub_from literal repl 0 before (c0 +:+ rest)
  = c0 +:+ sub_from literal repl 0 (last_char before c0) rest.
Proof.
  intros [Hne Hc0] Hno. destruct c0 as [|x c0]; [contradiction|].
  unfold spaceless in Hc0. simpl in Hc0. inversion Hc0; subst.
  rewrite append_cons in *. rewrite sub_from_0, Hno, append_cons. f_equal.
  simpl last_char. apply sub_from_inner; assumption.
Qed.

End Substitution.

(** At a match the replacement is written and the scan goes on behind
    the matched text. *)
Lemma sub_from_match (literal repl rest : string) (before : option ascii) :
  literal <> "" -> matches_here literal before (literal +:+ rest) = true ->
  sub_from literal repl 0 before (literal +:+ rest)
  = repl +:+ sub_from literal repl 0 (last_char before literal) rest.
Proof.
  intros Hne Hyes. destruct literal as [|x literal']; [contradiction|].
  rewrite append_cons in *. rewrite sub_from_0, Hyes. f_equal.
  replace (String.length (String x literal') - 1) with (String.length literal')
    by (simpl; lia).
  simpl last_char. apply sub_from_skip.
Qed.

Lemma match_literal_Some (literal s rest : string) :
  match_literal literal s = Some rest <-> s = literal +:+ rest.
Proof.
  revert s. induction literal as [|a literal IH]; intros s.
  - rewrite append_nil_l. simpl. split; [intros [= ->] | intros ->]; reflexivity.
  - rewrite append_cons. destruct s as [|c s]; simpl.
    + split; discriminate.
    + destruct (decide (a = c)) as [->|Hne].
      * rewrite IH. split; [intros -> | intros [= ->]]; reflexivity.
      * split; [discriminate | intros [= -> _]; contradiction].
Qed.

(** A symbol ends where the first white space, or the end of the string,
    is. *)
Lemma boundary_unique (u v X Y : string) :
  spaceless u -> spaceless v ->
  not_before_nonspace X = true -> not_before_nonspace Y = true ->
  u +:+ X = v +:+ Y -> u = v /\ X = Y.
Proof.
  unfold spaceless. revert v. induction u as [|c u IH]; intros [|c' v] Hu Hv HX HY.
  - rewrite !append_nil_l. auto.
  - rewrite append_nil_l, append_cons. intros ->. simpl in *.
    inversion Hv; subst. congruence.
  - rewrite append_nil_l, append_cons. intros <-. simpl in *.
    inversion Hu; subst. congruence.
  - rewrite !append_cons. intros [= -> Heq]. simpl in *.
    inversion Hu; subst. inversion Hv; subst.
    destruct (IH v) as [-> ->]; auto.
Qed.

Lemma replace_pair_nonempty (a b c0 : string) (rest : list string) :
  replace_pair a b (c0 :: rest) <> [].
Proof.
  destruct rest as [|c1 rest]; [discriminate|]. rewrite replace_pair_cons.
  destruct (decide (c0 = a /\ c1 = b)); discriminate.
Qed.

(** The rest of a joined key after its first symbol. *)
Lemma join_symbols_cons (c0 : string) (rest : list string) :
  exists tail,
    join " " (c0 :: rest) = c0 +:+ tail
    /\ not_before_nonspace tail = true
    /\ (rest = [] -> tail = "")
    /\ (rest <> [] -> tail = " " +:+ join " " rest).
Proof.
  destruct rest as [|c1 rest].
  - exists "". simpl. rewrite append_nil_r. repeat split; congruence.
  - exists (" " +:+ join " " (c1 :: rest)). repeat split; congruence.
Qed.

Section Bigram.

Variables a b : string.
Hypothesis symbol_a : symbol a.
Hypothesis symbol_b : symbol b.

Lemma bigram_nonempty : a +:+ " " +:+ b <> "".
Proof.
  intros Heq. apply append_eq_nil in Heq as [_ Heq]. discriminate.
Qed.

Lemma bigram_last_char (before : option ascii) :
  not_after_nonspace (last_char before (a +:+ " " +:+ b)) = false.
Proof. rewrite !last_char_append. apply last_char_symbol, symbol_b. Qed.

(** The pattern matches in front of a symbol exactly when the symbol is
    [a] and the next one is [b]. *)
Lemma matches_here_pair (c0 c1 : string) (rest : list string) (before : option ascii) :
  symbol c0 -> symbol c1 -> not_after_nonspace before = true ->
  matches_here (a +:+ " " +:+ b) before (join " " (c0 :: c1 :: rest)) = true
  <-> c0 = a /\ c1 = b.
Proof.
  intros [_ Hc0] [_ Hc1] Hbefore.
  destruct (join_symbols_cons c1 rest) as (tail & Hjoin & Htail & _).
  rewrite (join_cons " " c0 (c1 :: rest)) by discriminate. rewrite Hjoin.
  unfold matches_here. rewrite Hbefore. simpl andb. split.
  - destruct (match_literal _ _) as [after|] eqn:Hmatch; [|discriminate].
    intros Hafter. apply match_literal_Some in Hmatch.
    rewrite !append_assoc in Hmatch.
    apply boundary_unique in Hmatch as [<- Hmatch];
      [|exact Hc0|apply symbol_a|reflexivity..].
    rewrite !append_cons, !append_nil_l in Hmatch. injection Hmatch as Hmatch.
    apply boundary_unique in Hmatch as [<- _];
      [auto|exact Hc1|apply symbol_b|assumption..].
  - intros [-> ->].
    replace (match_literal _ _) with (Some tail); [exact Htail|].
    symmetry. apply match_literal_Some. rewrite !append_assoc. reflexivity.
Qed.

Lemma matches_here_single (c0 : string) (before : option ascii) :
  symbol c0 -> matches_here (a +:+ " " +:+ b) before (join " " [c0]) = false.
Proof.
  intros [_ Hc0]. unfold matches_here. simpl join.
  destruct (match_literal _ _) as [after|] eqn:Hmatch; [|apply andb_false_r].
  apply match_literal_Some in Hmatch. rewrite !append_assoc in Hmatch.
  rewrite <- (append_nil_r c0) in Hmatch at 1.
  apply boundary_unique in Hmatch as [_ Hmatch];
    [discriminate|exact Hc0|apply symbol_a|reflexivity..].
Qed.

(** On a key that is its symbols joined by single spaces, the
    substitution is the rewrite of the symbols. *)
Lemma sub_from_symbols (characters : list string) (before : option ascii) :
  Forall symbol characters -> not_after_nonspace before = true ->
  sub_from (a +:+ " " +:+ b) (a +:+ b) 0 before (join " " characters)
  = join " " (replace_pair a b characters).
Proof.
  remember (length characters) as n eqn:Hn.
  revert characters before Hn. induction n as [n IH] using lt_wf_ind.
  intros characters before Hn Hsym Hbefore. destruct characters as [|c0 [|c1 rest]].
  - reflexivity.
  - inversion Hsym as [|? ? H0 _]; subst.
    pose proof (matches_here_single c0 before H0) as Hno.
    simpl join in *. rewrite <- (append_nil_r c0) in Hno |- * at 1.
    rewrite sub_from_symbol by assumption. simpl. apply append_nil_r.
  - inversion Hsym as [|? ? H0 Hsym1]; subst.
    inversion Hsym1 as [|? ? H1 Hsym2]; subst.
    pose proof (matches_here_pair c0 c1 rest before H0 H1 Hbefore) as Hmatch.
    rewrite replace_pair_cons.
    destruct (decide (c0 = a /\ c1 = b)) as [[-> ->]|Hne].
    + destruct (join_symbols_cons b rest) as (tail & Hjoin & Htail & Hnil & Hcons).
      rewrite (join_cons " " a (b :: rest)) in Hmatch |- * by discriminate.
      rewrite Hjoin in Hmatch |- *.
      replace (a +:+ " " +:+ b +:+ tail) with ((a +:+ " " +:+ b) +:+ tail) in Hmatch |- *
        by (rewrite !append_assoc; reflexivity).
      rewrite sub_from_match; [|apply bigram_nonempty|apply Hmatch; auto].
      destruct rest as [|c2 rest].
      * rewrite Hnil by reflexivity. simpl. apply append_nil_r.
      * rewrite Hcons by discriminate.
        rewrite sub_from_separator by apply bigram_last_char.
        rewrite (IH (length (c2 :: rest))); [|simpl in *; lia|reflexivity|exact Hsym2|reflexivity].
        rewrite join_cons by apply replace_pair_nonempty. reflexivity.
    + assert (matches_here (a +:+ " " +:+ b) before (join " " (c0 :: c1 :: rest)) = false)
        as Hno.
      { destruct (matches_here _ _ _); [|reflexivity]. exfalso. apply Hne, Hmatch. reflexivity. }
      rewrite (join_cons " " c0 (c1 :: rest)) in Hno |- * by discriminate.
      rewrite sub_from_symbol by assumption.
      rewrite sub_from_separator by (apply last_char_symbol, H0).
      rewrite (IH (length (c1 :: rest))); [|simpl in *; lia|reflexivity|exact Hsym1|reflexivity].
      rewrite join_cons by apply replace_pair_nonempty. reflexivity.
Qed.

End Bigram.

Lemma pattern_sub_symbols (sub_template : string -> string -> string -> result string)
    (a b : string) (characters : list string) :
  symbol a -> symbol b -> has_backslash (a +:+ b) = false -> Forall symbol characters ->
  pattern_sub sub_template (join " " [a; b]) (join "" [a; b]) (join " " characters)
  = Ok (join " " (replace_pair a b characters)).
Proof.
  intros Ha Hb Hliteral Hsym. unfold pattern_sub.
  change (join "" [a; b]) with (a +:+ b). rewrite Hliteral.
  change (join " " [a; b]) with (a +:+ " " +:+ b).
  f_equal. apply sub_from_symbols; auto.
Qed.

(** X17.  On a word that is a sequence of symbols joined by single
    spaces, and for a pair of symbols without backslash, the regular
    expression of [merge_vocab] does the rewrite of the specification:
    scanning from the left, each occurrence of the first symbol
    immediately followed by the second, not overlapping an earlier one,
    becomes their concatenation, and nothing else changes; a symbol that
    only contains one of the two as a part is left alone. *)
Theorem pattern_sub_replaces_pair
    (sub_template : string -> string -> string -> result string)
    (a b : string) (characters : list string) :
  symbol a -> symbol b -> has_backslash (a +:+ b) = false -> Forall symbol characters ->
  pattern_sub sub_template (join " " [a; b]) (join "" [a; b]) (join " " characters)
  = Ok (join " " (replace_pair a b characters)).
Proof. apply pattern_sub_symbols. Qed.

Lemma pattern_sub_replaces_pair_witness :
  pattern_sub (fun _ _ _ => Raise "error") (join " " ["e"; "r"]) (join "" ["e"; "r"])
              (join " " ["n"; "e"; "w"; "e"; "r"; "er"; "e"; "r"; "</w>"])
  = Ok (join " " (replace_pair "e" "r" ["n"; "e"; "w"; "e"; "r"; "er"; "e"; "r"; "</w>"])).
Proof.
  apply (pattern_sub_replaces_pair (fun _ _ _ => Raise "error") "e" "r"
           ["n"; "e"; "w"; "e"; "r"; "er"; "e"; "r"; "</w>"]).
  - split; [discriminate | vm_compute; repeat constructor].
  - split; [discriminate | vm_compute; repeat constructor].
  - reflexivity.
  - repeat constructor; discriminate.
Defined.

(** ** [merge_vocab] and the class *)

Lemma dict_get_NoDup {K V : Type} `{EqDecision K} (d : list (K * V)) (k : K) (v : V) :
  NoDup (map fst d) -> (k, v) ∈ d -> dict_get d k = Some v.
Proof.
  induction d as [|[k' v'] d IH]; simpl; intros Hnodup Hin; [inversion Hin|].
  apply NoDup_cons in Hnodup as [Hk Hnodup].
  apply elem_of_cons in Hin as [[= -> ->]|Hin].
  - destruct (decide (k' = k')); [reflexivity | contradiction].
  - destruct (decide (k = k')) as [->|_]; [|apply IH; assumption].
    exfalso. apply Hk. apply list_elem_of_In, in_map_iff. exists (k', v).
    split; [reflexivity | apply list_elem_of_In, Hin].
Qed.

Lemma fold_left_agree_in {A B : Type} (f g : A -> B -> A) (xs : list B) (a : A) :
  (forall a x, x ∈ xs -> f a x = g a x) -> fold_left f xs a = fold_left g xs a.
Proof.
  revert a. induction xs as [|x xs IH]; intros a Hfg; simpl; [reflexivity|].
  rewrite Hfg by left. apply IH. intros a' y Hy. apply Hfg. right. exact Hy.
Qed.

Lemma adjacent_pairs_elem (characters : list string) (x y : string) :
  (x, y) ∈ adjacent_pairs characters -> x ∈ characters /\ y ∈ characters.
Proof.
  induction characters as [|c0 [|c1 rest] IH]; intros Hin.
  - inversion Hin.
  - inversion Hin.
  - rewrite adjacent_pairs_cons in Hin. apply elem_of_cons in Hin as [[= -> ->]|Hin].
    + split; [left | right; left].
    + destruct (IH Hin) as [Hx Hy]. split; right; assumption.
Qed.

Lemma merge_characters_only_pair (vocab : list string) (a b : string)
    (characters : list string) :
  a +:+ b ∈ vocab ->
  Forall (fun '(x, y) => x +:+ y ∈ vocab -> x = a /\ y = b) (adjacent_pairs characters) ->
  merge_characters vocab characters = replace_pair a b characters.
Proof.
  intros Hab.
  remember (length characters) as n eqn:Hn.
  revert characters Hn. induction n as [n IH] using lt_wf_ind.
  intros characters Hn Honly. destruct characters as [|c0 [|c1 rest]]; try reflexivity.
  rewrite merge_characters_cons, replace_pair_cons.
  rewrite adjacent_pairs_cons in Honly. inversion Honly as [|? ? Hfirst Htail]; subst.
  destruct (decide (c0 +:+ c1 ∈ vocab)) as [Hin|Hnin].
  - destruct (Hfirst Hin) as [-> ->].
    destruct (decide (a = a /\ b = b)) as [_|Hne]; [|exfalso; apply Hne; auto].
    f_equal. apply (IH (length rest)); [simpl; lia | reflexivity |].
    destruct rest as [|c2 rest]; [constructor|].
    rewrite adjacent_pairs_cons in Htail. inversion Htail; assumption.
  - destruct (decide (c0 = a /\ c1 = b)) as [[-> ->]|_]; [contradiction|].
    f_equal. apply (IH (length (c1 :: rest))); [simpl; lia | reflexivity | exact Htail].
Qed.

Section MergeVocab.

Variable sub_template : string -> string -> string -> result string.

Lemma merge_vocab_from (a b : string) (v_in xs d : list (string * Z)) :
  symbol a -> symbol b -> has_backslash (a +:+ b) = false ->
  NoDup (map fst v_in) ->
  (forall x, x ∈ xs -> x ∈ v_in) ->
  Forall (fun '(word, _) => word = join " " (split word)) xs ->
  for_ (map fst xs) (fun word v_out =>
    w_out ← pattern_sub sub_template (join " " [a; b]) (join "" [a; b]) word;
    value ← dict_item v_in word;
    Ok (dict_set v_out w_out value)) d
  = Ok (fold_left (fun v_out '(word, freq) =>
          dict_set v_out (join " " (replace_pair a b (split word))) freq) xs d).
Proof.
  intros Ha Hb Hliteral Hnodup. revert d.
  induction xs as [|[word freq] xs IH]; intros d Hsub Hwords; [reflexivity|].
  inversion Hwords as [|? ? Hword Hwords']; subst. cbn [map fst for_].
  rewrite Hword at 1.
  rewrite pattern_sub_symbols by (try assumption; apply split_symbols).
  unfold dict_item.
  rewrite (dict_get_NoDup v_in word freq) by (try assumption; apply Hsub; left).
  cbn [mbind result_bind fold_left]. apply IH; [|exact Hwords'].
  intros x Hx. apply Hsub. right. exact Hx.
Qed.

(** X18.  The class and the reference implementation agree on an
    iteration: when the keys are distinct and are their symbols joined
    by single spaces, the selected pair has no backslash, and no other
    adjacent pair of a key concatenates to a symbol of the vocabulary,
    [merge_vocab] applied to the selected pair and [token_counts]
    returns the [token_counts] that the iteration of [merge] leaves. *)
Theorem step_agrees_with_merge_vocab (self self' : bpe_tokenizer) (a b : string) :
  step self = Ok ((a, b), self') ->
  has_backslash (a +:+ b) = false ->
  NoDup (map fst (token_counts self)) ->
  Forall (fun '(key, _) => key = join " " (split key)) (token_counts self) ->
  Forall (fun '(key, _) =>
            Forall (fun '(x, y) => x +:+ y ∈ vocab self ++ [a +:+ b] -> x = a /\ y = b)
                   (adjacent_pairs (split key)))
         (token_counts self) ->
  merge_vocab sub_template (a, b) (token_counts self) = Ok (token_counts self').
Proof.
  intros Hstep Hliteral Hnodup Hwords Honly.
  apply step_inv in Hstep as [Hfind ->].
  apply find_most_common_pair_adjacent in Hfind as (key & value & Hkey & Hpair).
  apply adjacent_pairs_elem in Hpair as [Ha Hb].
  pose proof (split_symbols key) as Hsym. rewrite Forall_forall in Hsym.
  unfold merge_vocab. cbn [fst snd].
  rewrite merge_vocab_from; auto. f_equal.
  change (token_counts (modify_tokens (modify_vocab self (a +:+ b)) (a +:+ b)))
    with (fold_left (fun d '(token, value) =>
            dict_set d (join " " (merge_characters (vocab self ++ [a +:+ b]) (split token)))
                     value) (token_counts self) []).
  apply fold_left_agree_in. intros d [token value'] Hin.
  rewrite Forall_forall in Honly. specialize (Honly _ Hin). simpl in Honly.
  rewrite (merge_characters_only_pair _ a b); [reflexivity | | exact Honly].
  apply elem_of_app. right. left.
Qed.

End MergeVocab.

Lemma step_agrees_with_merge_vocab_witness :
  merge_vocab (fun _ _ _ => Raise "error") ("e", "r") (token_counts example_tokenizer)
  = Ok (token_counts (modify_tokens (modify_vocab example_tokenizer "er") "er")).
Proof.
  apply (step_agrees_with_merge_vocab (fun _ _ _ => Raise "error") example_tokenizer
           (modify_tokens (modify_vocab example_tokenizer "er") "er") "e" "r").
  - vm_compute. reflexivity.
  - reflexivity.
  - apply (bool_decide_unpack _). vm_compute. exact I.
  - vm_compute. repeat constructor.
  - vm_compute token_counts. vm_compute app.
    repeat (constructor;
      [vm_compute adjacent_pairs;
       repeat (constructor;
         [intros Hin;
          first [split; reflexivity
                |exfalso; vm_compute in Hin;
                 repeat (apply elem_of_cons in Hin as [Hin|Hin]; [discriminate Hin|]);
                 inversion Hin]|]);
       constructor|]).
    constructor.
Defined.

(** The loop of the cell on its [vocab]: the model prints the eight pairs
    that the notebook records as the output of the cell. *)
Example learn_prints_recorded_pairs
    (sub_template : string -> string -> string -> result string) :
  learn sub_template 8 example_vocab
  = Ok ([("e", "r"); ("er", "</w>"); ("n", "e"); ("ne", "w"); ("l", "o"); ("lo", "w");
         ("new", "er</w>"); ("low", "</w>")],
        [("low</w>", 5%Z); ("low e s t </w>", 2%Z); ("newer</w>", 6%Z);
         ("w i d er</w>", 3%Z); ("new </w>", 2%Z)]).
Proof. vm_compute. reflexivity. Qed.

End ReferenceTheory.
